(** * hathor-core: the node manager and the transaction metadata

    A shallow embedding of [hathor/p2p/manager.py] (class [HathorManager]),
    [hathor/transaction/transaction_metadata.py] (class
    [TransactionMetadata]) and [hathor/transaction/genesis.py], with the
    properties the specification states about them.

    Conventions.
    - Python [bytes] are lists of [Byte.byte]; [str] is [string].
    - Python exceptions are the [Raise] results of the [result] monad.  A
      call that raises ends there; where the state it leaves behind
      matters ([update_peer], [reconnect_to_all], the wallet) the method
      gives that state too.  Printed messages are left out.
    - Block and transaction weights are Python floats.  The weight of a
      vertex is a real number ([R]) or the float [nan], which the
      comparison with the target tells apart; the target weight and the
      retarget are over the real numbers, with [math.log] the real
      logarithm.
    - The floats a metadata object carries ([accumulated_weight], [score])
      are only compared and copied; they are binary64 floats ([float]),
      whose comparison keeps the IEEE behaviour of Python's [!=].
    - The sets and the dictionary of a metadata object are objects in a
      heap, so that sharing between two metadata objects can be stated.
    - Calls into collaborators whose code is outside the modelled files
      (wallet, sync manager, peer connections, dialer) are recorded, in
      order, in the [events] trace of the manager.  The parser of endpoint
      descriptions, which may raise, is the class [Endpoints].
    - [random.choice] takes the draw as an argument. *)

From Stdlib Require Import ZArith List Strings.String Strings.Ascii Strings.Byte Reals Lra Lia.
From Stdlib Require Import Floats.PrimFloat.
From stdpp Require Import base option list gmap sets strings.

Local Open Scope Z_scope.

(** ** Python results *)

Inductive PyError : Type :=
| TypeError
| ValueError
| IndexError
| KeyError
| AssertionError
| ZeroDivisionError.

Inductive result (A : Type) : Type :=
| Ok (a : A)
| Raise (e : PyError).

Arguments Ok {A} a.
Arguments Raise {A} e.

#[global] Instance result_ret : MRet result := fun A a => Ok a.

#[global] Instance result_bind : MBind result := fun A B k r =>
  match r with
  | Ok a => k a
  | Raise e => Raise e
  end.

Abbreviation bytes := (list byte).

(** ** [bytes.hex] and [bytes.fromhex] *)

Module Hex.

(** The lower-case digit of a value below 16: ['0'] is 48 and ['a'] is 97. *)
Definition hex_digit (n : N) : ascii :=
  ascii_of_N (if (n <? 10)%N then 48 + n else 87 + n)%N.

(** The value of a hexadecimal digit, in either case. *)
Definition hex_value (c : ascii) : option N :=
  let n := N_of_ascii c in
  (if (48 <=? n) && (n <=? 57) then Some (n - 48)
   else if (97 <=? n) && (n <=? 102) then Some (n - 87)
   else if (65 <=? n) && (n <=? 70) then Some (n - 55)
   else None)%N.

(** ASCII white space, which [bytes.fromhex] skips between bytes: the
    space and the control characters 9 to 13. *)
Definition is_space (c : ascii) : bool :=
  let n := N_of_ascii c in
  ((n =? 32) || ((9 <=? n) && (n <=? 13)))%N.

(** [b.hex()]: two lower-case digits per byte. *)
Fixpoint hex (b : bytes) : string :=
  match b with
  | [] => EmptyString
  | x :: b' =>
      String (hex_digit (Byte.to_N x / 16))
        (String (hex_digit (Byte.to_N x mod 16)) (hex b'))
  end.

(** [bytes.fromhex(s)]: pairs of digits, white space skipped before a
    pair; anything else is a [ValueError]. *)
Fixpoint fromhex (s : string) : result bytes :=
  match s with
  | EmptyString => Ok []
  | String c rest =>
      if is_space c then fromhex rest
      else
        match rest with
        | EmptyString => Raise ValueError
        | String d rest' =>
            match hex_value c, hex_value d with
            | Some hi, Some lo =>
                match Byte.of_N (hi * 16 + lo) with
                | Some x => tl ← fromhex rest'; Ok (x :: tl)
                | None => Raise ValueError
                end
            | _, _ => Raise ValueError
            end
        end
  end.

End Hex.

#[global] Instance byte_eq_dec : EqDecision byte := Byte.byte_eq_dec.

#[global] Instance byte_countable : Countable byte :=
  inj_countable Byte.to_N Byte.of_N Byte.of_to_N.

(** ** [hathor/transaction/transaction_metadata.py] *)

Module Metadata.

(** *** Objects and the heap

    The sets and the dictionary a metadata object holds are mutable
    Python objects.  They live in a heap; an attribute holds the
    location of its object, so that two metadata objects share state
    exactly when they hold a common location.  Allocation appends to
    the heap.  [bytes], [str], numbers and [None] are immutable and are
    kept as values. *)

Abbreviation loc := nat.

Inductive Obj : Type :=
| OSet (s : gset bytes)        (* Set[bytes] *)
| OIntSet (s : gset Z)         (* Set[int] *)
| ODict (d : gmap Z loc).      (* Dict[int, Set[bytes]]: index to set object *)

Abbreviation heap := (list Obj).

(** Heap computations that may raise. *)
Definition M (A : Type) : Type := heap -> result (A * heap).

#[global] Instance M_ret : MRet M := fun A a h => Ok (a, h).

#[global] Instance M_bind : MBind M := fun A B k c h =>
  match c h with
  | Ok (a, h') => k a h'
  | Raise e => Raise e
  end.

Definition lift {A : Type} (r : result A) : M A := fun h =>
  match r with
  | Ok a => Ok (a, h)
  | Raise e => Raise e
  end.

Definition alloc (o : Obj) : M loc := fun h => Ok (length h, h ++ [o]).

Definition read_set (l : loc) : M (gset bytes) := fun h =>
  match h !! l with
  | Some (OSet s) => Ok (s, h)
  | _ => Raise TypeError
  end.

Definition read_intset (l : loc) : M (gset Z) := fun h =>
  match h !! l with
  | Some (OIntSet s) => Ok (s, h)
  | _ => Raise TypeError
  end.

Definition read_dict (l : loc) : M (gmap Z loc) := fun h =>
  match h !! l with
  | Some (ODict d) => Ok (d, h)
  | _ => Raise TypeError
  end.

Definition write (l : loc) (o : Obj) : M unit := fun h => Ok (tt, <[l:=o]> h).

Fixpoint for_each {A : Type} (xs : list A) (body : A -> M unit) : M unit :=
  match xs with
  | [] => mret tt
  | x :: xs' => _ ← body x; for_each xs' body
  end.

(** *** The class *)

Record TransactionMetadata : Type := {
  hash : option bytes;
  spent_outputs : loc;
  conflict_with : loc;
  voided_by : loc;
  received_by : loc;
  children : loc;
  twins : loc;
  accumulated_weight : float;
  score : float;
  first_block : option bytes }.

(** [__init__]: [spent_outputs or defaultdict(set)] keeps a given
    non-empty dictionary and allocates a new one otherwise; then five
    new empty sets, in the order of the source. *)
Definition __init__ (spent_outputs0 : option loc) (hash0 : option bytes)
    (accumulated_weight0 score0 : float) : M TransactionMetadata :=
  so ← match spent_outputs0 with
       | Some l =>
           d ← read_dict l;
           if decide (d = ∅) then alloc (ODict ∅) else mret l
       | None => alloc (ODict ∅)
       end;
  cw ← alloc (OSet ∅);
  vb ← alloc (OSet ∅);
  rb ← alloc (OIntSet ∅);
  ch ← alloc (OSet ∅);
  tw ← alloc (OSet ∅);
  mret {| hash := hash0; spent_outputs := so; conflict_with := cw;
          voided_by := vb; received_by := rb; children := ch; twins := tw;
          accumulated_weight := accumulated_weight0; score := score0;
          first_block := None |}.

(** The contents of a dictionary of set objects, for comparison by
    value: [None] when a value is not a set of [bytes]. *)
Definition set_at (h : heap) (l : loc) : option (gset bytes) :=
  match h !! l with
  | Some (OSet s) => Some s
  | _ => None
  end.

Definition contents (h : heap) (d : gmap Z loc) : option (gmap Z (gset bytes)) :=
  if decide (map_Forall (fun _ l => is_Some (set_at h l)) d)
  then Some (omap (set_at h) d) else None.

Definition read_contents (l : loc) : M (gmap Z (gset bytes)) := fun h =>
  match h !! l with
  | Some (ODict d) =>
      match contents h d with
      | Some c => Ok (c, h)
      | None => Raise TypeError
      end
  | _ => Raise TypeError
  end.

(** [__eq__]: the fields are compared with [!=], in the order of the
    source; sets and dictionaries compare by contents, floats as IEEE
    numbers. *)
Definition __eq__ (self other : TransactionMetadata) : M bool :=
  so1 ← read_contents (spent_outputs self);
  so2 ← read_contents (spent_outputs other);
  cw1 ← read_set (conflict_with self);
  cw2 ← read_set (conflict_with other);
  vb1 ← read_set (voided_by self);
  vb2 ← read_set (voided_by other);
  rb1 ← read_intset (received_by self);
  rb2 ← read_intset (received_by other);
  ch1 ← read_set (children self);
  ch2 ← read_set (children other);
  tw1 ← read_set (twins self);
  tw2 ← read_set (twins other);
  mret (if negb (bool_decide (hash self = hash other)) then false
        else if negb (bool_decide (so1 = so2)) then false
        else if negb (bool_decide (cw1 = cw2)) then false
        else if negb (bool_decide (vb1 = vb2)) then false
        else if negb (bool_decide (rb1 = rb2)) then false
        else if negb (bool_decide (ch1 = ch2)) then false
        else if negb (accumulated_weight self =? accumulated_weight other)%float then false
        else if negb (bool_decide (tw1 = tw2)) then false
        else if negb (score self =? score other)%float then false
        else if negb (bool_decide (first_block self = first_block other)) then false
        else true).

(** *** JSON data

    The dictionary [to_json] builds and [create_from_json] reads.  Keys
    that [create_from_json] reads with [in] or [.get] may be absent
    ([None] at the outer [option]). *)

Inductive PyVal : Type :=
| PyNone
| PyStr (s : string)
| PyBytes (b : bytes).

Record Json : Type := {
  j_hash : PyVal;
  j_spent_outputs : list (Z * list string);
  j_received_by : list Z;
  j_children : list string;
  j_conflict_with : option (list string);
  j_voided_by : option (list string);
  j_twins : option (list string);
  j_accumulated_weight : float;
  j_score : option float;
  j_first_block : option PyVal }.

(** Python truth value. *)
Definition truthy (v : PyVal) : bool :=
  match v with
  | PyNone => false
  | PyStr s => negb (String.eqb s EmptyString)
  | PyBytes b => match b with [] => false | _ => true end
  end.

(** [bytes.fromhex(v)]: the argument must be a [str]. *)
Definition py_fromhex (v : PyVal) : result bytes :=
  match v with
  | PyStr s => Hex.fromhex s
  | _ => Raise TypeError
  end.

(** [[h.hex() for h in s]] for a set object. *)
Definition hex_list (s : gset bytes) : list string := Hex.hex <$> elements s.

Definition to_json (m : TransactionMetadata) : M Json :=
  (* self.hash and self.hash.hex() *)
  let data_hash :=
    match hash m with
    | None => PyNone
    | Some [] => PyBytes []
    | Some b => PyStr (Hex.hex b)
    end in
  d ← read_dict (spent_outputs m);
  data_spent ← mapM (fun '(idx, l) => hashes ← read_set l; mret (idx, hex_list hashes))
                 (map_to_list d);
  rb ← read_intset (received_by m);
  ch ← read_set (children m);
  cw ← read_set (conflict_with m);
  vb ← read_set (voided_by m);
  tw ← read_set (twins m);
  mret {| j_hash := data_hash;
          j_spent_outputs := data_spent;
          j_received_by := elements rb;
          j_children := hex_list ch;
          j_conflict_with := Some (hex_list cw);
          j_voided_by := Some (hex_list vb);
          j_twins := Some (hex_list tw);
          j_accumulated_weight := accumulated_weight m;
          j_score := Some (score m);
          j_first_block :=
            Some match first_block m with
                 | Some b => PyStr (Hex.hex b)
                 | None => PyNone
                 end |}.

(** [d[idx]] on a [defaultdict(set)]: a missing key gets a new empty set. *)
Definition defaultdict_getitem (l : loc) (idx : Z) : M loc :=
  d ← read_dict l;
  match d !! idx with
  | Some s => mret s
  | None =>
      s ← alloc (OSet ∅);
      _ ← write l (ODict (<[idx:=s]> d));
      mret s
  end.

(** [s.add(x)] *)
Definition set_add (l : loc) (x : bytes) : M unit :=
  s ← read_set l;
  write l (OSet ({[x]} ∪ s)).

(** [set(bytes.fromhex(h) for h in hs)]: a new set object. *)
Definition set_fromhex (hs : list string) : M loc :=
  bs ← lift (mapM Hex.fromhex hs);
  alloc (OSet (list_to_set bs)).

Definition create_from_json (data : Json) : M TransactionMetadata :=
  meta ← __init__ None None 0%float 0%float;
  hash' ← lift (py_fromhex (j_hash data));
  _ ← for_each (j_spent_outputs data) (fun '(idx, hashes) =>
        for_each hashes (fun h_hex =>
          s ← defaultdict_getitem (spent_outputs meta) idx;
          b ← lift (Hex.fromhex h_hex);
          set_add s b));
  received_by' ← alloc (OIntSet (list_to_set (j_received_by data)));
  children' ← set_fromhex (j_children data);
  conflict_with' ←
    match j_conflict_with data with
    | Some hs => set_fromhex hs
    | None => alloc (OSet ∅)
    end;
  voided_by' ←
    match j_voided_by data with
    | Some hs => set_fromhex hs
    | None => alloc (OSet ∅)
    end;
  twins' ←
    match j_twins data with
    | Some hs => set_fromhex hs
    | None => alloc (OSet ∅)
    end;
  first_block' ←
    match j_first_block data with
    | Some raw =>
        if truthy raw then b ← lift (py_fromhex raw); mret (Some b)
        else mret (first_block meta)
    | None => mret (first_block meta)
    end;
  mret {| hash := Some hash';
          spent_outputs := spent_outputs meta;
          conflict_with := conflict_with';
          voided_by := voided_by';
          received_by := received_by';
          children := children';
          twins := twins';
          accumulated_weight := j_accumulated_weight data;
          score := default 0%float (j_score data);
          first_block := first_block' |}.

Definition clone (m : TransactionMetadata) : M TransactionMetadata :=
  data ← to_json m;
  create_from_json data.

(** *** Well-formed metadata and reachable objects *)

(** The locations the attributes of [m] hold, and the set objects its
    dictionary holds: the mutable state of [m]. *)
Definition reachable (h : heap) (m : TransactionMetadata) (l : loc) : Prop :=
  l ∈ [spent_outputs m; conflict_with m; voided_by m; received_by m; children m; twins m]
  \/ exists d idx, h !! spent_outputs m = Some (ODict d) /\ d !! idx = Some l.

(** The attributes of [m] hold objects of the annotated types. *)
Definition well_formed (h : heap) (m : TransactionMetadata) : Prop :=
  (exists d, h !! spent_outputs m = Some (ODict d)
             /\ map_Forall (fun _ l => is_Some (set_at h l)) d)
  /\ is_Some (set_at h (conflict_with m))
  /\ is_Some (set_at h (voided_by m))
  /\ (exists s, h !! received_by m = Some (OIntSet s))
  /\ is_Some (set_at h (children m))
  /\ is_Some (set_at h (twins m)).

(** No output of [spent_outputs] has an empty set of spenders. *)
Definition no_empty_spender_set (h : heap) (m : TransactionMetadata) : Prop :=
  forall d, h !! spent_outputs m = Some (ODict d) ->
    map_Forall (fun _ l => set_at h l <> Some ∅) d.

(** What the loop of [create_from_json] over [data['spent_outputs']] builds,
    on the contents: one more spender of output [idx]. *)
Definition add_spender (idx : Z) (b : bytes) (acc : gmap Z (gset bytes))
    : gmap Z (gset bytes) :=
  <[idx := {[b]} ∪ default ∅ (acc !! idx)]> acc.

Definition add_spenders (acc : gmap Z (gset bytes)) (item : Z * list bytes)
    : gmap Z (gset bytes) :=
  foldl (fun acc b => add_spender item.1 b acc) acc item.2.

(** The state of the loop of [create_from_json] over
    [data['spent_outputs']]: the dictionary object at [L] holds set
    objects allocated after it, one per output index, whose contents are
    [acc]. *)
Definition loop_invariant (L : loc) (h : heap) (acc : gmap Z (gset bytes)) : Prop :=
  exists d, h !! L = Some (ODict d)
    /\ (forall idx, acc !! idx = d !! idx ≫= set_at h)
    /\ (forall idx l, d !! idx = Some l -> (L < l)%nat /\ is_Some (set_at h l))
    /\ (forall i j l, d !! i = Some l -> d !! j = Some l -> i = j).

(** The objects below [n] are the same in [h] and [h']. *)
Definition same_below (n : nat) (h h' : heap) : Prop :=
  forall l, (l < n)%nat -> h' !! l = h !! l.

(** The spenders of each output, as [to_json] lists them. *)
Definition spender_items (h : heap) (d : gmap Z loc) : list (Z * list bytes) :=
  (fun it : Z * loc => (it.1, elements (default ∅ (set_at h it.2)))) <$> map_to_list d.

End Metadata.

(** ** [hathor/transaction/genesis.py] and [hathor/p2p/manager.py] *)

Module Manager.

(** *** Vertices

    The classes [Block], [Transaction] and [TxOutput] of
    [hathor.transaction] are used by the manager through the attributes
    below.  A vertex handed to the manager carries its hash. *)

Record TxOutput : Type := { value : Z; script : bytes }.

Inductive VertexClass : Type := Block | Transaction.

(** The identity of a storage object, and of a peer connection. *)
Abbreviation StorageRef := nat.
Abbreviation Conn := nat.

(** The weight of a vertex is a Python float.  The manager only compares it
    with the target weight; the comparison makes a difference between a
    number and the float [nan], below nothing and above nothing.  The
    infinite floats, which compare with the target as numbers do, are left
    out. *)
Inductive Weight : Type :=
| Num (x : R)
| Nan.

(** [w < x] for a weight [w] and a number [x]: [False] when [w] is [nan]. *)
Definition weight_lt (w : Weight) (x : R) : bool :=
  match w with
  | Num y => if Rlt_dec y x then true else false
  | Nan => false
  end.

Record BaseTransaction : Type := {
  vertex_class : VertexClass;
  hash : bytes;
  nonce : Z;
  timestamp : Z;
  weight : Weight;
  height : Z;
  parents : list bytes;
  outputs : list TxOutput;
  storage : option StorageRef }.

Definition is_block (tx : BaseTransaction) : bool :=
  match vertex_class tx with
  | Block => true
  | Transaction => false
  end.

(** Modelled from the spec: the property [sum_outputs] of a vertex, whose
    class is outside the modelled files, is the total of its output values. *)
Definition sum_outputs (tx : BaseTransaction) : Z :=
  foldr Z.add 0 (value <$> outputs tx).

(** A hash or a script written as a hexadecimal literal,
    [bytes.fromhex('...')]. *)
Definition bytes_literal (s : string) : bytes :=
  match Hex.fromhex s with
  | Ok b => b
  | Raise _ => []
  end.

Definition TX_GENESIS1_HASH : bytes := Eval vm_compute in
  bytes_literal "00012a1df41aaf1dda05942c522ff4f56fdca5160193e0111ef84e474d294603".

Definition TX_GENESIS2_HASH : bytes := Eval vm_compute in
  bytes_literal "00002dd4f867bfb1cba75c6073469bf76faa3aff24cf80fb006ed848ec771373".

Definition BLOCK_GENESIS_HASH : bytes := Eval vm_compute in
  bytes_literal "0002ed2460bcdcd804b2fe04ec92e53447efe393b11432d4d1cf68bc05606b67".

Definition GENESIS_ADDRESS : bytes := Eval vm_compute in
  bytes_literal "76a914fd05059b6006249543b82f36876a17c73fd2267b88ac".

Section Genesis.

(** The constants of [hathor.constants], which is outside the modelled
    files.  The genesis vertices are built without parents, and the two
    transactions without outputs: these arguments are left to the
    constructors, and the genesis set has no parents. *)
Variable GENESIS_TOKENS : Z.
Variables MIN_BLOCK_WEIGHT MIN_TX_WEIGHT : R.

Definition TX_GENESIS1 (tx_storage : option StorageRef) : BaseTransaction :=
  {| vertex_class := Transaction;
     hash := TX_GENESIS1_HASH;
     nonce := 3325;
     timestamp := 1539271482;
     weight := Num MIN_TX_WEIGHT;
     height := 1;
     parents := [];
     outputs := [];
     storage := tx_storage |}.

Definition TX_GENESIS2 (tx_storage : option StorageRef) : BaseTransaction :=
  {| vertex_class := Transaction;
     hash := TX_GENESIS2_HASH;
     nonce := 30489;
     timestamp := 1539271483;
     weight := Num MIN_TX_WEIGHT;
     height := 1;
     parents := [];
     outputs := [];
     storage := tx_storage |}.

Definition GENESIS_OUTPUTS : list TxOutput :=
  [ {| value := GENESIS_TOKENS; script := GENESIS_ADDRESS |} ].

Definition BLOCK_GENESIS (tx_storage : option StorageRef) : BaseTransaction :=
  {| vertex_class := Block;
     hash := BLOCK_GENESIS_HASH;
     nonce := 4854;
     timestamp := 1539271481;
     weight := Num MIN_BLOCK_WEIGHT;
     height := 1;
     parents := [];
     outputs := GENESIS_OUTPUTS;
     storage := tx_storage |}.

Definition genesis_transactions (tx_storage : option StorageRef) : list BaseTransaction :=
  [BLOCK_GENESIS tx_storage; TX_GENESIS1 tx_storage; TX_GENESIS2 tx_storage].

End Genesis.

(** Modelled from the spec: the property [is_genesis] of a vertex, whose
    class is outside the modelled files; the genesis vertices are the ones
    with the three hard-coded hashes. *)
Definition is_genesis (tx : BaseTransaction) : bool :=
  bool_decide (hash tx ∈ [BLOCK_GENESIS_HASH; TX_GENESIS1_HASH; TX_GENESIS2_HASH]).

(** *** Transaction storage

    The manager reaches its storage through these methods of
    [hathor.transaction.storage]. *)

Class TransactionStorage (S : Type) : Type := {
  transaction_exists_by_hash_bytes : S -> bytes -> bool;
  get_transaction_by_hash_bytes : S -> bytes -> result BaseTransaction;
  get_tip_blocks_hashes : S -> list bytes;
  get_tip_transactions : S -> nat -> list BaseTransaction;
  get_block_count : S -> Z;
  save_transaction : S -> BaseTransaction -> S;
  _add_to_cache : S -> BaseTransaction -> S }.

(** *** The in-memory storage

    [TransactionMemoryStorage] is outside the modelled files; the
    definitions below follow what the specification says of the storage. *)

(** Modelled from the spec: the in-memory storage is a content-addressed
    store of vertices, each with its metadata, of which the [voided_by] set
    is kept here. *)
Record StoredVertex : Type := {
  vertex : BaseTransaction;
  voided_by : list bytes }.

Abbreviation TransactionMemoryStorage := (list StoredVertex).

(** Modelled from the spec: a vertex is void when its [voided_by] is not
    empty. *)
Definition is_void (v : StoredVertex) : bool :=
  match voided_by v with
  | [] => false
  | _ => true
  end.

(** Modelled from the spec: [exists(h)] of the storage. *)
Definition memory_exists (s : TransactionMemoryStorage) (h : bytes) : bool :=
  existsb (fun v => bool_decide (hash (vertex v) = h)) s.

(** Modelled from the spec: [get(h)] of the storage; a hash it does not
    hold raises. *)
Definition memory_get (s : TransactionMemoryStorage) (h : bytes) : result BaseTransaction :=
  match find (fun v => bool_decide (hash (vertex v) = h)) s with
  | Some v => Ok (vertex v)
  | None => Raise KeyError
  end.

(** Modelled from the spec: [v] has a child in the storage [s] among the
    vertices that satisfy [side]; a child is a vertex that has [v]'s hash
    among its parents. *)
Definition has_child (side : StoredVertex -> bool) (s : TransactionMemoryStorage)
    (v : StoredVertex) : bool :=
  existsb (fun c => side c && bool_decide (hash (vertex v) ∈ parents (vertex c))) s.

(** Modelled from the spec: [tip_blocks()], the hashes of the blocks with no
    block children. *)
Definition memory_tip_blocks (s : TransactionMemoryStorage) : list bytes :=
  (fun v => hash (vertex v)) <$>
    filter (fun v => is_block (vertex v) = true
                     ∧ has_child (fun c => is_block (vertex c)) s v = false) s.

(** Modelled from the spec: [tip_transactions(k)], up to [k] of the
    non-void transactions with no non-void transaction children. *)
Definition memory_tip_transactions (s : TransactionMemoryStorage) (count : nat)
    : list BaseTransaction :=
  take count
    (vertex <$>
       filter (fun v => is_block (vertex v) = false ∧ is_void v = false
                        ∧ has_child (fun c => negb (is_block (vertex c)) && negb (is_void c)) s v
                          = false) s).

(** Modelled from the spec: [block_count()], the number of stored blocks. *)
Definition memory_block_count (s : TransactionMemoryStorage) : Z :=
  Z.of_nat (length (filter (fun v => is_block (vertex v) = true) s)).

(** Modelled from the spec: [put], which stores a vertex with fresh
    metadata; the store is keyed by hash, so a vertex whose hash it holds
    leaves it as it is. *)
Definition memory_save (s : TransactionMemoryStorage) (tx : BaseTransaction)
    : TransactionMemoryStorage :=
  if memory_exists s (hash tx) then s
  else s ++ [ {| vertex := tx; voided_by := [] |} ].

(** Modelled from the spec: the methods of the in-memory storage.  Tips and
    counts are functions of the store, so rebuilding the caches leaves it
    as it is. *)
#[global] Instance memory_storage : TransactionStorage TransactionMemoryStorage := {
  transaction_exists_by_hash_bytes := memory_exists;
  get_transaction_by_hash_bytes := memory_get;
  get_tip_blocks_hashes := memory_tip_blocks;
  get_tip_transactions := memory_tip_transactions;
  get_block_count := memory_block_count;
  save_transaction := memory_save;
  _add_to_cache := fun s _ => s }.

(** Modelled from the spec: the three genesis vertices are present in
    every node's initial storage. *)
Definition memory_storage_new (GENESIS_TOKENS : Z) (MIN_BLOCK_WEIGHT MIN_TX_WEIGHT : R)
    (ref : StorageRef) : TransactionMemoryStorage :=
  (fun tx => {| vertex := tx; voided_by := [] |}) <$>
    genesis_transactions GENESIS_TOKENS MIN_BLOCK_WEIGHT MIN_TX_WEIGHT (Some ref).

(** Modelled from the spec: what the storage of a node satisfies.  The
    vertices are stored under distinct hashes; a vertex is admitted only
    when its parents are stored, so every parent of a stored vertex is a
    vertex stored before it; and the two genesis transactions are always
    stored, and are not void. *)
Record storage_consistent (s : TransactionMemoryStorage) : Prop := {
  hashes_distinct : NoDup ((fun v => hash (vertex v)) <$> s);
  parents_stored_before :
    forall i v p, s !! i = Some v -> p ∈ parents (vertex v) ->
      exists j u, (j < i)%nat /\ s !! j = Some u /\ hash (vertex u) = p;
  genesis_transactions_stored :
    forall h, h ∈ [TX_GENESIS1_HASH; TX_GENESIS2_HASH] ->
      exists v, v ∈ s /\ hash (vertex v) = h
                /\ is_block (vertex v) = false /\ is_void v = false }.

(** *** Peers

    [PeerId] and [PeerStorage] are outside the modelled files. *)

(** Modelled from the spec: a peer record carries the peer's id and its
    entrypoints. *)
Record PeerId : Type := {
  id : string;
  entrypoints : list string }.

(** Modelled from the spec: the peer storage is a dict of the known
    records by peer id.  A dict keeps its keys in the order they were first
    set, which is the order [values()] gives the records in. *)
Abbreviation PeerStorage := (list PeerId).

(** Modelled from the spec: merging a record into a known one merges the
    entrypoints. *)
Definition merge (known peer : PeerId) : PeerId :=
  {| id := id known;
     entrypoints :=
       entrypoints known
       ++ filter (fun e => e ∉ entrypoints known) (entrypoints peer) |}.

(** Modelled from the spec: [add_or_merge] adds the record of an unknown
    peer to the peer storage and merges the record of a known one, which
    keeps its place. *)
Fixpoint add_or_merge (ps : PeerStorage) (peer : PeerId) : PeerStorage :=
  match ps with
  | [] => [peer]
  | known :: ps' =>
      if decide (id known = id peer) then merge known peer :: ps'
      else known :: add_or_merge ps' peer
  end.

(** [twisted.internet.endpoints], outside the repository:
    [clientFromString(reactor, description)] builds the client endpoint a
    description names, and raises when it cannot parse the description, a
    [ValueError] for one. *)
Class Endpoints : Type := {
  clientFromString : string -> result unit }.

(** *** The manager *)

Inductive NodeState : Type :=
| INITIALIZING
| WAITING_FOR_PEERS
| SYNCING
| SYNCED.

#[global] Instance NodeState_eq_dec : EqDecision NodeState.
Proof. solve_decision. Defined.

(** Calls into the collaborators of the manager, in the order they are made. *)
Inductive Event : Type :=
| WalletOnNewTx (tx : BaseTransaction)                      (* wallet.on_new_tx(tx) *)
| SyncOnNewTx (tx : BaseTransaction) (conn : option Conn)   (* node_sync_manager.on_new_tx(tx, conn) *)
| SendData (conn : Conn) (tx : BaseTransaction)             (* conn.state.send_data(tx) *)
| ConnectTo (description : string).                         (* endpoint.connect(factory) *)

(** [random.choice(seq)], with the draw [rnd] given by the caller. *)
Definition random_choice {A : Type} (rnd : nat) (seq : list A) : result A :=
  match seq !! (rnd mod length seq)%nat with
  | Some x => Ok x
  | None => Raise IndexError
  end.

(** [math.log(x, base)] *)
Definition math_log (x base : R) : result R :=
  if Rle_dec x 0 then Raise ValueError
  else if Rle_dec base 0 then Raise ValueError
  else if Req_dec_T base 1 then Raise ZeroDivisionError
  else Ok (ln x / ln base)%R.

Definition Rltb (x y : R) : bool := if Rlt_dec x y then true else false.
Definition Rgtb (x y : R) : bool := if Rgt_dec x y then true else false.

(** [max(zs)] of a sequence of integers. *)
Definition py_max (zs : list Z) : result Z :=
  match zs with
  | [] => Raise ValueError
  | z :: zs' => Ok (foldl Z.max z zs')
  end.

Section Node.

Context {S : Type} `{TransactionStorage S} `{Endpoints}.

(** [tx.verify()]: [true] when it returns, [false] when it raises a
    [HathorError].  The vertex classes are outside the modelled files. *)
Variable verify : S -> BaseTransaction -> bool.

Record HathorManager : Type := {
  state : option NodeState;
  peer_storage : PeerStorage;
  tx_storage : S;
  tx_storage_ref : StorageRef;            (* which object [self.tx_storage] is *)
  wallet : bool;                          (* the truth value of [self.wallet] *)
  my_peer : PeerId;
  blocks_per_difficulty : Z;
  latest_blocks : list BaseTransaction;
  avg_time_between_blocks : R;
  min_block_weight : R;
  block_weight : R;
  max_allowed_block_weight_change : R;
  tokens_issued_per_block : Z;
  connecting_peers : list string;
  connected_peers : list (string * Conn);
  events : list Event }.

(** [__init__], with the peer storage empty.  The pending connections and
    the connected peers are attributes that [doStart] creates: until then
    the two fields are empty, and the methods that read them are meant for
    a manager that was started. *)
Definition __init__ (peer_id : PeerId) (tx_storage0 : S) (ref : StorageRef)
    (wallet0 : bool) : HathorManager :=
  {| state := None;
     peer_storage := [];
     tx_storage := tx_storage0;
     tx_storage_ref := ref;
     wallet := wallet0;
     my_peer := peer_id;
     blocks_per_difficulty := 5;
     latest_blocks := [];
     avg_time_between_blocks := 64;
     min_block_weight := 10;
     block_weight := 10;
     max_allowed_block_weight_change := 2;
     tokens_issued_per_block := 10000;
     connecting_peers := [];
     connected_peers := [];
     events := [] |}.

Definition set_state (st : option NodeState) (m : HathorManager) : HathorManager :=
  {| state := st; peer_storage := peer_storage m; tx_storage := tx_storage m;
     tx_storage_ref := tx_storage_ref m; wallet := wallet m; my_peer := my_peer m;
     blocks_per_difficulty := blocks_per_difficulty m; latest_blocks := latest_blocks m;
     avg_time_between_blocks := avg_time_between_blocks m;
     min_block_weight := min_block_weight m; block_weight := block_weight m;
     max_allowed_block_weight_change := max_allowed_block_weight_change m;
     tokens_issued_per_block := tokens_issued_per_block m;
     connecting_peers := connecting_peers m; connected_peers := connected_peers m;
     events := events m |}.

Definition set_peer_storage (ps : PeerStorage) (m : HathorManager) : HathorManager :=
  {| state := state m; peer_storage := ps; tx_storage := tx_storage m;
     tx_storage_ref := tx_storage_ref m; wallet := wallet m; my_peer := my_peer m;
     blocks_per_difficulty := blocks_per_difficulty m; latest_blocks := latest_blocks m;
     avg_time_between_blocks := avg_time_between_blocks m;
     min_block_weight := min_block_weight m; block_weight := block_weight m;
     max_allowed_block_weight_change := max_allowed_block_weight_change m;
     tokens_issued_per_block := tokens_issued_per_block m;
     connecting_peers := connecting_peers m; connected_peers := connected_peers m;
     events := events m |}.

Definition set_tx_storage (s : S) (m : HathorManager) : HathorManager :=
  {| state := state m; peer_storage := peer_storage m; tx_storage := s;
     tx_storage_ref := tx_storage_ref m; wallet := wallet m; my_peer := my_peer m;
     blocks_per_difficulty := blocks_per_difficulty m; latest_blocks := latest_blocks m;
     avg_time_between_blocks := avg_time_between_blocks m;
     min_block_weight := min_block_weight m; block_weight := block_weight m;
     max_allowed_block_weight_change := max_allowed_block_weight_change m;
     tokens_issued_per_block := tokens_issued_per_block m;
     connecting_peers := connecting_peers m; connected_peers := connected_peers m;
     events := events m |}.

Definition set_latest_blocks (bs : list BaseTransaction) (m : HathorManager) : HathorManager :=
  {| state := state m; peer_storage := peer_storage m; tx_storage := tx_storage m;
     tx_storage_ref := tx_storage_ref m; wallet := wallet m; my_peer := my_peer m;
     blocks_per_difficulty := blocks_per_difficulty m; latest_blocks := bs;
     avg_time_between_blocks := avg_time_between_blocks m;
     min_block_weight := min_block_weight m; block_weight := block_weight m;
     max_allowed_block_weight_change := max_allowed_block_weight_change m;
     tokens_issued_per_block := tokens_issued_per_block m;
     connecting_peers := connecting_peers m; connected_peers := connected_peers m;
     events := events m |}.

Definition set_block_weight (w : R) (m : HathorManager) : HathorManager :=
  {| state := state m; peer_storage := peer_storage m; tx_storage := tx_storage m;
     tx_storage_ref := tx_storage_ref m; wallet := wallet m; my_peer := my_peer m;
     blocks_per_difficulty := blocks_per_difficulty m; latest_blocks := latest_blocks m;
     avg_time_between_blocks := avg_time_between_blocks m;
     min_block_weight := min_block_weight m; block_weight := w;
     max_allowed_block_weight_change := max_allowed_block_weight_change m;
     tokens_issued_per_block := tokens_issued_per_block m;
     connecting_peers := connecting_peers m; connected_peers := connected_peers m;
     events := events m |}.

Definition set_connecting_peers (cs : list string) (m : HathorManager) : HathorManager :=
  {| state := state m; peer_storage := peer_storage m; tx_storage := tx_storage m;
     tx_storage_ref := tx_storage_ref m; wallet := wallet m; my_peer := my_peer m;
     blocks_per_difficulty := blocks_per_difficulty m; latest_blocks := latest_blocks m;
     avg_time_between_blocks := avg_time_between_blocks m;
     min_block_weight := min_block_weight m; block_weight := block_weight m;
     max_allowed_block_weight_change := max_allowed_block_weight_change m;
     tokens_issued_per_block := tokens_issued_per_block m;
     connecting_peers := cs; connected_peers := connected_peers m;
     events := events m |}.

(** One more call recorded at the end of the trace. *)
Definition emit (e : Event) (m : HathorManager) : HathorManager :=
  {| state := state m; peer_storage := peer_storage m; tx_storage := tx_storage m;
     tx_storage_ref := tx_storage_ref m; wallet := wallet m; my_peer := my_peer m;
     blocks_per_difficulty := blocks_per_difficulty m; latest_blocks := latest_blocks m;
     avg_time_between_blocks := avg_time_between_blocks m;
     min_block_weight := min_block_weight m; block_weight := block_weight m;
     max_allowed_block_weight_change := max_allowed_block_weight_change m;
     tokens_issued_per_block := tokens_issued_per_block m;
     connecting_peers := connecting_peers m; connected_peers := connected_peers m;
     events := events m ++ [e] |}.

(** [tx.storage = storage] *)
Definition set_storage (ref : StorageRef) (tx : BaseTransaction) : BaseTransaction :=
  {| vertex_class := vertex_class tx; hash := hash tx; nonce := nonce tx;
     timestamp := timestamp tx; weight := weight tx; height := height tx;
     parents := parents tx; outputs := outputs tx; storage := Some ref |}.

(** **** [get_new_tx_parents] *)
Definition get_new_tx_parents (rnd : nat) (m : HathorManager) : result (list bytes) :=
  let tips := get_tip_transactions (tx_storage m) 2 in
  let ret := hash <$> tips in
  match tips with
  | [tip] =>
      (* If there is only one tip, let's randomly choose one of its parents. *)
      p ← random_choice rnd (parents tip);
      Ok (ret ++ [p])
  | _ => Ok ret
  end.

(** **** [generate_mining_block]

    The block as the call [Block(weight=..., outputs=..., parents=...,
    storage=..., height=...)] gives it; the nonce, the timestamp and the
    hash are set when it is mined.  [address] is what
    [wallet.get_unused_address_bytes] returns. *)
Record MiningBlock : Type := {
  mb_weight : R;
  mb_outputs : list TxOutput;
  mb_parents : list bytes;
  mb_storage : StorageRef;
  mb_height : Z }.

Definition generate_mining_block (address : bytes) (rnd : nat) (m : HathorManager)
    : result MiningBlock :=
  let amount := tokens_issued_per_block m in
  let tx_outputs := [ {| value := amount; script := address |} ] in
  let tip_blocks := get_tip_blocks_hashes (tx_storage m) in
  tip_txs ← get_new_tx_parents rnd m;
  let parents := tip_blocks ++ tip_txs in
  parents_tx ← mapM (get_transaction_by_hash_bytes (tx_storage m)) parents;
  highest ← py_max (height <$> parents_tx);
  let new_height := highest + 1 in
  Ok {| mb_weight := block_weight m; mb_outputs := tx_outputs; mb_parents := parents;
        mb_storage := tx_storage_ref m; mb_height := new_height |}.

(** **** [validate_new_tx]

    The messages it prints are left out. *)
Definition validate_new_tx (m : HathorManager) (tx : BaseTransaction) : bool :=
  if bool_decide (state m ≠ Some INITIALIZING)
     && (is_genesis tx || transaction_exists_by_hash_bytes (tx_storage m) (hash tx))
  then false
  else if negb (forallb (transaction_exists_by_hash_bytes (tx_storage m)) (parents tx))
  then (* All parents must exist. *) false
  else if negb (verify (tx_storage m) tx)
  then false
  else if is_block tx then
    if weight_lt (weight tx) (block_weight m) then false
    else if negb (sum_outputs tx =? tokens_issued_per_block m)
    then (* only the message 'Invalid number of issued tokens' is printed *) true
    else true
  else true.

(** **** [calculate_block_difficulty] *)
Definition calculate_block_difficulty (m : HathorManager) : result (R * R) :=
  let blocks := latest_blocks m in
  if negb (Z.of_nat (length blocks) =? blocks_per_difficulty m) then Raise AssertionError
  else
    match last blocks, head blocks with
    | Some newest, Some oldest =>
        let dt := timestamp newest - timestamp oldest in
        let dt := if dt <=? 0 then 1 else dt in
        l1 ← math_log (avg_time_between_blocks m) 2;
        l2 ← math_log (IZR (blocks_per_difficulty m)) 2;
        l3 ← math_log (IZR dt) 2;
        let delta := (l1 + l2 - l3)%R in
        let delta :=
          if Rgtb delta (max_allowed_block_weight_change m)
          then max_allowed_block_weight_change m
          else if Rltb delta (- max_allowed_block_weight_change m)
          then (- max_allowed_block_weight_change m)%R
          else delta in
        let new_weight := (block_weight m + delta)%R in
        let new_weight :=
          if Rltb new_weight (min_block_weight m) then min_block_weight m
          else new_weight in
        if blocks_per_difficulty m =? 0 then Raise ZeroDivisionError
        else
          let avg_dt := (IZR dt / IZR (blocks_per_difficulty m))%R in
          Ok (avg_dt, new_weight)
    | _, _ => Raise IndexError
    end.

(** [while len(latest_blocks) > blocks_per_difficulty: latest_blocks.popleft()] *)
Fixpoint popleft_while_longer (n : Z) (blocks : list BaseTransaction)
    : result (list BaseTransaction) :=
  match blocks with
  | [] => if 0 >? n then Raise IndexError else Ok []
  | _ :: blocks' =>
      if Z.of_nat (length blocks) >? n then popleft_while_longer n blocks'
      else Ok blocks
  end.

(** **** [on_new_tx] *)
Definition on_new_tx (m : HathorManager) (tx : BaseTransaction) (conn : option Conn)
    : result HathorManager :=
  if negb (validate_new_tx m tx) then
    (* Discard invalid Transaction/block. *)
    Ok m
  else
    let m := if wallet m then emit (WalletOnNewTx tx) m else m in
    let m :=
      if bool_decide (state m = Some INITIALIZING)
      then set_tx_storage (_add_to_cache (tx_storage m) tx) m
      else emit (SyncOnNewTx tx conn) (set_tx_storage (save_transaction (tx_storage m) tx) m) in
    if is_block tx then
      blocks ← popleft_while_longer (blocks_per_difficulty m) (latest_blocks m ++ [tx]);
      let m := set_latest_blocks blocks m in
      let count_blocks := get_block_count (tx_storage m) in
      if blocks_per_difficulty m =? 0 then Raise ZeroDivisionError
      else if count_blocks `mod` blocks_per_difficulty m =? 0 then
        '(avg_dt, new_weight) ← calculate_block_difficulty m;
        Ok (set_block_weight new_weight m)
      else Ok m
    else Ok m.

(** **** [propagate_tx] *)

(** [if tx.storage: assert tx.storage == self.tx_storage]
    [else: tx.storage = self.tx_storage] *)
Definition attach_storage (m : HathorManager) (tx : BaseTransaction) : result BaseTransaction :=
  match storage tx with
  | Some ref =>
      if bool_decide (ref = tx_storage_ref m) then Ok tx
      else Raise AssertionError
  | None => Ok (set_storage (tx_storage_ref m) tx)
  end.



(** **** [connect_to], [connect_to_if_not_connected] and [update_peer]

    [connect_to] without TLS: the description is parsed first, and an
    exception of [clientFromString] leaves the manager as it is; then the
    dial is recorded and the endpoint is added to the pending
    connections. *)
Definition connect_to (description : string) (m : HathorManager) : result HathorManager :=
  _ ← clientFromString description;
  Ok (set_connecting_peers (connecting_peers m ++ [description])
        (emit (ConnectTo description) m)).

Definition connect_to_if_not_connected (rnd : nat) (peer : PeerId) (m : HathorManager)
    : result HathorManager :=
  match entrypoints peer with
  | [] => Ok m
  | _ =>
      if bool_decide (id peer ∉ fst <$> connected_peers m)
      then entrypoint ← random_choice rnd (entrypoints peer);
           connect_to entrypoint m
      else Ok m
  end.

(** [update_peer], with the manager as the call leaves it and the way the
    call ends.  The record is merged before the dial; an exception of the
    dial comes before the dial has changed anything, and leaves the manager
    with the record merged. *)
Definition update_peer (rnd : nat) (peer : PeerId) (m : HathorManager)
    : HathorManager * result unit :=
  if bool_decide (id peer = id (my_peer m)) then (m, Ok tt)
  else
    let m := set_peer_storage (add_or_merge (peer_storage m) peer) m in
    match connect_to_if_not_connected rnd peer m with
    | Ok m' => (m', Ok tt)
    | Raise e => (m, Raise e)
    end.

End Node.

Arguments HathorManager S : clear implicits.

(** The vertices handed to peer connections, in order. *)
Definition sent (es : list Event) : list (Conn * BaseTransaction) :=
  omap (fun e => match e with SendData conn tx => Some (conn, tx) | _ => None end) es.

(** The logarithm to base two and the clamp, as the specification writes
    the retarget formula. *)
Definition log2 (x : R) : R := (ln x / ln 2)%R.

Definition clamp (x lo hi : R) : R := Rmax lo (Rmin x hi).

End Manager.

(** ** Sample metadata *)

Module MetadataExamples.

Import Metadata.

(** A heap with the objects of one metadata object: output 0 spent by one
    transaction, output 3 by two, one peer, and otherwise empty sets. *)
Definition sample_heap : heap :=
  [ ODict {[ 0 := 1%nat; 3 := 2%nat ]};
    OSet {[ [x01; x02]%byte ]};
    OSet {[ [xff]%byte; [x0a; x0b]%byte ]};
    OSet ∅; OSet ∅; OIntSet {[ 7 ]}; OSet ∅; OSet ∅ ].

Definition sample_meta (hash0 first_block0 : option bytes) (score0 : float)
    : TransactionMetadata :=
  {| hash := hash0;
     spent_outputs := 0%nat;
     conflict_with := 3%nat;
     voided_by := 4%nat;
     received_by := 5%nat;
     children := 6%nat;
     twins := 7%nat;
     accumulated_weight := 1%float;
     score := score0;
     first_block := first_block0 |}.

(** The result of a computation, without the heap. *)
Definition value_of {A : Type} (r : result (A * heap)) : result A :=
  match r with
  | Ok (a, _) => Ok a
  | Raise e => Raise e
  end.

(** [m.clone() == m] *)
Definition clone_equals (m : TransactionMetadata) (h : heap) : result bool :=
  value_of ((m' ← clone m; __eq__ m' m) h).

End MetadataExamples.

(** ** Sample nodes and vertices

    A node on the in-memory storage, with sample values for the constants
    of [hathor.constants], and vertices to hand to it. *)

Module Examples.

Import Manager.

(** [tx.verify()] returns for every vertex. *)
Definition verify_passes : TransactionMemoryStorage -> BaseTransaction -> bool :=
  fun _ _ => true.

(** A parser of endpoint descriptions that knows the descriptions that
    start with [tcp:], and raises [ValueError] for the others. *)
#[export] Instance tcp_endpoints : Endpoints := {
  clientFromString description :=
    if String.prefix "tcp:" description then Ok tt else Raise ValueError }.

Definition node_peer : PeerId :=
  {| id := "node"; entrypoints := ["tcp:127.0.0.1:40403"] |}.

Definition other_peer : PeerId :=
  {| id := "other"; entrypoints := ["tcp:10.0.0.2:40403"] |}.

(** A peer whose entrypoint is not a description of an endpoint. *)
Definition unreachable_peer : PeerId :=
  {| id := "unreachable"; entrypoints := ["10.0.0.3"] |}.

Definition fresh_storage : TransactionMemoryStorage :=
  memory_storage_new 200000000000 14 14 0%nat.

(** The node as constructed, on a storage that holds the genesis only. *)
Definition fresh_manager : HathorManager TransactionMemoryStorage :=
  __init__ node_peer fresh_storage 0%nat true.

(** The same node while it replays its storage, once started, and synced
    with two peers connected. *)
Definition replaying_manager : HathorManager TransactionMemoryStorage :=
  set_state (Some INITIALIZING) fresh_manager.

Definition started_manager : HathorManager TransactionMemoryStorage :=
  set_state (Some WAITING_FOR_PEERS) fresh_manager.


Definition genesis_block : BaseTransaction := BLOCK_GENESIS 200000000000 14 (Some 0%nat).
Definition genesis_tx1 : BaseTransaction := TX_GENESIS1 14 (Some 0%nat).

Definition sample_hash (last : byte) : bytes := replicate 31 x00 ++ [last].

(** A block on the genesis, as heavy as the target, that issues 9999 tokens
    where 10000 are due. *)
Definition wrong_sum_block : BaseTransaction :=
  {| vertex_class := Block;
     hash := sample_hash xb1;
     nonce := 0;
     timestamp := 1539271500;
     weight := Num 10;
     height := 2;
     parents := [BLOCK_GENESIS_HASH; TX_GENESIS1_HASH; TX_GENESIS2_HASH];
     outputs := [ {| value := 9999; script := GENESIS_ADDRESS |} ];
     storage := Some 0%nat |}.



(** A transaction with a parent that no storage here holds. *)
Definition orphan_tx : BaseTransaction :=
  {| vertex_class := Transaction;
     hash := sample_hash xa1;
     nonce := 0;
     timestamp := 1539271500;
     weight := Num 14;
     height := 2;
     parents := [TX_GENESIS1_HASH; sample_hash xee];
     outputs := [];
     storage := None |}.


Definition stored (tx : BaseTransaction) : StoredVertex :=
  {| vertex := tx; voided_by := [] |}.


Definition lone_tx_manager : HathorManager TransactionMemoryStorage :=
  set_tx_storage [stored genesis_tx1] started_manager.

(** Five blocks found 32 seconds apart. *)
Definition spaced_block (i : Z) : BaseTransaction :=
  {| vertex_class := Block;
     hash := sample_hash xb3;
     nonce := i;
     timestamp := 1539271500 + 32 * i;
     weight := Num 10;
     height := 2 + i;
     parents := [];
     outputs := [];
     storage := Some 0%nat |}.

Definition retarget_manager : HathorManager TransactionMemoryStorage :=
  set_latest_blocks (spaced_block <$> [0; 1; 2; 3; 4]) started_manager.

End Examples.

(** ** More of the node *)

Module Node.

Import Manager.

Section Node.

Context {S : Type} `{TransactionStorage S}.

(** The first part of [on_new_tx] for a vertex that passed
    [validate_new_tx]: the wallet is told, then the vertex goes to the
    cache or is saved and the sync manager is told. *)
Definition integrate (m : HathorManager S) (tx : BaseTransaction) (conn : option Conn)
    : HathorManager S :=
  let m := if wallet m then emit (WalletOnNewTx tx) m else m in
  if bool_decide (state m = Some INITIALIZING)
  then set_tx_storage (_add_to_cache (tx_storage m) tx) m
  else emit (SyncOnNewTx tx conn) (set_tx_storage (save_transaction (tx_storage m) tx) m).

(** The block a miner hands back: the block of [generate_mining_block]
    with its nonce, timestamp and hash set, read again on the node's
    storage as [MiningResource.render_POST] does. *)
Definition solved (blk : MiningBlock) (hash0 : bytes) (nonce0 timestamp0 : Z)
    : BaseTransaction :=
  {| vertex_class := Block;
     hash := hash0;
     nonce := nonce0;
     timestamp := timestamp0;
     weight := Num (mb_weight blk);
     height := mb_height blk;
     parents := mb_parents blk;
     outputs := mb_outputs blk;
     storage := Some (mb_storage blk) |}.

(** [connecting_peers] and [connected_peers] are attributes that [doStart]
    creates, right after [_initialize_components] has set the state to
    [WAITING_FOR_PEERS]; a manager in a state that follows [INITIALIZING]
    has them. *)
Definition started (m : HathorManager S) : Prop :=
  state m ∈ [Some WAITING_FOR_PEERS; Some SYNCING; Some SYNCED].

End Node.

(** *** The storage replayed at start-up *)

(** [tx_storage._topological_sort()], a method of
    [hathor.transaction.storage] next to the ones of [TransactionStorage]:
    the stored vertices, parents before children.  The replay takes the
    list as the storage gives it when the replay starts. *)
Class TopologicalStorage (S : Type) : Type := {
  _topological_sort : S -> list BaseTransaction }.

(** Modelled from the spec: the in-memory storage holds its vertices in
    the order they were stored, which has parents before children; that is
    the order of its topological sort. *)
#[global] Instance memory_topological : TopologicalStorage TransactionMemoryStorage := {
  _topological_sort := fun s => vertex <$> s }.

Section Running.

Context {S : Type} `{TransactionStorage S} `{TopologicalStorage S} `{Endpoints}.
Variable verify : S -> BaseTransaction -> bool.

(** [self.connected_peers = ...] *)
Definition set_connected_peers (cs : list (string * Conn)) (m : HathorManager S)
    : HathorManager S :=
  {| state := state m; peer_storage := peer_storage m; tx_storage := tx_storage m;
     tx_storage_ref := tx_storage_ref m; wallet := wallet m; my_peer := my_peer m;
     blocks_per_difficulty := blocks_per_difficulty m; latest_blocks := latest_blocks m;
     avg_time_between_blocks := avg_time_between_blocks m;
     min_block_weight := min_block_weight m; block_weight := block_weight m;
     max_allowed_block_weight_change := max_allowed_block_weight_change m;
     tokens_issued_per_block := tokens_issued_per_block m;
     connecting_peers := connecting_peers m; connected_peers := cs;
     events := events m |}.

(** [d[k] = v] on a dictionary kept in insertion order: a key that is
    present keeps its place. *)
Fixpoint dict_setitem (k : string) (v : Conn) (d : list (string * Conn))
    : list (string * Conn) :=
  match d with
  | [] => [(k, v)]
  | (k', v') :: d' =>
      if decide (k' = k) then (k, v) :: d' else (k', v') :: dict_setitem k v d'
  end.

(** [d.pop(k)]: a [KeyError] when the key is missing. *)
Fixpoint dict_pop (k : string) (d : list (string * Conn)) : result (list (string * Conn)) :=
  match d with
  | [] => Raise KeyError
  | (k', v') :: d' =>
      if decide (k' = k) then Ok d'
      else d'' ← dict_pop k d'; Ok ((k', v') :: d'')
  end.

(** The calls a started manager makes, its own and the ones [events]
    records, in the order they are made. *)
Inductive HathorEvents : Type := MANAGER_ON_START | MANAGER_ON_STOP.

Inductive Call : Type :=
| ManagerCall (e : Event)
| Publish (event : HathorEvents)          (* pubsub.publish(event) *)
| WalletManuallyInitialize                (* wallet._manually_initialize() *)
| ReconnectStart (interval : Z)           (* lc_reconnect.start(interval) *)
| ReconnectStop.                          (* lc_reconnect.stop() *)

(** The manager with the attributes [doStart] adds.  The pending
    connections and the connected peers are fields of [HathorManager]
    already; [start_time] is left out. *)
Record Running : Type := {
  manager : HathorManager S;
  handshaking_peers : gset Conn;
  calls : list Call }.

Definition call (c : Call) (n : Running) : Running :=
  {| manager := manager n; handshaking_peers := handshaking_peers n;
     calls := calls n ++ [c] |}.

(** A method of the manager modelled on [HathorManager], run on the
    started manager: the calls it records join the trace. *)
Definition run (f : HathorManager S -> result (HathorManager S)) (n : Running)
    : result Running :=
  m' ← f (manager n);
  Ok {| manager := m'; handshaking_peers := handshaking_peers n;
        calls := calls n ++ (ManagerCall <$> drop (length (events (manager n))) (events m')) |}.

Definition update (f : HathorManager S -> HathorManager S) (n : Running) : Running :=
  {| manager := f (manager n); handshaking_peers := handshaking_peers n;
     calls := calls n |}.

(** The started manager once a method has left its manager as [m']: the
    calls the method recorded join the trace. *)
Definition ran (m' : HathorManager S) (n : Running) : Running :=
  {| manager := m'; handshaking_peers := handshaking_peers n;
     calls := calls n ++ (ManagerCall <$> drop (length (events (manager n))) (events m')) |}.

(** **** [_initialize_components] *)
Fixpoint replay (txs : list BaseTransaction) (n : Running) : result Running :=
  match txs with
  | [] => Ok n
  | tx :: txs' => n' ← run (fun m => on_new_tx verify m tx None) n; replay txs' n'
  end.

Definition _initialize_components (n : Running) : result Running :=
  let n := if wallet (manager n) then call WalletManuallyInitialize n else n in
  n ← replay (_topological_sort (tx_storage (manager n))) n;
  Ok (update (set_state (Some WAITING_FOR_PEERS)) n).

(** **** [reconnect_to_all]

    The peers are taken in the order of the peer storage; [draws] gives
    the draw of [random.choice] for each of them.  The loop ends at the
    first peer whose dial raises: the result is the manager as the dials
    before it left it, and the way the call ends. *)
Fixpoint connect_to_each (draws : nat -> nat) (i : nat) (peers : list PeerId)
    (m : HathorManager S) : HathorManager S * result unit :=
  match peers with
  | [] => (m, Ok tt)
  | peer :: peers' =>
      match connect_to_if_not_connected (draws i) peer m with
      | Ok m' => connect_to_each draws (Datatypes.S i) peers' m'
      | Raise e => (m, Raise e)
      end
  end.

Definition reconnect_to_all (draws : nat -> nat) (m : HathorManager S)
    : HathorManager S * result unit :=
  connect_to_each draws 0 (peer_storage m) m.

(** **** [doStart] and [doStop]

    The manager before [doStart] has no trace and no handshaking peers.
    [lc_reconnect] is [LoopingCall(self.reconnect_to_all)]: its
    [start(5)] calls [reconnect_to_all] at once, before it returns, and
    then every 5 seconds; an exception of that call stops the timer and
    does not reach [doStart], which returns with the manager as the call
    left it. *)
Definition doStart (draws : nat -> nat) (m : HathorManager S) : result Running :=
  let n := {| manager := set_state (Some INITIALIZING) m; handshaking_peers := ∅;
              calls := ManagerCall <$> events m |} in
  let n := call (Publish MANAGER_ON_START) n in
  (* Initialize manager's components. *)
  n ← _initialize_components n;
  let n := update (set_connecting_peers []) n in
  let n := {| manager := manager n; handshaking_peers := ∅; calls := calls n |} in
  let n := update (set_connected_peers []) n in
  let n := call (ReconnectStart 5) n in
  Ok (ran (reconnect_to_all draws (manager n)).1 n).

Definition doStop (n : Running) : Running :=
  call ReconnectStop (call (Publish MANAGER_ON_STOP) n).

(** **** [on_peer_connect], [on_peer_ready] and [on_peer_disconnect]

    A protocol is given by its identity and by its [peer] attribute.
    [on_peer_ready] is called by a protocol that has its peer's record. *)
Definition on_peer_connect (protocol : Conn) (n : Running) : Running :=
  {| manager := manager n; handshaking_peers := handshaking_peers n ∪ {[protocol]};
     calls := calls n |}.

Definition on_peer_ready (protocol : Conn) (peer : PeerId) (n : Running) : result Running :=
  if decide (protocol ∈ handshaking_peers n) then
    let m := manager n in
    let m := set_peer_storage (add_or_merge (peer_storage m) peer) m in
    let m := set_connected_peers (dict_setitem (id peer) protocol (connected_peers m)) m in
    Ok {| manager := m; handshaking_peers := handshaking_peers n ∖ {[protocol]};
          calls := calls n |}
  else Raise KeyError.

Definition on_peer_disconnect (protocol : Conn) (peer : option PeerId) (n : Running)
    : result Running :=
  n ← match peer with
      | Some p =>
          cs ← dict_pop (id p) (connected_peers (manager n));
          Ok (update (set_connected_peers cs) n)
      | None => Ok n
      end;
  if decide (protocol ∈ handshaking_peers n)
  then Ok {| manager := manager n; handshaking_peers := handshaking_peers n ∖ {[protocol]};
             calls := calls n |}
  else Ok n.

End Running.

Arguments Running S : clear implicits.

(** A peer that [connect_to_if_not_connected] dials: it has an entrypoint
    and is not among the connected peers [cs]. *)
Definition can_dial (cs : list (string * Conn)) (peer : PeerId) : bool :=
  bool_decide (entrypoints peer <> [] /\ id peer ∉ (fst <$> cs)).

End Node.

(** ** [hathor/wallet/hd_wallet.py] *)

Module HDWallet.

(** [WORD_COUNT_CHOICES] *)
Definition WORD_COUNT_CHOICES : list Z := [12; 15; 18; 21; 24].

(** The exceptions of the wallet's methods: [InvalidWords] of
    [hathor.wallet.exceptions], the [AttributeError] of an attribute that
    is not set or is [None], the [UnicodeDecodeError] of [bytes.decode],
    the exception of [Mnemonic(language)] for a language whose word list it
    cannot load, and the exceptions of the built-in operations. *)
Inductive WalletError : Type :=
| InvalidWords
| AttributeError
| UnicodeDecodeError
| WordListError
| Builtin (e : PyError).

(** A method call on an object of state [W] returns or raises; either
    way the object is left in some state, the one it had reached. *)
Inductive Outcome (W A : Type) : Type :=
| Returned (a : A) (w : W)
| Raised (e : WalletError) (w : W).

Arguments Returned {W A} a w.
Arguments Raised {W A} e w.

Definition Method (W A : Type) : Type := W -> Outcome W A.

#[global] Instance Method_ret {W : Type} : MRet (Method W) := fun A a w => Returned a w.

#[global] Instance Method_bind {W : Type} : MBind (Method W) := fun A B k c w =>
  match c w with
  | Returned a w' => k a w'
  | Raised e w' => Raised e w'
  end.

(** An assignment to attributes of the object. *)
Definition modify {W : Type} (f : W -> W) : Method W unit := fun w => Returned tt (f w).

(** The state the object is left in. *)
Definition final {W A : Type} (o : Outcome W A) : W :=
  match o with
  | Returned _ w => w
  | Raised _ w => w
  end.

(** [for idx in range(n): body(idx)], from [idx = i] on, and
    [for _ in range(n): body()]. *)
Fixpoint for_range {W : Type} (i : Z) (n : nat) (body : Z -> Method W unit) : Method W unit :=
  match n with
  | O => mret tt
  | Datatypes.S n' => _ ← body i; for_range (i + 1) n' body
  end.

Fixpoint for_times {W : Type} (n : nat) (body : Method W unit) : Method W unit :=
  match n with
  | O => mret tt
  | Datatypes.S n' => _ ← body; for_times n' body
  end.

Section Keys.

(** The keys are the nodes of a BIP32 tree, which comes from [pycoin],
    and the words are checked by [mnemonic]; both are outside the
    repository.  [chain_key_of words passphrase] is the chain key
    [BIP32Node.from_master_secret(mnemonic.to_seed(words, passphrase))
    .subkey_for_path('44H/0H/0H/0')]; [subkey] is [chain_key.subkey];
    [child_index] is the index of a key in the tree; [get_address] is the
    base58 address of a key; [Mnemonic language] is the constructor
    [Mnemonic(language)], which gives the [check] method of the object it
    returns and [None] when it raises, as it does for a language it has no
    word list of; [decode] is [passphrase.decode('utf-8')], [None] when it
    raises.  The calls into [pycoin] are taken to return. *)
Context {Key ChainKey : Type}.
Variable chain_key_of : string -> string -> ChainKey.
Variable subkey : ChainKey -> Z -> Key.
Variable child_index : Key -> Z.
Variable get_address : Key -> string.
Variable Mnemonic : string -> option (string -> bool).
Variable decode : bytes -> option string.

(** [Mnemonic(language).check(words)] is [True]. *)
Definition check (language words : string) : bool :=
  match Mnemonic language with
  | Some check_words => check_words words
  | None => false
  end.

(** The attributes of the wallet that its index keeping reads and writes.
    [mnemonic] is the language of the [Mnemonic] object, [None] as
    [__init__] leaves it; [chain_key] is [None] while the attribute is not
    set, which [__init__] does not do.  [published] records the calls
    [publish_update(HathorEvents.WALLET_GAP_LIMIT, limit=...)], by the
    limit given.  The balance and the transactions of [BaseWallet] are
    left out. *)
Record HDWallet : Type := {
  keys : gmap string Key;
  last_shared_index : Z;
  last_generated_index : Z;
  gap_limit : Z;
  language : string;
  words : option string;
  passphrase : bytes;
  mnemonic : option string;
  chain_key : option ChainKey;
  word_count : Z;
  published : list Z }.

(** [__init__]: a [ValueError] for a word count that is not a choice. *)
Definition __init__ (words0 : option string) (language0 : string) (passphrase0 : bytes)
    (gap_limit0 word_count0 : Z) : result HDWallet :=
  if bool_decide (word_count0 ∈ WORD_COUNT_CHOICES) then
    Ok {| keys := ∅; last_shared_index := 0; last_generated_index := 0;
          gap_limit := gap_limit0; language := language0; words := words0;
          passphrase := passphrase0; mnemonic := None; chain_key := None;
          word_count := word_count0; published := [] |}
  else Raise ValueError.

(** [self.keys[address] = new_key; self.last_generated_index = index] *)
Definition store_key (index : Z) (new_key : Key) (w : HDWallet) : HDWallet :=
  {| keys := <[get_address new_key := new_key]> (keys w);
     last_shared_index := last_shared_index w;
     last_generated_index := index;
     gap_limit := gap_limit w; language := language w; words := words w;
     passphrase := passphrase w; mnemonic := mnemonic w; chain_key := chain_key w;
     word_count := word_count w; published := published w |}.

Definition set_last_shared_index (i : Z) (w : HDWallet) : HDWallet :=
  {| keys := keys w; last_shared_index := i;
     last_generated_index := last_generated_index w;
     gap_limit := gap_limit w; language := language w; words := words w;
     passphrase := passphrase w; mnemonic := mnemonic w; chain_key := chain_key w;
     word_count := word_count w; published := published w |}.

Definition set_mnemonic (l : string) (w : HDWallet) : HDWallet :=
  {| keys := keys w; last_shared_index := last_shared_index w;
     last_generated_index := last_generated_index w;
     gap_limit := gap_limit w; language := language w; words := words w;
     passphrase := passphrase w; mnemonic := Some l; chain_key := chain_key w;
     word_count := word_count w; published := published w |}.

Definition set_chain_key (ck : ChainKey) (w : HDWallet) : HDWallet :=
  {| keys := keys w; last_shared_index := last_shared_index w;
     last_generated_index := last_generated_index w;
     gap_limit := gap_limit w; language := language w; words := words w;
     passphrase := passphrase w; mnemonic := mnemonic w; chain_key := Some ck;
     word_count := word_count w; published := published w |}.

(** [publish_update(HathorEvents.WALLET_GAP_LIMIT, limit=self.gap_limit)] *)
Definition publish_gap_limit (w : HDWallet) : HDWallet :=
  {| keys := keys w; last_shared_index := last_shared_index w;
     last_generated_index := last_generated_index w;
     gap_limit := gap_limit w; language := language w; words := words w;
     passphrase := passphrase w; mnemonic := mnemonic w; chain_key := chain_key w;
     word_count := word_count w; published := published w ++ [gap_limit w] |}.

Definition generate_new_key (index : Z) : Method HDWallet unit := fun w =>
  match chain_key w with
  | None => Raised AttributeError w
  | Some ck => Returned tt (store_key index (subkey ck index) w)
  end.

(** [validate_words]: [not self.words or not self.mnemonic.check(self.words)] *)
Definition validate_words : Method HDWallet unit := fun w =>
  match words w with
  | None => Raised InvalidWords w
  | Some ws =>
      if String.eqb ws EmptyString then Raised InvalidWords w
      else match mnemonic w with
           | None => Raised AttributeError w
           | Some l => if check l ws then Returned tt w else Raised InvalidWords w
           end
  end.

(** [_manually_initialize]: its first statement is
    [self.mnemonic = Mnemonic(self.language)], whose exception leaves the
    wallet as it is. *)
Definition _manually_initialize : Method HDWallet unit := fun w =>
  match Mnemonic (language w) with
  | None => Raised WordListError w
  | Some _ =>
      let w := set_mnemonic (language w) w in
      match words w with
      | None => (* Initialized but still locked *) Returned tt w
      | Some ws =>
          if String.eqb ws EmptyString then Returned tt w
          else
            let derive_keys : Method HDWallet unit := fun w =>
              match decode (passphrase w) with
              | None => Raised UnicodeDecodeError w
              | Some pass =>
                  for_range 0 (Z.to_nat (gap_limit w)) generate_new_key
                    (set_chain_key (chain_key_of ws pass) w)
              end in
            ((* Validate words first *)
             _ ← validate_words;
             derive_keys) w
      end
  end.

Definition get_key_at_index (index : Z) : Method HDWallet Key := fun w =>
  match chain_key w with
  | None => Raised AttributeError w
  | Some ck => Returned (subkey ck index) w
  end.

(** [self.generate_new_key(self.last_generated_index + 1)] *)
Definition generate_next_key : Method HDWallet unit := fun w =>
  generate_new_key (last_generated_index w + 1) w.

(** [tokens_received]: a [KeyError] for an address the wallet has no key of. *)
Definition tokens_received (address58 : string) : Method HDWallet unit := fun w =>
  match keys w !! address58 with
  | None => Raised (Builtin KeyError) w
  | Some received_key =>
      (* If the gap now is less than the limit, we generate the new keys
         until the limit *)
      let diff := last_generated_index w - child_index received_key in
      (_ ← (if gap_limit w - diff >? 0
            then for_times (Z.to_nat (gap_limit w - diff)) generate_next_key
            else mret tt);
       (* Last shared index should be at least the index after the received one *)
       modify (fun w => set_last_shared_index
                          (Z.max (last_shared_index w) (child_index received_key + 1)) w)) w
  end.

Definition get_unused_address (mark_as_used : bool) : Method HDWallet string := fun w =>
  let w :=
    if negb (last_shared_index w =? last_generated_index w) then
      (* Only in case we are not yet in the gap limit *)
      if mark_as_used then set_last_shared_index (last_shared_index w + 1) w else w
    else
      if mark_as_used then publish_gap_limit w else w in
  (key ← get_key_at_index (last_shared_index w);
   mret (get_address key)) w.

Definition is_locked (w : HDWallet) : bool :=
  match words w with
  | None => true
  | Some _ => false
  end.

(** [lock]: the attributes of [BaseWallet] it resets are left out. *)
Definition lock (w : HDWallet) : HDWallet :=
  {| keys := ∅; last_shared_index := 0; last_generated_index := 0;
     gap_limit := gap_limit w; language := EmptyString; words := None;
     passphrase := []; mnemonic := mnemonic w; chain_key := chain_key w;
     word_count := word_count w; published := published w |}.

(** The wallet has its chain key, the addresses up to the last generated
    index have their keys, and the shared index is within them. *)
Definition indexes_kept (w : HDWallet) : Prop :=
  exists ck,
    chain_key w = Some ck
    /\ 0 <= last_shared_index w <= last_generated_index w
    /\ forall j, 0 <= j <= last_generated_index w ->
         is_Some (keys w !! get_address (subkey ck j)).

(** The calls a node makes on an initialized wallet, and a run of them:
    an exception of a call ends the run. *)
Inductive WalletCall : Type :=
  | TokensReceived (address58 : string)
  | GetUnusedAddress (mark_as_used : bool).

Definition wallet_call (c : WalletCall) : Method HDWallet unit :=
  match c with
  | TokensReceived address58 => tokens_received address58
  | GetUnusedAddress mark_as_used => _ ← get_unused_address mark_as_used; mret tt
  end.

Fixpoint wallet_calls (cs : list WalletCall) : Method HDWallet unit :=
  match cs with
  | [] => mret tt
  | c :: cs' => _ ← wallet_call c; wallet_calls cs'
  end.

End Keys.

Arguments HDWallet : clear implicits.

End HDWallet.

(** ** More sample values *)

Module MoreExamples.

Import Manager Examples Node.

(** The started node with two protocols in the handshake. *)
Definition handshaking_node : Running TransactionMemoryStorage :=
  {| manager := started_manager; handshaking_peers := {[ 1%nat; 2%nat ]}; calls := [] |}.

(** A node that knows three peers, the second with an entrypoint that is
    not a description of an endpoint. *)
Definition third_peer : PeerId :=
  {| id := "third"; entrypoints := ["tcp:10.0.0.4:40403"] |}.

Definition known_peers_manager : HathorManager TransactionMemoryStorage :=
  set_peer_storage [other_peer; unreachable_peer; third_peer] lone_tx_manager.

(** A key derivation to run the wallet on: the chain key is the phrase,
    the key of an index is the index, its address the character of that
    code; there is a word list for English only, one phrase is valid,
    and every passphrase decodes. *)
Definition phrase_chain_key (ws passphrase : string) : string := ws.
Definition index_key (ck : string) (index : Z) : Z := index.
Definition key_index (key : Z) : Z := key.
Definition key_address (key : Z) : string := String (ascii_of_N (Z.to_N key)) EmptyString.
Definition check_words (l : string) : option (string -> bool) :=
  if String.eqb l "english" then Some (fun ws => String.eqb ws "legal winner") else None.
Definition decode_any (b : bytes) : option string := Some EmptyString.

Definition sample_wallet : HDWallet.HDWallet Z string :=
  {| HDWallet.keys := ∅;
     HDWallet.last_shared_index := 0;
     HDWallet.last_generated_index := 0;
     HDWallet.gap_limit := 3;
     HDWallet.language := "english";
     HDWallet.words := Some "legal winner"%string;
     HDWallet.passphrase := [];
     HDWallet.mnemonic := None;
     HDWallet.chain_key := None;
     HDWallet.word_count := 12;
     HDWallet.published := [] |}.

Definition initialized_wallet : HDWallet.HDWallet Z string :=
  HDWallet.final
    (HDWallet._manually_initialize phrase_chain_key index_key key_address check_words
       decode_any sample_wallet).

(** A node whose storage holds five blocks, the genesis block first. *)
Definition five_block_manager : HathorManager TransactionMemoryStorage :=
  set_tx_storage (stored <$> (genesis_block :: (spaced_block <$> [1; 2; 3; 4]))) fresh_manager.

End MoreExamples.

(** ** What a copy keeps *)

Module MetadataReads.

Import Metadata.

(** A computation that leaves the heap as it finds it. *)
Definition reads_only {A : Type} (c : M A) : Prop :=
  forall h a h', c h = Ok (a, h') -> h' = h.

(** What the JSON round trip keeps of a set of spenders: an output with
    an empty set is not listed again. *)
Definition nonempty (s : gset bytes) : option (gset bytes) :=
  if decide (s = ∅) then None else Some s.

(** What the JSON round trip keeps of [first_block]: an empty [bytes] is
    read back as [None]. *)
Definition kept_first_block (fb : option bytes) : option bytes :=
  match fb with
  | Some [] => None
  | _ => fb
  end.

End MetadataReads.

(** * Properties *)

Module HexFacts.

Import Hex.

Lemma fromhex_byte (x : byte) (s : string) :
  fromhex (String (hex_digit (Byte.to_N x / 16))
             (String (hex_digit (Byte.to_N x mod 16)) s))
  = (tl ← fromhex s; Ok (x :: tl)).
Proof. destruct x; reflexivity. Qed.

Lemma fromhex_hex (b : bytes) : fromhex (hex b) = Ok b.
Proof.
  induction b as [|x b IH]; [reflexivity|].
  cbn [hex]. rewrite fromhex_byte, IH. reflexivity.
Qed.

Lemma hex_inj (a b : bytes) : hex a = hex b -> a = b.
Proof.
  intros E. assert (H : fromhex (hex a) = fromhex (hex b)) by (rewrite E; reflexivity).
  rewrite !fromhex_hex in H. congruence.
Qed.

End HexFacts.

Module MetadataFacts.

Import Metadata.

(** *** The contents the loop over [spent_outputs] builds *)

Lemma add_spenders_insert (acc : gmap Z (gset bytes)) (idx : Z) (bs : list bytes) :
  bs <> [] ->
  add_spenders acc (idx, bs) = <[idx := list_to_set bs ∪ default ∅ (acc !! idx)]> acc.
Proof.
  unfold add_spenders. cbn [fst snd]. revert acc.
  induction bs as [|b bs IH]; intros acc Hne; [congruence|].
  cbn [foldl]. destruct bs as [|b' bs].
  - cbn [foldl]. unfold add_spender. cbn [list_to_set].
    rewrite (right_id_L ∅ (∪) {[b]}). reflexivity.
  - rewrite IH by discriminate. unfold add_spender.
    rewrite lookup_insert_eq, insert_insert_eq. f_equal.
    change (list_to_set (b :: b' :: bs)) with ({[b]} ∪ list_to_set (C:=gset bytes) (b' :: bs)).
    cbn [from_option]. unfold Datatypes.id.
    rewrite (assoc_L (∪)).
    rewrite (comm_L (∪) (list_to_set (b' :: bs)) {[b]}). reflexivity.
Qed.

(** Built from the items of a dictionary without empty sets, the contents
    are the dictionary again. *)
Lemma add_spenders_items (its : list (Z * gset bytes)) (acc : gmap Z (gset bytes)) :
  NoDup its.*1 ->
  Forall (fun it => acc !! it.1 = None /\ it.2 <> ∅) its ->
  foldl add_spenders acc ((fun it => (it.1, elements it.2)) <$> its)
  = list_to_map its ∪ acc.
Proof.
  revert acc. induction its as [|[i s] its IH]; intros acc Hnd Hall.
  - cbn. rewrite (left_id_L ∅ (∪)). reflexivity.
  - cbn [fmap list_fmap foldl fst snd].
    apply NoDup_cons in Hnd as [Hi Hnd]. apply Forall_cons in Hall as [[Hacc Hs] Hall].
    cbn [fst snd] in *.
    rewrite add_spenders_insert.
    2: { intros He. apply Hs. apply elements_empty_inv in He. apply leibniz_equiv, He. }
    rewrite Hacc, list_to_set_elements_L. cbn [default].
    rewrite (right_id_L ∅ (∪)).
    rewrite IH.
    + cbn [list_to_map foldr]. cbn [uncurry fst snd].
      rewrite <- insert_union_r by (apply not_elem_of_list_to_map_1, Hi).
      rewrite insert_union_l. reflexivity.
    + exact Hnd.
    + apply Forall_forall. intros it Hit.
      rewrite Forall_forall in Hall. destruct (Hall it Hit) as [Hnone Hne].
      split; [|exact Hne].
      rewrite lookup_insert_ne; [exact Hnone|].
      intros ->. apply Hi. apply list_elem_of_fmap. exists it. auto.
Qed.

(** *** Heap computations *)

Lemma bind_ok {A B : Type} (c : M A) (k : A -> M B) (h h' : heap) (a : A) :
  c h = Ok (a, h') -> (c ≫= k) h = k a h'.
Proof. intros Hc. unfold mbind, M_bind. rewrite Hc. reflexivity. Qed.

Lemma read_set_ok (h : heap) (l : loc) (s : gset bytes) :
  set_at h l = Some s -> read_set l h = Ok (s, h).
Proof.
  unfold set_at, read_set. destruct (h !! l) as [[]|]; intros [= ->]. reflexivity.
Qed.

Lemma set_at_Some (h : heap) (l : loc) (s : gset bytes) :
  set_at h l = Some s <-> h !! l = Some (OSet s).
Proof.
  unfold set_at. destruct (h !! l) as [[]|]; split; intros [= ->]; reflexivity.
Qed.

Lemma set_at_lt (h : heap) (l : loc) : is_Some (set_at h l) -> (l < length h)%nat.
Proof.
  intros [s Hs]. apply set_at_Some in Hs. eapply lookup_lt_Some, Hs.
Qed.

Lemma set_at_app (h ext : heap) (l : loc) :
  (l < length h)%nat -> set_at (h ++ ext) l = set_at h l.
Proof. intros Hl. unfold set_at. rewrite lookup_app_l by exact Hl. reflexivity. Qed.

Lemma set_at_insert_ne (h : heap) (l l' : loc) (o : Obj) :
  l <> l' -> set_at (<[l:=o]> h) l' = set_at h l'.
Proof. intros Hne. unfold set_at. rewrite list_lookup_insert_ne by exact Hne. reflexivity. Qed.

Lemma spender_step (L : loc) (h : heap) (acc : gmap Z (gset bytes)) (idx : Z) (b : bytes) :
  loop_invariant L h acc ->
  exists h',
    (s ← defaultdict_getitem L idx; x ← lift (Hex.fromhex (Hex.hex b)); set_add s x) h
    = Ok (tt, h')
    /\ loop_invariant L h' (add_spender idx b acc)
    /\ same_below L h h'
    /\ (length h <= length h')%nat.
Proof.
  intros (d & HL & Hacc & Hlocs & Hinj).
  assert (HLlt : (L < length h)%nat) by (eapply lookup_lt_Some, HL).
  unfold defaultdict_getitem, read_dict, set_add, write, alloc, lift.
  rewrite HexFacts.fromhex_hex.
  unfold mbind, M_bind, mret, M_ret. rewrite HL.
  destruct (d !! idx) as [s|] eqn:Hd.
  - destruct (Hlocs _ _ Hd) as [HLs [ss Hss]].
    rewrite (read_set_ok _ _ _ Hss).
    eexists. split; [reflexivity|]. split; [|split].
    + exists d. split; [|split; [|split]].
      * rewrite list_lookup_insert_ne by lia. exact HL.
      * intros j. unfold add_spender. destruct (decide (j = idx)) as [->|Hne].
        -- rewrite lookup_insert_eq, Hacc, Hd. cbn. rewrite Hss. cbn.
           unfold set_at. rewrite list_lookup_insert_eq by (eapply set_at_lt; eauto).
           reflexivity.
        -- rewrite lookup_insert_ne by congruence. rewrite Hacc.
           destruct (d !! j) as [l|] eqn:Hj; [|reflexivity]. cbn.
           rewrite set_at_insert_ne; [reflexivity|].
           intros ->. apply Hne. eapply Hinj; eauto.
      * intros j l Hj. destruct (Hlocs _ _ Hj) as [Hlt Hsome]. split; [exact Hlt|].
        destruct (decide (s = l)) as [->|Hne].
        -- unfold set_at. rewrite list_lookup_insert_eq by (eapply set_at_lt; eauto). eauto.
        -- rewrite set_at_insert_ne by exact Hne. exact Hsome.
      * exact Hinj.
    + intros l Hl. rewrite list_lookup_insert_ne by lia. reflexivity.
    + rewrite length_insert. lia.
  - assert (Hfresh : forall j l, d !! j = Some l -> (l < length h)%nat).
    { intros j l Hj. apply set_at_lt. eapply Hlocs, Hj. }
    assert (Hread : read_set (length h) (<[L:=ODict (<[idx:=length h]> d)]> (h ++ [OSet ∅]))
                    = Ok (∅, <[L:=ODict (<[idx:=length h]> d)]> (h ++ [OSet ∅]))).
    { apply read_set_ok. rewrite set_at_insert_ne by lia.
      unfold set_at. rewrite lookup_app_r by lia. rewrite Nat.sub_diag. reflexivity. }
    rewrite Hread.
    eexists. split; [reflexivity|]. split; [|split].
    + exists (<[idx:=length h]> d). split; [|split; [|split]].
      * rewrite list_lookup_insert_ne by lia.
        apply list_lookup_insert_eq. rewrite length_app. lia.
      * intros j. unfold add_spender. destruct (decide (j = idx)) as [->|Hne].
        -- rewrite !lookup_insert_eq. cbn. unfold set_at.
           rewrite list_lookup_insert_eq by (rewrite length_insert, length_app; cbn; lia).
           rewrite Hacc, Hd. reflexivity.
        -- rewrite !lookup_insert_ne by congruence. rewrite Hacc.
           destruct (d !! j) as [l|] eqn:Hj; [|reflexivity]. cbn.
           pose proof (Hfresh _ _ Hj). destruct (Hlocs _ _ Hj) as [Hlt _].
           rewrite !set_at_insert_ne by lia. rewrite set_at_app by lia. reflexivity.
      * intros j l Hj. destruct (decide (j = idx)) as [->|Hne].
        -- rewrite lookup_insert_eq in Hj. injection Hj as <-. split; [lia|].
           unfold set_at.
           rewrite list_lookup_insert_eq by (rewrite length_insert, length_app; cbn; lia).
           eauto.
        -- rewrite lookup_insert_ne in Hj by congruence.
           pose proof (Hfresh _ _ Hj). destruct (Hlocs _ _ Hj) as [Hlt Hsome].
           split; [exact Hlt|].
           rewrite !set_at_insert_ne by lia. rewrite set_at_app by lia. exact Hsome.
      * intros i j l Hi Hj.
        destruct (decide (i = idx)) as [->|Hi'], (decide (j = idx)) as [->|Hj'].
        -- reflexivity.
        -- rewrite lookup_insert_eq in Hi. rewrite lookup_insert_ne in Hj by congruence.
           injection Hi as <-. apply Hfresh in Hj. lia.
        -- rewrite lookup_insert_eq in Hj. rewrite lookup_insert_ne in Hi by congruence.
           injection Hj as <-. apply Hfresh in Hi. lia.
        -- rewrite lookup_insert_ne in Hi by congruence.
           rewrite lookup_insert_ne in Hj by congruence. eapply Hinj; eauto.
    + intros l Hl. rewrite !list_lookup_insert_ne by lia.
      apply lookup_app_l. lia.
    + rewrite !length_insert, length_app. lia.
Qed.

Lemma same_below_trans (n : nat) (h1 h2 h3 : heap) :
  same_below n h1 h2 -> same_below n h2 h3 -> same_below n h1 h3.
Proof. intros H12 H23 l Hl. rewrite (H23 l Hl). apply H12, Hl. Qed.

(** The inner loop, [for h_hex in hashes], over the hexadecimal forms of [bs]. *)
Lemma spenders_loop (L : loc) (idx : Z) (bs : list bytes) (h : heap)
    (acc : gmap Z (gset bytes)) :
  loop_invariant L h acc ->
  exists h',
    for_each (Hex.hex <$> bs) (fun h_hex =>
      s ← defaultdict_getitem L idx;
      b ← lift (Hex.fromhex h_hex);
      set_add s b) h
    = Ok (tt, h')
    /\ loop_invariant L h' (add_spenders acc (idx, bs))
    /\ same_below L h h'
    /\ (length h <= length h')%nat.
Proof.
  revert h acc. induction bs as [|b bs IH]; intros h acc Hinv.
  - exists h. cbn. repeat split; auto; intros l _; reflexivity.
  - destruct (spender_step L h acc idx b Hinv) as (h1 & Hstep & Hinv1 & Hsame1 & Hlen1).
    destruct (IH h1 _ Hinv1) as (h2 & Hloop & Hinv2 & Hsame2 & Hlen2).
    exists h2. split; [|split; [|split]].
    + cbn [fmap list_fmap for_each]. rewrite (bind_ok _ _ _ _ _ Hstep). exact Hloop.
    + exact Hinv2.
    + eapply same_below_trans; eauto.
    + lia.
Qed.

(** The outer loop, [for idx, hashes in data['spent_outputs']]. *)
Lemma spent_outputs_loop (L : loc) (its : list (Z * list bytes)) (h : heap)
    (acc : gmap Z (gset bytes)) :
  loop_invariant L h acc ->
  exists h',
    for_each ((fun it : Z * list bytes => (it.1, Hex.hex <$> it.2)) <$> its)
      (fun '(idx, hashes) =>
      for_each hashes (fun h_hex =>
        s ← defaultdict_getitem L idx;
        b ← lift (Hex.fromhex h_hex);
        set_add s b)) h
    = Ok (tt, h')
    /\ loop_invariant L h' (foldl add_spenders acc its)
    /\ same_below L h h'
    /\ (length h <= length h')%nat.
Proof.
  revert h acc. induction its as [|[idx bs] its IH]; intros h acc Hinv.
  - exists h. cbn. repeat split; auto; intros l _; reflexivity.
  - destruct (spenders_loop L idx bs h acc Hinv) as (h1 & Hstep & Hinv1 & Hsame1 & Hlen1).
    destruct (IH h1 _ Hinv1) as (h2 & Hloop & Hinv2 & Hsame2 & Hlen2).
    exists h2. split; [|split; [|split]].
    + cbn [fmap list_fmap for_each fst snd]. rewrite (bind_ok _ _ _ _ _ Hstep). exact Hloop.
    + exact Hinv2.
    + eapply same_below_trans; eauto.
    + lia.
Qed.

Lemma loop_invariant_app (L : loc) (h ext : heap) (acc : gmap Z (gset bytes)) :
  loop_invariant L h acc -> loop_invariant L (h ++ ext) acc.
Proof.
  intros (d & HL & Hacc & Hlocs & Hinj). exists d.
  assert (Hset : forall idx l, d !! idx = Some l -> set_at (h ++ ext) l = set_at h l).
  { intros idx l Hl. apply set_at_app, set_at_lt. eapply Hlocs, Hl. }
  split; [|split; [|split]].
  - rewrite lookup_app_l by (eapply lookup_lt_Some, HL). exact HL.
  - intros idx. rewrite Hacc. destruct (d !! idx) as [l|] eqn:Hl; [|reflexivity].
    cbn. symmetry. eapply Hset, Hl.
  - intros idx l Hl. rewrite (Hset _ _ Hl). eapply Hlocs, Hl.
  - exact Hinj.
Qed.

Lemma loop_invariant_contents (L : loc) (h : heap) (acc : gmap Z (gset bytes)) :
  loop_invariant L h acc -> read_contents L h = Ok (acc, h).
Proof.
  intros (d & HL & Hacc & Hlocs & Hinj). unfold read_contents, contents. rewrite HL.
  rewrite decide_True.
  - replace (omap (set_at h) d) with acc; [reflexivity|].
    apply map_eq. intros idx. rewrite lookup_omap. apply Hacc.
  - intros idx l Hl. eapply Hlocs, Hl.
Qed.

Lemma mapM_fromhex (bs : list bytes) : mapM Hex.fromhex (Hex.hex <$> bs) = Ok bs.
Proof.
  induction bs as [|b bs IH]; [reflexivity|].
  cbn [fmap list_fmap mapM]. rewrite HexFacts.fromhex_hex. cbn. rewrite IH. reflexivity.
Qed.

Lemma set_fromhex_ok (s : gset bytes) (h : heap) :
  set_fromhex (hex_list s) h = Ok (length h, h ++ [OSet s]).
Proof.
  unfold set_fromhex, hex_list, lift, alloc, mbind, M_bind.
  rewrite mapM_fromhex, list_to_set_elements_L. reflexivity.
Qed.

Lemma hex_nonempty (b : bytes) : b <> [] -> String.eqb (Hex.hex b) EmptyString = false.
Proof. destruct b; [congruence|reflexivity]. Qed.

(** One step of a computation whose first part is known. *)
Ltac run H :=
  etransitivity; [apply (bind_ok _ _ _ _ _ H)|]; cbv beta.

(** [create_from_json] on data of the form [to_json] builds. *)
Lemma create_from_json_ok (h : heap) (b : bytes) (its : list (Z * list bytes))
    (rb : gset Z) (ch cw vb tw : gset bytes) (aw sc : float) (fb : option bytes) :
  fb <> Some [] ->
  exists h2,
    create_from_json
      {| j_hash := PyStr (Hex.hex b);
         j_spent_outputs := (fun it : Z * list bytes => (it.1, Hex.hex <$> it.2)) <$> its;
         j_received_by := elements rb;
         j_children := hex_list ch;
         j_conflict_with := Some (hex_list cw);
         j_voided_by := Some (hex_list vb);
         j_twins := Some (hex_list tw);
         j_accumulated_weight := aw;
         j_score := Some sc;
         j_first_block := Some match fb with
                               | Some x => PyStr (Hex.hex x)
                               | None => PyNone
                               end |} h
    = Ok ({| hash := Some b;
             spent_outputs := length h;
             conflict_with := length h2 + 2;
             voided_by := length h2 + 3;
             received_by := length h2;
             children := length h2 + 1;
             twins := length h2 + 4;
             accumulated_weight := aw;
             score := sc;
             first_block := fb |},
          h2 ++ [OIntSet rb; OSet ch; OSet cw; OSet vb; OSet tw])
    /\ loop_invariant (length h) h2 (foldl add_spenders ∅ its)
    /\ same_below (length h) h h2
    /\ (length h < length h2)%nat.
Proof.
  intros Hfb.
  set (h1 := h ++ [ODict ∅; OSet ∅; OSet ∅; OIntSet ∅; OSet ∅; OSet ∅]).
  assert (Hinit : __init__ None None 0%float 0%float h
                  = Ok ({| hash := None; spent_outputs := length h;
                           conflict_with := length h + 1; voided_by := length h + 2;
                           received_by := length h + 3; children := length h + 4;
                           twins := length h + 5; accumulated_weight := 0%float;
                           score := 0%float; first_block := None |}, h1)).
  { unfold __init__, alloc, mbind, M_bind, mret, M_ret. subst h1.
    rewrite !length_app. cbn [length]. rewrite <- !app_assoc. cbn [app].
    do 3 f_equal; lia. }
  assert (Hinv1 : loop_invariant (length h) h1 ∅).
  { exists ∅. subst h1. split; [|split; [|split]].
    - rewrite lookup_app_r by lia. rewrite Nat.sub_diag. reflexivity.
    - intros idx. rewrite !lookup_empty. reflexivity.
    - intros idx l Hl. rewrite lookup_empty in Hl. discriminate.
    - intros i j l Hl. rewrite lookup_empty in Hl. discriminate. }
  destruct (spent_outputs_loop (length h) its h1 ∅ Hinv1) as (h2 & Hloop & Hinv2 & Hsame & Hlen).
  exists h2. split; [|split; [exact Hinv2| split]].
  - unfold create_from_json.
    run Hinit.
    assert (Hhash : lift (py_fromhex (PyStr (Hex.hex b))) h1 = Ok (b, h1)).
    { unfold lift, py_fromhex. rewrite HexFacts.fromhex_hex. reflexivity. }
    run Hhash. cbn [j_spent_outputs spent_outputs].
    run Hloop.
    cbn [j_received_by j_children j_conflict_with j_voided_by j_twins j_first_block
         j_accumulated_weight j_score first_block].
    unfold mbind at 1, M_bind at 1, alloc at 1.
    rewrite list_to_set_elements_L.
    run (set_fromhex_ok ch (h2 ++ [OIntSet rb])).
    run (set_fromhex_ok cw ((h2 ++ [OIntSet rb]) ++ [OSet ch])).
    run (set_fromhex_ok vb (((h2 ++ [OIntSet rb]) ++ [OSet ch]) ++ [OSet cw])).
    run (set_fromhex_ok tw ((((h2 ++ [OIntSet rb]) ++ [OSet ch]) ++ [OSet cw]) ++ [OSet vb])).
    assert (Hfirst : forall hx : heap,
               (if truthy match fb with Some x => PyStr (Hex.hex x) | None => PyNone end
                then b0 ← lift (py_fromhex match fb with
                                           | Some x => PyStr (Hex.hex x)
                                           | None => PyNone
                                           end);
                     mret (Some b0)
                else mret None) hx = Ok (fb, hx)).
    { intros hx. destruct fb as [x|]; [|reflexivity].
      cbn [truthy]. rewrite hex_nonempty by congruence. cbn [negb].
      unfold lift, py_fromhex, mbind, M_bind. rewrite HexFacts.fromhex_hex. reflexivity. }
    run (Hfirst (((((h2 ++ [OIntSet rb]) ++ [OSet ch]) ++ [OSet cw]) ++ [OSet vb]) ++ [OSet tw])).
    unfold mret, M_ret. rewrite !length_app. cbn [length default from_option].
    rewrite <- !app_assoc. cbn [app].
    do 3 f_equal; lia.
  - intros l Hl. rewrite (Hsame l Hl). subst h1. apply lookup_app_l, Hl.
  - subst h1. rewrite length_app in Hlen. cbn in Hlen. lia.
Qed.

Lemma mapM_read_sets (h : heap) (its : list (Z * loc)) :
  Forall (fun it => is_Some (set_at h it.2)) its ->
  mapM (fun '(idx, l) => hashes ← read_set l; mret (idx, hex_list hashes)) its h
  = Ok ((fun it : Z * list bytes => (it.1, Hex.hex <$> it.2))
          <$> ((fun it : Z * loc => (it.1, elements (default ∅ (set_at h it.2)))) <$> its), h).
Proof.
  induction 1 as [|[idx l] its [s Hs] _ IH]; [reflexivity|].
  cbn [mapM fmap list_fmap fst snd] in *.
  unfold mbind at 1, M_bind at 1. unfold mbind at 1, M_bind at 1.
  rewrite (read_set_ok _ _ _ Hs). unfold mret at 1, M_ret at 1.
  unfold mbind at 1, M_bind at 1. rewrite IH. rewrite Hs. reflexivity.
Qed.

Lemma to_json_ok (h : heap) (m : TransactionMetadata) (d : gmap Z loc)
    (rb : gset Z) (ch cw vb tw : gset bytes) :
  h !! spent_outputs m = Some (ODict d) ->
  map_Forall (fun _ l => is_Some (set_at h l)) d ->
  set_at h (conflict_with m) = Some cw ->
  set_at h (voided_by m) = Some vb ->
  h !! received_by m = Some (OIntSet rb) ->
  set_at h (children m) = Some ch ->
  set_at h (twins m) = Some tw ->
  to_json m h
  = Ok ({| j_hash := match hash m with
                     | None => PyNone
                     | Some [] => PyBytes []
                     | Some (x :: b) => PyStr (Hex.hex (x :: b))
                     end;
           j_spent_outputs :=
             (fun it : Z * list bytes => (it.1, Hex.hex <$> it.2)) <$> spender_items h d;
           j_received_by := elements rb;
           j_children := hex_list ch;
           j_conflict_with := Some (hex_list cw);
           j_voided_by := Some (hex_list vb);
           j_twins := Some (hex_list tw);
           j_accumulated_weight := accumulated_weight m;
           j_score := Some (score m);
           j_first_block := Some match first_block m with
                                 | Some x => PyStr (Hex.hex x)
                                 | None => PyNone
                                 end |}, h).
Proof.
  intros Hd Hall Hcw Hvb Hrb Hch Htw. unfold to_json.
  assert (Hrd : read_dict (spent_outputs m) h = Ok (d, h)).
  { unfold read_dict. rewrite Hd. reflexivity. }
  run Hrd.
  assert (Hits : Forall (fun it : Z * loc => is_Some (set_at h it.2)) (map_to_list d)).
  { apply Forall_forall. intros [idx l] Hin. apply elem_of_map_to_list in Hin.
    exact (Hall _ _ Hin). }
  run (mapM_read_sets h _ Hits).
  assert (Hri : read_intset (received_by m) h = Ok (rb, h)).
  { unfold read_intset. rewrite Hrb. reflexivity. }
  run Hri.
  run (read_set_ok _ _ _ Hch).
  run (read_set_ok _ _ _ Hcw).
  run (read_set_ok _ _ _ Hvb).
  run (read_set_ok _ _ _ Htw).
  destruct (hash m) as [[|x b]|]; reflexivity.
Qed.

(** The contents of a dictionary of set objects are what the loop builds
    from its items, when no set is empty. *)
Lemma add_spenders_spender_items (h : heap) (d : gmap Z loc) :
  map_Forall (fun _ l => is_Some (set_at h l)) d ->
  map_Forall (fun _ l => set_at h l <> Some ∅) d ->
  foldl add_spenders ∅ (spender_items h d) = omap (set_at h) d.
Proof.
  intros Hall Hne. unfold spender_items.
  set (f := fun l : loc => default ∅ (set_at h l)).
  replace ((fun it : Z * loc => (it.1, elements (default ∅ (set_at h it.2)))) <$> map_to_list d)
    with ((fun it : Z * gset bytes => (it.1, elements it.2))
            <$> (prod_map Datatypes.id f <$> map_to_list d)).
  2: { rewrite <- list_fmap_compose. apply list_fmap_ext. intros _ [idx l] _. reflexivity. }
  rewrite add_spenders_items.
  - rewrite (right_id_L ∅ (∪)). rewrite list_to_map_fmap, list_to_map_to_list.
    apply map_eq. intros idx. rewrite lookup_fmap, lookup_omap.
    destruct (d !! idx) as [l|] eqn:Hl; [|reflexivity]. cbn.
    destruct (Hall _ _ Hl) as [s Hs]. subst f. cbn. rewrite Hs. reflexivity.
  - rewrite <- list_fmap_compose.
    replace (fst ∘ prod_map Datatypes.id f) with (fst : Z * loc -> Z).
    + apply NoDup_fst_map_to_list.
    + reflexivity.
  - apply Forall_forall. intros it Hin. apply list_elem_of_fmap in Hin as ([idx l] & -> & Hin).
    apply elem_of_map_to_list in Hin. cbn. split; [apply lookup_empty|].
    destruct (Hall _ _ Hin) as [s Hs]. subst f. cbn. rewrite Hs. cbn.
    intros ->. exact (Hne _ _ Hin Hs).
Qed.

(** *** Equality and the round trip *)

Lemma eqb_not_nan (x : float) : is_nan x = false -> (x =? x)%float = true.
Proof. unfold is_nan. destruct (x =? x)%float; [reflexivity|discriminate]. Qed.

Lemma __eq___true (h : heap) (a b : TransactionMetadata) (so : gmap Z (gset bytes))
    (rb : gset Z) (ch cw vb tw : gset bytes) :
  read_contents (spent_outputs a) h = Ok (so, h) ->
  read_contents (spent_outputs b) h = Ok (so, h) ->
  set_at h (conflict_with a) = Some cw -> set_at h (conflict_with b) = Some cw ->
  set_at h (voided_by a) = Some vb -> set_at h (voided_by b) = Some vb ->
  h !! received_by a = Some (OIntSet rb) -> h !! received_by b = Some (OIntSet rb) ->
  set_at h (children a) = Some ch -> set_at h (children b) = Some ch ->
  set_at h (twins a) = Some tw -> set_at h (twins b) = Some tw ->
  hash a = hash b ->
  first_block a = first_block b ->
  (accumulated_weight a =? accumulated_weight b)%float = true ->
  (score a =? score b)%float = true ->
  __eq__ a b h = Ok (true, h).
Proof.
  intros Hsa Hsb Hcwa Hcwb Hvba Hvbb Hrba Hrbb Hcha Hchb Htwa Htwb Hh Hf Haw Hsc.
  unfold __eq__.
  run Hsa. run Hsb.
  run (read_set_ok _ _ _ Hcwa). run (read_set_ok _ _ _ Hcwb).
  run (read_set_ok _ _ _ Hvba). run (read_set_ok _ _ _ Hvbb).
  assert (Hra : read_intset (received_by a) h = Ok (rb, h)).
  { unfold read_intset. rewrite Hrba. reflexivity. }
  assert (Hrb : read_intset (received_by b) h = Ok (rb, h)).
  { unfold read_intset. rewrite Hrbb. reflexivity. }
  run Hra. run Hrb.
  run (read_set_ok _ _ _ Hcha). run (read_set_ok _ _ _ Hchb).
  run (read_set_ok _ _ _ Htwa). run (read_set_ok _ _ _ Htwb).
  rewrite Hh, Hf, Haw, Hsc. rewrite !bool_decide_eq_true_2 by reflexivity. reflexivity.
Qed.

Lemma well_formed_reachable_lt (h : heap) (m : TransactionMetadata) (l : loc) :
  well_formed h m -> reachable h m l -> (l < length h)%nat.
Proof.
  intros ((d & Hd & Hall) & Hcw & Hvb & [rb Hrb] & Hch & Htw) [Hin|(d' & idx & Hd' & Hl)].
  - repeat (apply elem_of_cons in Hin as [->|Hin]);
      try (apply set_at_lt; assumption); try (eapply lookup_lt_Some; eassumption).
    apply elem_of_nil in Hin. contradiction.
  - rewrite Hd in Hd'. injection Hd' as <-. apply set_at_lt. exact (Hall _ _ Hl).
Qed.

(** C9, as amended. For a metadata object [m] whose attributes hold objects
    of the annotated types, whose hash is a non-empty [bytes], whose
    [first_block] is [None] or a non-empty [bytes], whose [spent_outputs]
    has no empty set and whose [accumulated_weight] and [score] are not
    NaN, [m.clone()], that is [create_from_json(to_json(m))], returns a
    metadata object that is equal to [m] under [__eq__], in both
    directions; the objects that were in the heap are left as they were,
    and the sets and the dictionary of the copy are new objects, none of
    which is one of [m]'s. *)
Theorem clone_is_equal_and_shares_nothing (h : heap) (m : TransactionMetadata) :
  well_formed h m ->
  (exists b, hash m = Some b /\ b <> []) ->
  first_block m <> Some [] ->
  no_empty_spender_set h m ->
  is_nan (accumulated_weight m) = false ->
  is_nan (score m) = false ->
  exists m' h',
    clone m h = Ok (m', h')
    /\ (data ← to_json m; create_from_json data) h = Ok (m', h')
    /\ __eq__ m' m h' = Ok (true, h')
    /\ __eq__ m m' h' = Ok (true, h')
    /\ same_below (length h) h h'
    /\ (forall l, reachable h' m' l -> (length h <= l)%nat /\ ~ reachable h' m l).
Proof.
  intros Hwf (b & Hhash & Hb) Hfb Hne Haw Hsc.
  pose proof Hwf as ((d & Hd & Hall) & [cw Hcw] & [vb Hvb] & [rb Hrb] & [ch Hch] & [tw Htw]).
  pose proof (to_json_ok h m d rb ch cw vb tw Hd Hall Hcw Hvb Hrb Hch Htw) as Hjson.
  rewrite Hhash in Hjson. destruct b as [|x b]; [congruence|].
  destruct (create_from_json_ok h (x :: b) (spender_items h d) rb ch cw vb tw
              (accumulated_weight m) (score m) (first_block m) Hfb)
    as (h2 & Hcreate & Hinv & Hsame & Hlen).
  set (ext := [OIntSet rb; OSet ch; OSet cw; OSet vb; OSet tw]) in *.
  set (m' := {| hash := Some (x :: b); spent_outputs := length h |}) in *.
  assert (Hclone : clone m h = Ok (m', h2 ++ ext)).
  { unfold clone. run Hjson. exact Hcreate. }
  (* the objects of [m] are where they were *)
  assert (Hold : forall l, (l < length h)%nat -> (h2 ++ ext) !! l = h !! l).
  { intros l Hl. rewrite lookup_app_l by lia. apply Hsame, Hl. }
  assert (Hold_set : forall l, is_Some (set_at h l) -> set_at (h2 ++ ext) l = set_at h l).
  { intros l Hl. unfold set_at. rewrite Hold by (apply set_at_lt, Hl). reflexivity. }
  assert (Hwf' : well_formed (h2 ++ ext) m).
  { split; [exists d; split|].
    - rewrite Hold by (eapply lookup_lt_Some, Hd). exact Hd.
    - intros idx l Hl. rewrite Hold_set by exact (Hall _ _ Hl). exact (Hall _ _ Hl).
    - rewrite !Hold_set by eauto. rewrite Hold by (eapply lookup_lt_Some, Hrb). eauto 10. }
  (* the contents of the two dictionaries *)
  assert (Hso : read_contents (spent_outputs m) (h2 ++ ext)
                = Ok (omap (set_at h) d, h2 ++ ext)).
  { unfold read_contents, contents.
    rewrite Hold by (eapply lookup_lt_Some, Hd). rewrite Hd.
    rewrite decide_True.
    - replace (omap (set_at (h2 ++ ext)) d) with (omap (set_at h) d); [reflexivity|].
      apply map_eq. intros idx. rewrite !lookup_omap.
      destruct (d !! idx) as [l|] eqn:Hl; [|reflexivity]. cbn.
      symmetry. apply Hold_set. exact (Hall _ _ Hl).
    - intros idx l Hl. rewrite Hold_set by exact (Hall _ _ Hl). exact (Hall _ _ Hl). }
  assert (Hso' : read_contents (spent_outputs m') (h2 ++ ext)
                 = Ok (omap (set_at h) d, h2 ++ ext)).
  { rewrite <- (add_spenders_spender_items h d Hall).
    - apply loop_invariant_contents, loop_invariant_app, Hinv.
    - apply Hne, Hd. }
  (* the new sets *)
  assert (Hnew : forall i o, ext !! i = Some o -> (h2 ++ ext) !! (length h2 + i)%nat = Some o).
  { intros i o Hi. rewrite lookup_app_r by lia.
    replace (length h2 + i - length h2)%nat with i by lia. exact Hi. }
  assert (Hrb' : (h2 ++ ext) !! received_by m' = Some (OIntSet rb)).
  { replace (received_by m') with (length h2 + 0)%nat by (cbn; lia). apply Hnew. reflexivity. }
  assert (Hch' : set_at (h2 ++ ext) (children m') = Some ch).
  { apply set_at_Some. apply (Hnew 1%nat). reflexivity. }
  assert (Hcw' : set_at (h2 ++ ext) (conflict_with m') = Some cw).
  { apply set_at_Some. apply (Hnew 2%nat). reflexivity. }
  assert (Hvb' : set_at (h2 ++ ext) (voided_by m') = Some vb).
  { apply set_at_Some. apply (Hnew 3%nat). reflexivity. }
  assert (Htw' : set_at (h2 ++ ext) (twins m') = Some tw).
  { apply set_at_Some. apply (Hnew 4%nat). reflexivity. }
  assert (Hrb0 : (h2 ++ ext) !! received_by m = Some (OIntSet rb)).
  { rewrite Hold by (eapply lookup_lt_Some, Hrb). exact Hrb. }
  rewrite <- (Hold_set (conflict_with m)) in Hcw by eauto.
  rewrite <- (Hold_set (voided_by m)) in Hvb by eauto.
  rewrite <- (Hold_set (children m)) in Hch by eauto.
  rewrite <- (Hold_set (twins m)) in Htw by eauto.
  exists m', (h2 ++ ext).
  split; [exact Hclone|]. split; [exact Hclone|].
  split; [|split; [|split]].
  - eapply __eq___true; eauto using eqb_not_nan.
  - eapply __eq___true; eauto using eqb_not_nan.
  - intros l Hl. apply Hold, Hl.
  - intros l Hl.
    assert (Hge : (length h <= l)%nat).
    { destruct Hl as [Hin|(d' & idx & Hd' & Hl)].
      - cbn in Hin. repeat (apply elem_of_cons in Hin as [->|Hin]); try lia.
        apply elem_of_nil in Hin. contradiction.
      - destruct (loop_invariant_app _ _ ext _ Hinv) as (d2 & Hd2 & _ & Hlocs & _).
        cbn [spent_outputs m'] in Hd'. rewrite Hd2 in Hd'. injection Hd' as <-.
        destruct (Hlocs _ _ Hl) as [Hlt _]. lia. }
    split; [exact Hge|].
    intros Hm. pose proof (well_formed_reachable_lt _ _ _ Hwf' Hm) as Hlt.
    destruct Hm as [Hin|(d' & idx & Hd' & Hl')].
    + assert (Hlt0 : (l < length h)%nat); [|lia].
      destruct Hwf as ((d0 & Hd0 & _) & Hc & Hv & [rb0 Hr] & Hc' & Ht).
      repeat (apply elem_of_cons in Hin as [->|Hin]);
        try (apply set_at_lt; assumption); try (eapply lookup_lt_Some; eassumption).
      apply elem_of_nil in Hin. contradiction.
    + rewrite Hold in Hd' by (eapply lookup_lt_Some, Hd). rewrite Hd in Hd'.
      injection Hd' as <-. pose proof (set_at_lt _ _ (Hall _ _ Hl')). lia.
Qed.

End MetadataFacts.

Module MetadataExampleFacts.

Import Metadata MetadataExamples MetadataFacts.

Lemma sample_well_formed (hash0 first_block0 : option bytes) (score0 : float) :
  well_formed sample_heap (sample_meta hash0 first_block0 score0).
Proof.
  split; [|cbn; eauto 10].
  eexists. split; [reflexivity|].
  apply (bool_decide_unpack _). vm_compute. exact I.
Qed.

Lemma sample_no_empty_spender_set (hash0 first_block0 : option bytes) (score0 : float) :
  no_empty_spender_set sample_heap (sample_meta hash0 first_block0 score0).
Proof.
  intros d [= <-]. apply (bool_decide_unpack _). vm_compute. exact I.
Qed.

Lemma clone_is_equal_and_shares_nothing_witness :
  exists m' h',
    clone (sample_meta (Some [xab]%byte) None 2%float) sample_heap = Ok (m', h')
    /\ __eq__ m' (sample_meta (Some [xab]%byte) None 2%float) h' = Ok (true, h')
    /\ forall l, reachable h' m' l -> (8 <= l)%nat.
Proof.
  destruct (clone_is_equal_and_shares_nothing sample_heap
              (sample_meta (Some [xab]%byte) None 2%float))
    as (m' & h' & Hclone & _ & Heq & _ & _ & Hfresh).
  - apply sample_well_formed.
  - exists [xab]%byte. split; [reflexivity|discriminate].
  - discriminate.
  - apply sample_no_empty_spender_set.
  - reflexivity.
  - reflexivity.
  - exists m', h'. split; [exact Hclone|]. split; [exact Heq|].
    intros l Hl. apply (Hfresh l Hl).
Defined.

(** C9 as stated fails: with a hash that is not [None] and no empty set
    of spenders, the copy fails for an empty hash, and differs from the
    original for an empty [first_block] and for a score that is NaN. *)
Lemma clone_not_equal :
  clone_equals (sample_meta (Some []) None 2%float) sample_heap = Raise TypeError
  /\ clone_equals (sample_meta (Some [xab]%byte) (Some []) 2%float) sample_heap = Ok false
  /\ clone_equals (sample_meta (Some [xab]%byte) None nan) sample_heap = Ok false
  /\ clone_equals (sample_meta (Some [xab]%byte) None 2%float) sample_heap = Ok true.
Proof. repeat split; vm_compute; reflexivity. Qed.

End MetadataExampleFacts.

Module ManagerFacts.

Import Manager.


Lemma weight_lt_false (w : Weight) (x : R) :
  weight_lt w x = false <-> w = Nan \/ exists y, w = Num y /\ (x <= y)%R.
Proof.
  destruct w as [y|]; cbn.
  - destruct (Rlt_dec y x) as [Hlt|Hge]; split.
    + discriminate.
    + intros [Hn|(y' & [= <-] & Hle)]; [discriminate Hn | lra].
    + intros _. right. exists y. split; [reflexivity | lra].
    + reflexivity.
  - split; [intros _; left; reflexivity | reflexivity].
Qed.

Lemma weight_lt_Num_false (x y : R) : (x <= y)%R -> weight_lt (Num y) x = false.
Proof. intros Hle. apply weight_lt_false. right. exists y. split; [reflexivity | exact Hle]. Qed.

Section WithStorage.

Context {S : Type} `{TransactionStorage S} `{Endpoints}.
Variable verify : S -> BaseTransaction -> bool.

Lemma math_log_2 (x : R) : (0 < x)%R -> math_log x 2 = Ok (log2 x).
Proof.
  intros Hx. unfold math_log, log2.
  destruct (Rle_dec x 0) as [Hle|_]; [lra|].
  destruct (Rle_dec 2 0) as [Hle|_]; [lra|].
  destruct (Req_dec_T 2 1) as [Heq|_]; [lra|]. reflexivity.
Qed.

Lemma clamp_code (delta d : R) :
  (0 <= d)%R ->
  (if Rgtb delta d then d else if Rltb delta (- d) then (- d)%R else delta)
  = clamp delta (- d) d.
Proof.
  intros Hd. unfold Rgtb, Rltb, clamp, Rmax, Rmin.
  destruct (Rgt_dec delta d), (Rlt_dec delta (- d)), (Rle_dec delta d);
    try lra; destruct (Rle_dec (- d) d); try lra;
    destruct (Rle_dec (- d) delta); lra.
Qed.

Lemma floor_code (w lo : R) : (if Rltb w lo then lo else w) = Rmax lo w.
Proof.
  unfold Rltb, Rmax. destruct (Rlt_dec w lo), (Rle_dec lo w); lra.
Qed.

Lemma dt_code (dt : Z) : (if dt <=? 0 then 1 else dt) = Z.max 1 dt.
Proof. destruct (Z.leb_spec dt 0); lia. Qed.

(** The retarget for any configuration: a positive target interval and a
    non-negative bound on the change. *)
Lemma calculate_block_difficulty_general (m : HathorManager S) (oldest newest : BaseTransaction) :
  Z.of_nat (length (latest_blocks m)) = blocks_per_difficulty m ->
  head (latest_blocks m) = Some oldest ->
  last (latest_blocks m) = Some newest ->
  (0 < avg_time_between_blocks m)%R ->
  (0 <= max_allowed_block_weight_change m)%R ->
  let dt := Z.max 1 (timestamp newest - timestamp oldest) in
  calculate_block_difficulty m
  = Ok ((IZR dt / IZR (blocks_per_difficulty m))%R,
        Rmax (min_block_weight m)
          (block_weight m
           + clamp (log2 (avg_time_between_blocks m)
                    + log2 (IZR (blocks_per_difficulty m))
                    - log2 (IZR dt))
               (- max_allowed_block_weight_change m)
               (max_allowed_block_weight_change m))%R).
Proof.
  intros Hlen Hhead Hlast Havg Hmax dt.
  assert (Hpos : 0 < blocks_per_difficulty m).
  { destruct (latest_blocks m); [discriminate|]. simpl in Hlen. lia. }
  unfold calculate_block_difficulty.
  rewrite Hlen, Z.eqb_refl, Hhead, Hlast. cbn [negb].
  rewrite dt_code. fold dt.
  rewrite (math_log_2 _ Havg).
  rewrite (math_log_2 (IZR (blocks_per_difficulty m))) by (apply IZR_lt; lia).
  rewrite (math_log_2 (IZR dt)) by (apply IZR_lt; lia).
  cbn [mbind result_bind].
  rewrite (clamp_code _ _ Hmax), floor_code.
  destruct (Z.eqb_spec (blocks_per_difficulty m) 0); [lia|]. reflexivity.
Qed.

(** C1. With the constants the constructor sets (a window of 5 blocks, a
    target of 64 seconds between blocks, a change of at most 2, a weight of
    at least 10), [calculate_block_difficulty] returns, for every window of
    5 latest blocks, the weight
    [max(10, block_weight + clamp(log2 64 + log2 5 - log2 dt, -2, 2))] with
    [dt = max(1, newest.timestamp - oldest.timestamp)], next to the average
    interval [dt / 5]. *)
Theorem calculate_block_difficulty_retarget
    (m : HathorManager S) (oldest newest : BaseTransaction) :
  blocks_per_difficulty m = 5 ->
  avg_time_between_blocks m = 64%R ->
  max_allowed_block_weight_change m = 2%R ->
  min_block_weight m = 10%R ->
  length (latest_blocks m) = 5%nat ->
  head (latest_blocks m) = Some oldest ->
  last (latest_blocks m) = Some newest ->
  let dt := Z.max 1 (timestamp newest - timestamp oldest) in
  calculate_block_difficulty m
  = Ok ((IZR dt / 5)%R,
        Rmax 10 (block_weight m + clamp (log2 64 + log2 5 - log2 (IZR dt)) (- 2) 2)%R).
Proof.
  intros Hn Havg Hmax Hmin Hlen Hhead Hlast dt.
  rewrite (calculate_block_difficulty_general m oldest newest);
    rewrite ?Hn, ?Havg, ?Hmax, ?Hmin, ?Hlen; try reflexivity; try assumption; lra.
Qed.


(** *** Acceptance by [validate_new_tx] *)

Lemma Rltb_true (x y : R) : (x < y)%R -> Rltb x y = true.
Proof. intros Hxy. unfold Rltb. destruct (Rlt_dec x y); [reflexivity|lra]. Qed.

Lemma Rltb_false (x y : R) : (y <= x)%R -> Rltb x y = false.
Proof. intros Hxy. unfold Rltb. destruct (Rlt_dec x y); [lra|reflexivity]. Qed.

Lemma validate_new_tx_known (m : HathorManager S) (tx : BaseTransaction) :
  state m <> Some INITIALIZING ->
  transaction_exists_by_hash_bytes (tx_storage m) (hash tx) = true ->
  validate_new_tx verify m tx = false.
Proof.
  intros Hst Hex. unfold validate_new_tx.
  rewrite (bool_decide_eq_true_2 _ Hst), Hex, orb_true_r. reflexivity.
Qed.

Lemma validate_new_tx_unknown_parent (m : HathorManager S) (tx : BaseTransaction) (p : bytes) :
  p ∈ parents tx ->
  transaction_exists_by_hash_bytes (tx_storage m) p = false ->
  validate_new_tx verify m tx = false.
Proof.
  intros Hin Hp. unfold validate_new_tx.
  destruct (_ && _); [reflexivity|].
  assert (Hall : forallb (transaction_exists_by_hash_bytes (tx_storage m)) (parents tx) = false).
  { apply not_true_is_false. intros Hall. rewrite forallb_forall in Hall.
    apply list_elem_of_In in Hin. specialize (Hall _ Hin). congruence. }
  rewrite Hall. reflexivity.
Qed.

Lemma validate_new_tx_accepted (m : HathorManager S) (tx : BaseTransaction) :
  state m = Some INITIALIZING
  \/ (is_genesis tx = false /\ transaction_exists_by_hash_bytes (tx_storage m) (hash tx) = false) ->
  forallb (transaction_exists_by_hash_bytes (tx_storage m)) (parents tx) = true ->
  verify (tx_storage m) tx = true ->
  (is_block tx = true -> weight_lt (weight tx) (block_weight m) = false) ->
  validate_new_tx verify m tx = true.
Proof.
  intros Hknown Hparents Hverify Hweight. unfold validate_new_tx.
  assert (Hk : bool_decide (state m <> Some INITIALIZING)
               && (is_genesis tx || transaction_exists_by_hash_bytes (tx_storage m) (hash tx))
               = false).
  { destruct Hknown as [Hst|[Hg He]].
    - rewrite bool_decide_eq_false_2; [reflexivity|]. intros Hne. apply Hne, Hst.
    - rewrite Hg, He. apply andb_false_r. }
  rewrite Hk, Hparents, Hverify. cbn [negb].
  destruct (is_block tx); [|reflexivity].
  rewrite Hweight by reflexivity. destruct (negb _); reflexivity.
Qed.

Lemma on_new_tx_discards (m : HathorManager S) (tx : BaseTransaction) (conn : option Conn) :
  validate_new_tx verify m tx = false -> on_new_tx verify m tx conn = Ok m.
Proof. intros Hv. unfold on_new_tx. rewrite Hv. reflexivity. Qed.

(** C3. The code does not reject a block for the sum of its outputs: a
    block that passes every other check of [validate_new_tx] is accepted
    also when the sum differs from [tokens_issued_per_block].  A message is
    printed and [True] is returned, where the weight check next to it
    returns [False]. *)
Theorem validate_new_tx_accepts_wrong_sum (m : HathorManager S) (b : BaseTransaction) :
  is_block b = true ->
  sum_outputs b <> tokens_issued_per_block m ->
  state m = Some INITIALIZING
  \/ (is_genesis b = false /\ transaction_exists_by_hash_bytes (tx_storage m) (hash b) = false) ->
  forallb (transaction_exists_by_hash_bytes (tx_storage m)) (parents b) = true ->
  verify (tx_storage m) b = true ->
  weight_lt (weight b) (block_weight m) = false ->
  validate_new_tx verify m b = true.
Proof.
  intros _ _ Hknown Hparents Hverify Hweight.
  apply validate_new_tx_accepted; auto.
Qed.

(** C4, as amended. Outside the replay of the stored vertices at start-up
    (state [INITIALIZING]), [on_new_tx] discards a vertex whose hash is in
    the storage: [validate_new_tx] returns [False] and the manager, its
    storage included, is left as it was. *)
Theorem on_new_tx_known_is_discarded
    (m : HathorManager S) (tx : BaseTransaction) (conn : option Conn) :
  state m <> Some INITIALIZING ->
  transaction_exists_by_hash_bytes (tx_storage m) (hash tx) = true ->
  validate_new_tx verify m tx = false /\ on_new_tx verify m tx conn = Ok m.
Proof.
  intros Hst Hex.
  pose proof (validate_new_tx_known m tx Hst Hex) as Hv.
  split; [exact Hv|]. apply on_new_tx_discards, Hv.
Qed.

(** C5. A vertex with a parent hash that is not in the storage is
    rejected: [validate_new_tx] returns [False], and [on_new_tx] returns
    with the manager, its storage included, left as it was. *)
Theorem on_new_tx_unknown_parent_rejected
    (m : HathorManager S) (tx : BaseTransaction) (p : bytes) (conn : option Conn) :
  p ∈ parents tx ->
  transaction_exists_by_hash_bytes (tx_storage m) p = false ->
  validate_new_tx verify m tx = false /\ on_new_tx verify m tx conn = Ok m.
Proof.
  intros Hin Hp.
  pose proof (validate_new_tx_unknown_parent m tx p Hin Hp) as Hv.
  split; [exact Hv|]. apply on_new_tx_discards, Hv.
Qed.



(** *** Propagation *)

Lemma sent_app (es es' : list Event) : sent (es ++ es') = sent es ++ sent es'.
Proof. unfold sent. apply omap_app. Qed.

(** [on_new_tx] keeps the node state and the connections, and calls no
    peer connection. *)
Lemma on_new_tx_frame (m m' : HathorManager S) (tx : BaseTransaction) (conn : option Conn) :
  on_new_tx verify m tx conn = Ok m' ->
  state m' = state m /\ connected_peers m' = connected_peers m
  /\ sent (events m') = sent (events m).
Proof.
  unfold on_new_tx. destruct (negb (validate_new_tx verify m tx)).
  { intros [= <-]. auto. }
  set (m1 := if wallet m then emit (WalletOnNewTx tx) m else m).
  assert (H1 : state m1 = state m /\ connected_peers m1 = connected_peers m
                /\ sent (events m1) = sent (events m)).
  { subst m1. destruct (wallet m); cbn; rewrite ?sent_app, ?app_nil_r; auto. }
  set (m2 := if bool_decide (state m1 = Some INITIALIZING) then _ else _).
  assert (H2 : state m2 = state m /\ connected_peers m2 = connected_peers m
                /\ sent (events m2) = sent (events m)).
  { subst m2. destruct (bool_decide _); cbn; rewrite ?sent_app, ?app_nil_r; auto. }
  clearbody m2. clear m1 H1.
  destruct (is_block tx); [|intros [= <-]; exact H2].
  destruct (popleft_while_longer _ _) as [blocks|]; [|discriminate].
  cbn [mbind result_bind].
  destruct (_ =? 0); [discriminate|].
  destruct (_ =? 0); [|intros [= <-]; exact H2].
  destruct (calculate_block_difficulty _) as [[avg_dt new_weight]|]; [|discriminate].
  cbn [mbind result_bind]. intros [= <-]. exact H2.
Qed.



(** *** Parents of a new vertex *)

Lemma random_choice_elem {A : Type} (rnd : nat) (seq : list A) :
  seq <> [] -> exists x, random_choice rnd seq = Ok x /\ x ∈ seq.
Proof.
  intros Hne. unfold random_choice.
  assert (Hlt : (rnd mod length seq < length seq)%nat).
  { apply Nat.mod_upper_bound. destruct seq; [congruence|]. cbn. lia. }
  destruct (lookup_lt_is_Some_2 _ _ Hlt) as [x Hx].
  rewrite Hx. exists x. split; [reflexivity|].
  apply list_elem_of_lookup. eauto.
Qed.


(** *** Peers *)

(** A dial that returns has parsed the description, recorded the dial and
    added the endpoint to the pending connections; a dial that raises has
    not parsed it. *)
Lemma connect_to_spec (description : string) (m : HathorManager S) :
  match connect_to description m with
  | Ok m' =>
      clientFromString description = Ok tt
      /\ m' = set_connecting_peers (connecting_peers m ++ [description])
                (emit (ConnectTo description) m)
  | Raise e => clientFromString description = Raise e
  end.
Proof.
  unfold connect_to. destruct (clientFromString description) as [[]|e]; cbn; auto.
Qed.

Lemma connect_to_if_not_connected_keeps
    (rnd : nat) (peer : PeerId) (m m' : HathorManager S) :
  connect_to_if_not_connected rnd peer m = Ok m' ->
  peer_storage m' = peer_storage m.
Proof.
  unfold connect_to_if_not_connected. intros Hc.
  destruct (entrypoints peer) as [|e es]; [congruence|].
  destruct (bool_decide _); [|congruence].
  destruct (random_choice rnd (e :: es)) as [x|]; [|discriminate]. cbn in Hc.
  pose proof (connect_to_spec x m) as Hx. rewrite Hc in Hx.
  destruct Hx as [_ ->]. reflexivity.
Qed.

(** C10. [update_peer] with a record that carries the node's own id
    returns with the manager left as it was: nothing is added to the peer
    storage and no connection is attempted.  With any other id the call
    leaves the record added to or merged into the peer storage, whether the
    dial that follows the merge returns or raises. *)
Theorem update_peer_own_id_is_noop (rnd : nat) (peer : PeerId) (m : HathorManager S) :
  (id peer = id (my_peer m) -> update_peer rnd peer m = (m, Ok tt))
  /\ (id peer <> id (my_peer m) ->
      peer_storage (update_peer rnd peer m).1 = add_or_merge (peer_storage m) peer).
Proof.
  unfold update_peer. split; intros Hid.
  - rewrite bool_decide_eq_true_2 by exact Hid. reflexivity.
  - rewrite bool_decide_eq_false_2 by exact Hid.
    destruct (connect_to_if_not_connected rnd peer _) as [m'|e] eqn:Hc; [|reflexivity].
    cbn [fst]. rewrite (connect_to_if_not_connected_keeps _ _ _ _ Hc). reflexivity.
Qed.

(** [add_or_merge] leaves the ids of the known records in their order, a
    new id last, and the record of the id is known afterwards. *)
Lemma add_or_merge_ids (ps : PeerStorage) (peer : PeerId) :
  id <$> add_or_merge ps peer
  = if decide (id peer ∈ id <$> ps) then id <$> ps else (id <$> ps) ++ [id peer].
Proof.
  induction ps as [|known ps IH]; cbn [add_or_merge].
  - rewrite decide_False; [reflexivity|]. cbn. apply not_elem_of_nil.
  - cbn [fmap list_fmap]. destruct (decide (id known = id peer)) as [Heq|Hne].
    + rewrite decide_True by (rewrite Heq; apply list_elem_of_here). reflexivity.
    + cbn [fmap list_fmap]. fold (@fmap list _ _ _ id (add_or_merge ps peer)).
      rewrite IH. destruct (decide (id peer ∈ id <$> ps)) as [Hin|Hnin].
      * rewrite decide_True by (apply list_elem_of_further, Hin). reflexivity.
      * rewrite decide_False; [reflexivity|].
        intros Hin. apply elem_of_cons in Hin as [Heq|Hin]; [congruence|contradiction].
Qed.

Lemma add_or_merge_known (ps : PeerStorage) (peer : PeerId) :
  id peer ∈ id <$> add_or_merge ps peer.
Proof.
  rewrite add_or_merge_ids. destruct (decide (id peer ∈ id <$> ps)) as [Hin|_]; [exact Hin|].
  apply elem_of_app. right. apply list_elem_of_here.
Qed.

End WithStorage.

(** *** Parents of a new vertex on the storage of a node *)


Lemma memory_exists_spec (s : TransactionMemoryStorage) (h : bytes) :
  memory_exists s h = true
  <-> exists i v, s !! i = Some v /\ hash (vertex v) = h.
Proof.
  unfold memory_exists. rewrite existsb_exists. split.
  - intros (v & Hin & Hv). apply list_elem_of_In, list_elem_of_lookup in Hin as [i Hi].
    exists i, v. split; [exact Hi|]. apply bool_decide_eq_true in Hv. exact Hv.
  - intros (i & v & Hi & Hv). exists v. split.
    + apply list_elem_of_In, list_elem_of_lookup. eauto.
    + apply bool_decide_eq_true. exact Hv.
Qed.


Lemma storage_consistent_save (s : TransactionMemoryStorage) (tx : BaseTransaction) :
  storage_consistent s ->
  forallb (memory_exists s) (parents tx) = true ->
  storage_consistent (memory_save s tx).
Proof.
  intros [Hnd Hpar Hgen] Hparents. unfold memory_save.
  destruct (memory_exists s (hash tx)) eqn:Hex; [split; assumption|].
  split.
  - rewrite fmap_app. apply NoDup_app. split; [exact Hnd|]. split.
    + intros h Hh Hin. cbn in Hin. apply list_elem_of_singleton in Hin. subst h.
      apply list_elem_of_fmap in Hh as (v & Hv & Hin).
      apply list_elem_of_lookup in Hin as [i Hi].
      assert (Htrue : memory_exists s (hash tx) = true).
      { apply memory_exists_spec. exists i, v. split; [exact Hi|]. symmetry. exact Hv. }
      congruence.
    + cbn. apply NoDup_singleton.
  - intros i v p Hi Hp.
    destruct (decide (i < length s)%nat) as [Hlt|Hge].
    + rewrite lookup_app_l in Hi by exact Hlt.
      destruct (Hpar i v p Hi Hp) as (j & u & Hj & Hu & Hh).
      exists j, u. split; [exact Hj|]. split; [|exact Hh].
      rewrite lookup_app_l by lia. exact Hu.
    + rewrite lookup_app_r in Hi by lia.
      destruct (i - length s)%nat as [|k] eqn:Hk; cbn in Hi; [|discriminate Hi].
      injection Hi as <-. cbn in Hp.
      rewrite forallb_forall in Hparents.
      apply list_elem_of_In in Hp. specialize (Hparents p Hp).
      apply memory_exists_spec in Hparents as (j & u & Hu & Hh).
      exists j, u. split; [apply lookup_lt_Some in Hu; lia|]. split; [|exact Hh].
      rewrite lookup_app_l by (apply lookup_lt_Some in Hu; exact Hu). exact Hu.
  - intros h Hh. destruct (Hgen h Hh) as (v & Hv & Hrest).
    exists v. split; [|exact Hrest]. apply elem_of_app. left. exact Hv.
Qed.






(** *** Mining on the genesis *)

(** The block [generate_mining_block] returns on the genesis. *)
Lemma generate_mining_block_genesis_block
    (GENESIS_TOKENS : Z) (MIN_BLOCK_WEIGHT MIN_TX_WEIGHT : R) (ref : StorageRef)
    (m : HathorManager TransactionMemoryStorage) (address : bytes) (rnd : nat) :
  tx_storage m = memory_storage_new GENESIS_TOKENS MIN_BLOCK_WEIGHT MIN_TX_WEIGHT ref ->
  generate_mining_block address rnd m
  = Ok {| mb_weight := block_weight m;
          mb_outputs := [ {| value := tokens_issued_per_block m; script := address |} ];
          mb_parents := [BLOCK_GENESIS_HASH; TX_GENESIS1_HASH; TX_GENESIS2_HASH];
          mb_storage := tx_storage_ref m;
          mb_height := 2 |}.
Proof.
  intros Hs. unfold generate_mining_block, get_new_tx_parents. rewrite Hs. reflexivity.
Qed.

(** C2, as amended. On a node whose storage holds the three genesis
    vertices only, [generate_mining_block] returns a block with three
    parents, the genesis block followed by the two genesis transactions,
    and with height 2. *)
Theorem generate_mining_block_on_genesis
    (GENESIS_TOKENS : Z) (MIN_BLOCK_WEIGHT MIN_TX_WEIGHT : R) (ref : StorageRef)
    (m : HathorManager TransactionMemoryStorage) (address : bytes) (rnd : nat) :
  tx_storage m = memory_storage_new GENESIS_TOKENS MIN_BLOCK_WEIGHT MIN_TX_WEIGHT ref ->
  exists blk,
    generate_mining_block address rnd m = Ok blk
    /\ mb_parents blk = [BLOCK_GENESIS_HASH; TX_GENESIS1_HASH; TX_GENESIS2_HASH]
    /\ length (mb_parents blk) = 3%nat
    /\ mb_height blk = 2.
Proof.
  intros Hs. eexists. split.
  - apply (generate_mining_block_genesis_block _ _ _ _ _ _ _ Hs).
  - repeat split.
Qed.

End ManagerFacts.

(** ** On the sample nodes *)

Module ExampleFacts.

Import Manager Examples ManagerFacts.

Lemma calculate_block_difficulty_retarget_witness :
  calculate_block_difficulty retarget_manager
  = Ok ((128 / 5)%R, Rmax 10 (10 + clamp (log2 64 + log2 5 - log2 128) (- 2) 2)%R).
Proof.
  apply (calculate_block_difficulty_retarget retarget_manager (spaced_block 0) (spaced_block 4));
    reflexivity.
Defined.

(** C2 as stated fails: the block mined on the genesis does not have two
    parents. *)
Lemma generate_mining_block_fresh_not_two_parents :
  ~ exists blk,
      generate_mining_block GENESIS_ADDRESS 0 fresh_manager = Ok blk
      /\ length (mb_parents blk) = 2%nat /\ mb_height blk = 2.
Proof.
  intros (blk & Hgen & Hlen & _).
  rewrite (generate_mining_block_genesis_block 200000000000 14 14 0%nat) in Hgen
    by reflexivity.
  injection Hgen as <-. discriminate Hlen.
Qed.

Lemma generate_mining_block_on_genesis_witness :
  exists blk,
    generate_mining_block GENESIS_ADDRESS 0 fresh_manager = Ok blk
    /\ mb_parents blk = [BLOCK_GENESIS_HASH; TX_GENESIS1_HASH; TX_GENESIS2_HASH]
    /\ length (mb_parents blk) = 3%nat
    /\ mb_height blk = 2.
Proof.
  apply (generate_mining_block_on_genesis 200000000000 14 14 0%nat fresh_manager).
  reflexivity.
Defined.

Lemma wrong_sum_block_validated :
  validate_new_tx verify_passes started_manager wrong_sum_block = true.
Proof.
  apply validate_new_tx_accepted.
  - right. split; reflexivity.
  - reflexivity.
  - reflexivity.
  - intros _. apply weight_lt_Num_false. cbn. lra.
Qed.

(** C3 fails on the started node: the block that issues 9999 tokens where
    10000 are due is accepted. *)
Lemma validate_new_tx_accepts_wrong_sum_witness :
  sum_outputs wrong_sum_block = 9999
  /\ tokens_issued_per_block started_manager = 10000
  /\ validate_new_tx verify_passes started_manager wrong_sum_block = true.
Proof.
  split; [reflexivity|]. split; [reflexivity|].
  apply (validate_new_tx_accepts_wrong_sum verify_passes started_manager wrong_sum_block).
  - reflexivity.
  - cbv. discriminate.
  - right. split; reflexivity.
  - reflexivity.
  - reflexivity.
  - apply weight_lt_Num_false. cbn. lra.
Defined.

(** ... and [on_new_tx] stores it. *)
Lemma on_new_tx_stores_wrong_sum_block :
  exists m',
    on_new_tx verify_passes started_manager wrong_sum_block None = Ok m'
    /\ transaction_exists_by_hash_bytes (tx_storage started_manager) (hash wrong_sum_block) = false
    /\ transaction_exists_by_hash_bytes (tx_storage m') (hash wrong_sum_block) = true
    /\ latest_blocks m' = [wrong_sum_block].
Proof.
  unfold on_new_tx. rewrite wrong_sum_block_validated.
  eexists. split; [reflexivity|]. repeat split.
Qed.

(** C4 as stated fails: while the node replays its storage the genesis
    block, which the storage holds, is not discarded: it is validated and goes through the rest of
    [on_new_tx]. *)
Lemma on_new_tx_replay_not_discarded :
  transaction_exists_by_hash_bytes (tx_storage replaying_manager) (hash genesis_block) = true
  /\ validate_new_tx verify_passes replaying_manager genesis_block = true
  /\ exists m',
       on_new_tx verify_passes replaying_manager genesis_block None = Ok m'
       /\ latest_blocks replaying_manager = []
       /\ latest_blocks m' = [genesis_block]
       /\ events m' = [WalletOnNewTx genesis_block].
Proof.
  assert (Hv : validate_new_tx verify_passes replaying_manager genesis_block = true).
  { apply validate_new_tx_accepted.
    - left. reflexivity.
    - reflexivity.
    - reflexivity.
    - intros _. apply weight_lt_Num_false. cbn. lra. }
  split; [reflexivity|]. split; [exact Hv|].
  unfold on_new_tx. rewrite Hv.
  eexists. split; [reflexivity|]. repeat split.
Qed.

Lemma on_new_tx_known_is_discarded_witness :
  validate_new_tx verify_passes started_manager genesis_block = false
  /\ on_new_tx verify_passes started_manager genesis_block None = Ok started_manager.
Proof.
  apply (on_new_tx_known_is_discarded verify_passes started_manager genesis_block None).
  - cbn. discriminate.
  - reflexivity.
Defined.

Lemma on_new_tx_unknown_parent_rejected_witness :
  validate_new_tx verify_passes started_manager orphan_tx = false
  /\ on_new_tx verify_passes started_manager orphan_tx None = Ok started_manager.
Proof.
  apply (on_new_tx_unknown_parent_rejected verify_passes started_manager orphan_tx
           (sample_hash xee) None).
  - right. left.
  - reflexivity.
Defined.







Lemma update_peer_own_id_is_noop_witness :
  update_peer 3 node_peer started_manager = (started_manager, Ok tt).
Proof.
  apply (proj1 (update_peer_own_id_is_noop 3 node_peer started_manager)). reflexivity.
Defined.

(** The record of another peer is known afterwards, also when its
    entrypoint does not parse and the dial raises. *)
Lemma update_peer_other_id :
  update_peer 3 other_peer started_manager
  = (emit (ConnectTo "tcp:10.0.0.2:40403")
       (set_connecting_peers ["tcp:10.0.0.2:40403"]
          (set_peer_storage [other_peer] started_manager)), Ok tt)
  /\ update_peer 3 unreachable_peer started_manager
     = (set_peer_storage [unreachable_peer] started_manager, Raise ValueError).
Proof. split; reflexivity. Qed.

End ExampleFacts.

(** ** More on the manager *)

Module NodeFacts.

Import Manager Node ManagerFacts.

Section WithStorage.

Context {S : Type} `{TransactionStorage S} `{Endpoints}.
Variable verify : S -> BaseTransaction -> bool.

(** *** What [validate_new_tx] accepts *)

(** X1. [validate_new_tx] accepts a vertex exactly when: the node is
    replaying its storage, or the vertex is neither a genesis vertex nor
    in the storage; all its parents are in the storage; [tx.verify()]
    passes; and, for a block, the weight is not below [block_weight]: it
    is a number that reaches the target, or it is [nan].  The sum of the
    outputs plays no part. *)
Theorem validate_new_tx_true_iff (m : HathorManager S) (tx : BaseTransaction) :
  validate_new_tx verify m tx = true
  <-> (state m = Some INITIALIZING
       \/ (is_genesis tx = false
           /\ transaction_exists_by_hash_bytes (tx_storage m) (hash tx) = false))
      /\ forallb (transaction_exists_by_hash_bytes (tx_storage m)) (parents tx) = true
      /\ verify (tx_storage m) tx = true
      /\ (is_block tx = true ->
          weight tx = Nan \/ exists w, weight tx = Num w /\ (block_weight m <= w)%R).
Proof.
  split.
  - unfold validate_new_tx. intros Hv.
    destruct (bool_decide (state m <> Some INITIALIZING)) eqn:Hst; cbn [andb] in Hv.
    + destruct (is_genesis tx) eqn:Hg; cbn [orb] in Hv; [discriminate|].
      destruct (transaction_exists_by_hash_bytes (tx_storage m) (hash tx)) eqn:He;
        [discriminate|].
      destruct (forallb _ _) eqn:Hp; cbn [negb] in Hv; [|discriminate].
      destruct (verify _ _) eqn:Hver; cbn [negb] in Hv; [|discriminate].
      repeat split; auto. intros Hb. rewrite Hb in Hv. apply weight_lt_false.
      destruct (weight_lt (weight tx) (block_weight m)); [discriminate|reflexivity].
    + apply bool_decide_eq_false in Hst.
      destruct (forallb _ _) eqn:Hp; cbn [negb] in Hv; [|discriminate].
      destruct (verify _ _) eqn:Hver; cbn [negb] in Hv; [|discriminate].
      split; [|repeat split; auto].
      * left. destruct (decide (state m = Some INITIALIZING)); [assumption|contradiction].
      * intros Hb. rewrite Hb in Hv. apply weight_lt_false.
        destruct (weight_lt (weight tx) (block_weight m)); [discriminate|reflexivity].
  - intros (Hk & Hp & Hver & Hw). apply validate_new_tx_accepted; try assumption.
    intros Hb. apply weight_lt_false, Hw, Hb.
Qed.

(** *** The steps of [on_new_tx] *)

Lemma on_new_tx_cases (m m' : HathorManager S) (tx : BaseTransaction) (conn : option Conn) :
  on_new_tx verify m tx conn = Ok m' ->
  (validate_new_tx verify m tx = false /\ m' = m)
  \/ (validate_new_tx verify m tx = true /\ is_block tx = false /\ m' = integrate m tx conn)
  \/ (validate_new_tx verify m tx = true /\ is_block tx = true
      /\ blocks_per_difficulty m <> 0
      /\ exists blocks,
           popleft_while_longer (blocks_per_difficulty m) (latest_blocks m ++ [tx]) = Ok blocks
           /\ let m2 := set_latest_blocks blocks (integrate m tx conn) in
              (get_block_count (tx_storage m2) `mod` blocks_per_difficulty m <> 0 /\ m' = m2
               \/ (get_block_count (tx_storage m2) `mod` blocks_per_difficulty m = 0
                   /\ exists avg_dt new_weight,
                        calculate_block_difficulty m2 = Ok (avg_dt, new_weight)
                        /\ m' = set_block_weight new_weight m2))).
Proof.
  unfold on_new_tx. fold (integrate m tx conn).
  destruct (validate_new_tx verify m tx); cbn [negb]; [|intros [= <-]; auto].
  assert (Hcfg : blocks_per_difficulty (integrate m tx conn) = blocks_per_difficulty m
                 /\ latest_blocks (integrate m tx conn) = latest_blocks m).
  { unfold integrate. destruct (wallet m); destruct (bool_decide _); auto. }
  destruct Hcfg as [Hbpd Hlb]. rewrite Hbpd, Hlb.
  destruct (is_block tx); [|intros [= <-]; auto].
  destruct (popleft_while_longer _ _) as [blocks|] eqn:Hpop; [|discriminate].
  cbn [mbind result_bind]. cbn [blocks_per_difficulty set_latest_blocks]. rewrite Hbpd.
  destruct (Z.eqb_spec (blocks_per_difficulty m) 0) as [|Hne]; [discriminate|].
  intros Hres. right. right. repeat split; auto. exists blocks. split; [reflexivity|].
  cbn zeta.
  destruct (Z.eqb_spec (get_block_count (tx_storage (set_latest_blocks blocks (integrate m tx conn)))
                          `mod` blocks_per_difficulty m) 0) as [Hz|Hnz].
  - right. split; [exact Hz|].
    destruct (calculate_block_difficulty _) as [[avg_dt new_weight]|]; [|discriminate].
    cbn [mbind result_bind] in Hres. injection Hres as <-. eauto.
  - left. injection Hres as <-. auto.
Qed.

Lemma integrate_frame (m : HathorManager S) (tx : BaseTransaction) (conn : option Conn) :
  let m2 := integrate m tx conn in
  state m2 = state m /\ peer_storage m2 = peer_storage m
  /\ tx_storage_ref m2 = tx_storage_ref m /\ wallet m2 = wallet m /\ my_peer m2 = my_peer m
  /\ blocks_per_difficulty m2 = blocks_per_difficulty m
  /\ latest_blocks m2 = latest_blocks m
  /\ avg_time_between_blocks m2 = avg_time_between_blocks m
  /\ min_block_weight m2 = min_block_weight m /\ block_weight m2 = block_weight m
  /\ max_allowed_block_weight_change m2 = max_allowed_block_weight_change m
  /\ tokens_issued_per_block m2 = tokens_issued_per_block m
  /\ connecting_peers m2 = connecting_peers m /\ connected_peers m2 = connected_peers m.
Proof.
  unfold integrate.
  destruct (wallet m) eqn:Hw; destruct (bool_decide _); cbn; rewrite ?Hw; repeat split.
Qed.

Lemma integrate_storage (m : HathorManager S) (tx : BaseTransaction) (conn : option Conn) :
  tx_storage (integrate m tx conn)
  = if bool_decide (state m = Some INITIALIZING)
    then _add_to_cache (tx_storage m) tx
    else save_transaction (tx_storage m) tx.
Proof.
  unfold integrate. destruct (wallet m); cbn [emit state]; destruct (bool_decide _); reflexivity.
Qed.

(** The storage after [on_new_tx]. *)
Lemma on_new_tx_storage (m m' : HathorManager S) (tx : BaseTransaction) (conn : option Conn) :
  on_new_tx verify m tx conn = Ok m' ->
  tx_storage m'
  = if validate_new_tx verify m tx
    then if bool_decide (state m = Some INITIALIZING)
         then _add_to_cache (tx_storage m) tx
         else save_transaction (tx_storage m) tx
    else tx_storage m.
Proof.
  intros Hon. destruct (on_new_tx_cases _ _ _ _ Hon)
    as [[Hv ->]|[(Hv & _ & ->)|(Hv & _ & _ & blocks & _ & Hcase)]]; rewrite Hv.
  - reflexivity.
  - apply integrate_storage.
  - cbn zeta in Hcase. destruct Hcase as [[_ ->]|(_ & avg_dt & w & _ & ->)];
      cbn [tx_storage set_block_weight set_latest_blocks]; apply integrate_storage.
Qed.

(** X2. Outside the replay at start-up, and on a storage that holds what
    was saved into it, applying [on_new_tx] a second time to the same
    vertex changes nothing: whatever the first application did, the second
    one is discarded. *)
Theorem on_new_tx_twice (m m' : HathorManager S) (tx : BaseTransaction) (conn conn' : option Conn) :
  (forall s v, transaction_exists_by_hash_bytes (save_transaction s v) (hash v) = true) ->
  state m <> Some INITIALIZING ->
  on_new_tx verify m tx conn = Ok m' ->
  on_new_tx verify m' tx conn' = Ok m'.
Proof.
  intros Hlaw Hst Hon.
  pose proof (on_new_tx_storage _ _ _ _ Hon) as Hs.
  destruct (on_new_tx_frame verify _ _ _ _ Hon) as (Hst' & _).
  destruct (validate_new_tx verify m tx) eqn:Hv.
  - rewrite bool_decide_eq_false_2 in Hs by exact Hst.
    apply on_new_tx_discards. apply validate_new_tx_known.
    + rewrite Hst'. exact Hst.
    + rewrite Hs. apply Hlaw.
  - destruct (on_new_tx_cases _ _ _ _ Hon)
      as [[_ ->]|[(Hv' & _)|(Hv' & _)]]; try congruence.
    apply on_new_tx_discards, Hv.
Qed.

(** *** The window of latest blocks *)

Lemma popleft_while_longer_drop (n : Z) (blocks : list BaseTransaction) :
  0 <= n ->
  popleft_while_longer n blocks = Ok (drop (length blocks - Z.to_nat n) blocks).
Proof.
  intros Hn. induction blocks as [|b blocks IH].
  - cbn. destruct (Z.gtb_spec 0 n); [lia|reflexivity].
  - cbn [popleft_while_longer].
    destruct (Z.gtb_spec (Z.of_nat (length (b :: blocks))) n) as [Hgt|Hle].
    + rewrite IH. cbn [length] in *.
      replace (Datatypes.S (length blocks) - Z.to_nat n)%nat
        with (Datatypes.S (length blocks - Z.to_nat n)) by lia.
      reflexivity.
    + cbn [length] in *.
      replace (Datatypes.S (length blocks) - Z.to_nat n)%nat with 0%nat by lia. reflexivity.
Qed.

(** X3. After [on_new_tx], [latest_blocks] is what it was, unless a block
    was accepted: then it is the old window with the block at its end,
    cut at the front to the [blocks_per_difficulty] newest blocks.  A
    window within that length stays within it. *)
Theorem on_new_tx_latest_blocks
    (m m' : HathorManager S) (tx : BaseTransaction) (conn : option Conn) :
  0 <= blocks_per_difficulty m ->
  on_new_tx verify m tx conn = Ok m' ->
  latest_blocks m'
  = (if validate_new_tx verify m tx && is_block tx
     then drop (length (latest_blocks m) + 1 - Z.to_nat (blocks_per_difficulty m))
            (latest_blocks m ++ [tx])
     else latest_blocks m)
  /\ (Z.of_nat (length (latest_blocks m)) <= blocks_per_difficulty m ->
      Z.of_nat (length (latest_blocks m')) <= blocks_per_difficulty m).
Proof.
  intros Hn Hon.
  assert (Hlb : latest_blocks (integrate m tx conn) = latest_blocks m)
    by apply integrate_frame.
  assert (Heq : latest_blocks m'
                = (if validate_new_tx verify m tx && is_block tx
                   then drop (length (latest_blocks m) + 1 - Z.to_nat (blocks_per_difficulty m))
                          (latest_blocks m ++ [tx])
                   else latest_blocks m)).
  { destruct (on_new_tx_cases _ _ _ _ Hon)
      as [[Hv ->]|[(Hv & Hb & ->)|(Hv & Hb & _ & blocks & Hpop & Hcase)]]; rewrite Hv.
    - reflexivity.
    - rewrite Hb. exact Hlb.
    - rewrite Hb. cbn [andb]. rewrite popleft_while_longer_drop in Hpop by exact Hn.
      injection Hpop as <-.
      cbn zeta in Hcase. destruct Hcase as [[_ ->]|(_ & avg_dt & w & _ & ->)];
        cbn [latest_blocks set_block_weight set_latest_blocks];
        rewrite length_app; reflexivity. }
  split; [exact Heq|]. intros Hlen. rewrite Heq.
  destruct (validate_new_tx verify m tx && is_block tx); [|exact Hlen].
  rewrite length_drop, length_app. cbn [length]. lia.
Qed.

Lemma on_new_tx_keeps (m m' : HathorManager S) (tx : BaseTransaction) (conn : option Conn) :
  on_new_tx verify m tx conn = Ok m' ->
  state m' = state m /\ peer_storage m' = peer_storage m /\ my_peer m' = my_peer m
  /\ tx_storage_ref m' = tx_storage_ref m /\ wallet m' = wallet m
  /\ blocks_per_difficulty m' = blocks_per_difficulty m
  /\ avg_time_between_blocks m' = avg_time_between_blocks m
  /\ min_block_weight m' = min_block_weight m
  /\ max_allowed_block_weight_change m' = max_allowed_block_weight_change m
  /\ tokens_issued_per_block m' = tokens_issued_per_block m
  /\ connecting_peers m' = connecting_peers m /\ connected_peers m' = connected_peers m.
Proof.
  intros Hon.
  pose proof (integrate_frame m tx conn) as Hf. cbn zeta in Hf.
  destruct Hf as (F1 & F2 & F3 & F4 & F5 & F6 & F7 & F8 & F9 & F10 & F11 & F12 & F13 & F14).
  destruct (on_new_tx_cases _ _ _ _ Hon)
    as [[Hv ->]|[(Hv & Hb & ->)|(Hv & Hb & _ & blocks & Hpop & Hcase)]].
  - repeat split.
  - repeat split; assumption.
  - cbn zeta in Hcase. destruct Hcase as [[_ ->]|(Hz & avg_dt & w & _ & ->)];
      repeat split; assumption.
Qed.

(** X4. [on_new_tx] leaves the configuration of the node, its peers and
    its connections as they are; the target weight [block_weight] changes
    only when a block is accepted and the block count then is a multiple
    of [blocks_per_difficulty]. *)
Theorem on_new_tx_changes_weight_only_on_retarget
    (m m' : HathorManager S) (tx : BaseTransaction) (conn : option Conn) :
  on_new_tx verify m tx conn = Ok m' ->
  (state m' = state m /\ peer_storage m' = peer_storage m /\ my_peer m' = my_peer m
   /\ tx_storage_ref m' = tx_storage_ref m /\ wallet m' = wallet m
   /\ blocks_per_difficulty m' = blocks_per_difficulty m
   /\ avg_time_between_blocks m' = avg_time_between_blocks m
   /\ min_block_weight m' = min_block_weight m
   /\ max_allowed_block_weight_change m' = max_allowed_block_weight_change m
   /\ tokens_issued_per_block m' = tokens_issued_per_block m
   /\ connecting_peers m' = connecting_peers m /\ connected_peers m' = connected_peers m)
  /\ (block_weight m' <> block_weight m ->
      validate_new_tx verify m tx = true /\ is_block tx = true
      /\ get_block_count (tx_storage m') `mod` blocks_per_difficulty m = 0).
Proof.
  intros Hon. split; [exact (on_new_tx_keeps _ _ _ _ Hon)|].
  pose proof (integrate_frame m tx conn) as Hf. cbn zeta in Hf.
  destruct Hf as (F1 & F2 & F3 & F4 & F5 & F6 & F7 & F8 & F9 & F10 & F11 & F12 & F13 & F14).
  destruct (on_new_tx_cases _ _ _ _ Hon)
    as [[Hv ->]|[(Hv & Hb & ->)|(Hv & Hb & _ & blocks & Hpop & Hcase)]].
  - intros Hne. congruence.
  - intros Hne. congruence.
  - cbn zeta in Hcase. destruct Hcase as [[_ ->]|(Hz & avg_dt & w & _ & ->)].
    + cbn. intros Hne. congruence.
    + intros _. repeat split; assumption.
Qed.

(** *** The retarget *)

Lemma math_log_inv (x base y : R) : math_log x base = Ok y -> (0 < x)%R.
Proof.
  unfold math_log. destruct (Rle_dec x 0); [discriminate|]. intros _. lra.
Qed.

Lemma calculate_block_difficulty_inv (m : HathorManager S) (r : R * R) :
  calculate_block_difficulty m = Ok r ->
  Z.of_nat (length (latest_blocks m)) = blocks_per_difficulty m
  /\ (0 < avg_time_between_blocks m)%R
  /\ exists oldest newest,
       head (latest_blocks m) = Some oldest /\ last (latest_blocks m) = Some newest.
Proof.
  unfold calculate_block_difficulty.
  destruct (Z.eqb_spec (Z.of_nat (length (latest_blocks m))) (blocks_per_difficulty m))
    as [Hlen|]; [|discriminate]. cbn [negb].
  destruct (last (latest_blocks m)) as [newest|]; [|discriminate].
  destruct (head (latest_blocks m)) as [oldest|]; [|discriminate].
  destruct (math_log (avg_time_between_blocks m) 2) as [l1|] eqn:H1; [|discriminate].
  intros _. split; [exact Hlen|]. split; [eapply math_log_inv, H1|]. eauto.
Qed.

Lemma clamp_bounds (x c : R) : (0 <= c)%R -> (- c <= clamp x (- c) c <= c)%R.
Proof.
  intros Hc. unfold clamp, Rmax, Rmin.
  destruct (Rle_dec x c); destruct (Rle_dec (- c) _); lra.
Qed.

(** X5. When [calculate_block_difficulty] returns, the new weight is at
    least [min_block_weight], at most [max_allowed_block_weight_change]
    below the current weight, and at most that much above it unless the
    minimum is higher; the average interval it reports is positive. *)
Theorem calculate_block_difficulty_bounds (m : HathorManager S) (avg_dt new_weight : R) :
  (0 <= max_allowed_block_weight_change m)%R ->
  calculate_block_difficulty m = Ok (avg_dt, new_weight) ->
  (min_block_weight m <= new_weight)%R
  /\ (block_weight m - max_allowed_block_weight_change m <= new_weight)%R
  /\ (new_weight
      <= Rmax (min_block_weight m) (block_weight m + max_allowed_block_weight_change m))%R
  /\ (0 < avg_dt)%R.
Proof.
  intros Hc Hcalc.
  destruct (calculate_block_difficulty_inv _ _ Hcalc)
    as (Hlen & Havg & oldest & newest & Hhead & Hlast).
  rewrite (calculate_block_difficulty_general m oldest newest Hlen Hhead Hlast Havg Hc) in Hcalc.
  injection Hcalc as <- <-.
  set (x := (log2 _ + log2 _ - log2 _)%R).
  pose proof (clamp_bounds x _ Hc) as [Hlo Hhi].
  assert (Hpos : 0 < blocks_per_difficulty m).
  { destruct (latest_blocks m); [discriminate|]. cbn in Hlen. lia. }
  repeat split.
  - apply Rmax_l.
  - eapply Rle_trans; [|apply Rmax_r]. lra.
  - apply Rmax_lub; [apply Rmax_l|]. eapply Rle_trans; [|apply Rmax_r]. lra.
  - apply Rdiv_lt_0_compat; apply IZR_lt; lia.
Qed.

Lemma log2_sum_sign (a b d : R) :
  (0 < a)%R -> (0 < b)%R -> (0 < d)%R ->
  (d < a * b -> 0 < log2 a + log2 b - log2 d)%R
  /\ (a * b < d -> log2 a + log2 b - log2 d < 0)%R.
Proof.
  intros Ha Hb Hd.
  assert (Hln2 : (0 < ln 2)%R).
  { rewrite <- ln_1. apply ln_increasing; lra. }
  assert (Heq : (log2 a + log2 b - log2 d = (ln (a * b) - ln d) / ln 2)%R).
  { unfold log2. rewrite ln_mult by assumption. field. lra. }
  assert (Hab : (0 < a * b)%R) by (apply Rmult_lt_0_compat; assumption).
  rewrite Heq. repeat split.
  - intros Hlt. apply Rdiv_lt_0_compat; [|exact Hln2].
    pose proof (ln_increasing _ _ Hd Hlt). lra.
  - intros Hlt. pose proof (ln_increasing _ _ Hab Hlt) as Hln.
    apply Rmult_lt_reg_r with (r := ln 2); [exact Hln2|].
    unfold Rdiv. rewrite Rmult_assoc, Rinv_l by lra. lra.
Qed.

(** X6. The retarget follows the pace of the blocks.  With the window
    [dt = max(1, newest.timestamp - oldest.timestamp)] and the pace aimed
    at, [avg_time_between_blocks * blocks_per_difficulty]: a window of at
    most half the pace aimed at never lowers the weight, and a window of
    at least twice that pace never raises it above
    [max(min_block_weight, block_weight)]. *)
Theorem calculate_block_difficulty_direction
    (m : HathorManager S) (oldest newest : BaseTransaction) (avg_dt new_weight : R) :
  (0 <= max_allowed_block_weight_change m)%R ->
  head (latest_blocks m) = Some oldest ->
  last (latest_blocks m) = Some newest ->
  calculate_block_difficulty m = Ok (avg_dt, new_weight) ->
  let dt := IZR (Z.max 1 (timestamp newest - timestamp oldest)) in
  let aimed := (avg_time_between_blocks m * IZR (blocks_per_difficulty m))%R in
  ((2 * dt <= aimed)%R -> (block_weight m <= new_weight)%R)
  /\ ((2 * aimed <= dt)%R -> (new_weight <= Rmax (min_block_weight m) (block_weight m))%R).
Proof.
  intros Hc Hhead Hlast Hcalc dt aimed.
  destruct (calculate_block_difficulty_inv _ _ Hcalc) as (Hlen & Havg & _).
  rewrite (calculate_block_difficulty_general m oldest newest Hlen Hhead Hlast Havg Hc) in Hcalc.
  injection Hcalc as _ <-. fold dt.
  assert (Hpos : (0 < IZR (blocks_per_difficulty m))%R).
  { apply IZR_lt. destruct (latest_blocks m); [discriminate|]. cbn in Hlen. lia. }
  assert (Hdt : (0 < dt)%R) by (apply IZR_lt; lia).
  assert (Haimed : (0 < aimed)%R) by (apply Rmult_lt_0_compat; assumption).
  destruct (log2_sum_sign _ _ _ Havg Hpos Hdt) as (Hfast & Hslow).
  set (x := (log2 _ + log2 _ - log2 dt)%R) in *.
  pose proof (clamp_bounds x _ Hc) as [Hlo Hhi].
  split.
  - intros Hhalf. assert (Hlt : (dt < aimed)%R) by lra. specialize (Hfast Hlt).
    eapply Rle_trans; [|apply Rmax_r].
    assert (0 <= clamp x (- max_allowed_block_weight_change m)
                   (max_allowed_block_weight_change m))%R; [|lra].
    unfold clamp, Rmax, Rmin.
    destruct (Rle_dec x _); destruct (Rle_dec _ _); lra.
  - intros Htwice. assert (Hlt : (aimed < dt)%R) by lra. specialize (Hslow Hlt).
    apply Rle_max_compat_l.
    assert (clamp x (- max_allowed_block_weight_change m)
              (max_allowed_block_weight_change m) <= 0)%R; [|lra].
    unfold clamp, Rmax, Rmin.
    destruct (Rle_dec x _); destruct (Rle_dec _ _); lra.
Qed.

(** *** When [on_new_tx] raises *)

Lemma popleft_while_longer_negative (n : Z) (blocks : list BaseTransaction) :
  n < 0 -> popleft_while_longer n blocks = Raise IndexError.
Proof.
  intros Hn. induction blocks as [|b blocks IH].
  - cbn. destruct (Z.gtb_spec 0 n); [reflexivity|lia].
  - cbn [popleft_while_longer].
    destruct (Z.gtb_spec (Z.of_nat (length (b :: blocks))) n); [exact IH|lia].
Qed.

Lemma calculate_block_difficulty_window (m : HathorManager S) :
  Z.of_nat (length (latest_blocks m)) <> blocks_per_difficulty m ->
  calculate_block_difficulty m = Raise AssertionError.
Proof.
  intros Hne. unfold calculate_block_difficulty.
  destruct (Z.eqb_spec (Z.of_nat (length (latest_blocks m))) (blocks_per_difficulty m));
    [contradiction|reflexivity].
Qed.

Lemma calculate_block_difficulty_returns (m : HathorManager S) :
  Z.of_nat (length (latest_blocks m)) = blocks_per_difficulty m ->
  0 < blocks_per_difficulty m ->
  (if Rle_dec (avg_time_between_blocks m) 0
   then calculate_block_difficulty m = Raise ValueError
   else exists r, calculate_block_difficulty m = Ok r).
Proof.
  intros Hlen Hpos. unfold calculate_block_difficulty.
  rewrite Hlen, Z.eqb_refl. cbn [negb].
  destruct (latest_blocks m) as [|b blocks] eqn:Hb; [cbn in Hlen; lia|].
  assert (Hlast : exists newest, last (b :: blocks) = Some newest).
  { destruct (last (b :: blocks)) eqn:Hl; [eauto|].
    apply last_None in Hl. discriminate. }
  destruct Hlast as (newest & Hlast). rewrite Hlast. cbn [head].
  rewrite dt_code.
  destruct (Rle_dec (avg_time_between_blocks m) 0) as [Hle|Hgt].
  - assert (E : math_log (avg_time_between_blocks m) 2 = Raise ValueError).
    { unfold math_log. destruct (Rle_dec (avg_time_between_blocks m) 0);
        [reflexivity|contradiction]. }
    rewrite E. reflexivity.
  - rewrite (math_log_2 (avg_time_between_blocks m)) by lra.
    rewrite (math_log_2 (IZR (blocks_per_difficulty m))) by (apply IZR_lt; lia).
    rewrite (math_log_2 (IZR (Z.max 1 (timestamp newest - timestamp b))))
      by (apply IZR_lt; lia).
    cbn [mbind result_bind].
    destruct (Z.eqb_spec (blocks_per_difficulty m) 0); [lia|]. eauto.
Qed.

Lemma on_new_tx_block (m : HathorManager S) (tx : BaseTransaction) (conn : option Conn) :
  validate_new_tx verify m tx = true ->
  is_block tx = true ->
  on_new_tx verify m tx conn
  = (blocks ← popleft_while_longer (blocks_per_difficulty m) (latest_blocks m ++ [tx]);
     let m2 := set_latest_blocks blocks (integrate m tx conn) in
     if blocks_per_difficulty m =? 0 then Raise ZeroDivisionError
     else if get_block_count (tx_storage (integrate m tx conn))
             `mod` blocks_per_difficulty m =? 0
     then '(avg_dt, new_weight) ← calculate_block_difficulty m2;
          Ok (set_block_weight new_weight m2)
     else Ok m2).
Proof.
  intros Hv Hb. unfold on_new_tx. fold (integrate m tx conn). rewrite Hv, Hb. cbn [negb].
  destruct (integrate_frame m tx conn) as (_ & _ & _ & _ & _ & Hbpd & Hlb & _).
  rewrite Hbpd, Hlb.
  destruct (popleft_while_longer _ _) as [blocks|]; [|reflexivity].
  cbn [mbind result_bind blocks_per_difficulty set_latest_blocks tx_storage].
  rewrite Hbpd. reflexivity.
Qed.

Lemma on_new_tx_short_window (m : HathorManager S) (tx : BaseTransaction) (conn : option Conn) :
  validate_new_tx verify m tx = true ->
  is_block tx = true ->
  0 < blocks_per_difficulty m ->
  get_block_count (tx_storage (integrate m tx conn)) `mod` blocks_per_difficulty m = 0 ->
  Z.of_nat (length (latest_blocks m)) + 1 < blocks_per_difficulty m ->
  on_new_tx verify m tx conn = Raise AssertionError.
Proof.
  intros Hv Hb Hpos Hmod Hshort. rewrite (on_new_tx_block m tx conn Hv Hb).
  destruct (integrate_frame m tx conn) as (_ & _ & _ & _ & _ & Hbpd & _).
  rewrite popleft_while_longer_drop by lia. cbn [mbind result_bind]. cbn zeta.
  destruct (Z.eqb_spec (blocks_per_difficulty m) 0); [lia|].
  rewrite Hmod. cbn [Z.eqb].
  rewrite calculate_block_difficulty_window; [reflexivity|].
  cbn [latest_blocks set_latest_blocks blocks_per_difficulty]. rewrite Hbpd.
  rewrite length_drop, length_app. cbn [length]. lia.
Qed.

(** X24. When [on_new_tx] raises.  It returns for every vertex that is
    rejected or is not a block.  For an accepted block, with [count] the
    block count of the storage once the block is in it: a negative
    [blocks_per_difficulty] raises the [IndexError] of [popleft] and zero
    the [ZeroDivisionError] of [%]; otherwise the call returns when
    [count] is not a multiple of [blocks_per_difficulty]; when it is, the
    call raises the [AssertionError] of [calculate_block_difficulty] if
    the window, the block included, is shorter than
    [blocks_per_difficulty], and else returns, unless
    [avg_time_between_blocks] is not positive, which raises the
    [ValueError] of [math.log]. *)
Theorem on_new_tx_returns_or_raises
    (m : HathorManager S) (tx : BaseTransaction) (conn : option Conn) :
  (validate_new_tx verify m tx = false \/ is_block tx = false ->
   exists m', on_new_tx verify m tx conn = Ok m')
  /\ (validate_new_tx verify m tx = true -> is_block tx = true ->
      let count := get_block_count (tx_storage (integrate m tx conn)) in
      let window := Z.of_nat (length (latest_blocks m)) + 1 in
      (blocks_per_difficulty m < 0 -> on_new_tx verify m tx conn = Raise IndexError)
      /\ (blocks_per_difficulty m = 0 -> on_new_tx verify m tx conn = Raise ZeroDivisionError)
      /\ (0 < blocks_per_difficulty m ->
          count `mod` blocks_per_difficulty m <> 0 ->
          exists m', on_new_tx verify m tx conn = Ok m')
      /\ (0 < blocks_per_difficulty m ->
          count `mod` blocks_per_difficulty m = 0 ->
          window < blocks_per_difficulty m ->
          on_new_tx verify m tx conn = Raise AssertionError)
      /\ (0 < blocks_per_difficulty m ->
          count `mod` blocks_per_difficulty m = 0 ->
          blocks_per_difficulty m <= window ->
          if Rle_dec (avg_time_between_blocks m) 0
          then on_new_tx verify m tx conn = Raise ValueError
          else exists m', on_new_tx verify m tx conn = Ok m')).
Proof.
  split.
  - intros Hcase. unfold on_new_tx.
    destruct (validate_new_tx verify m tx); cbn [negb]; [|eauto].
    destruct Hcase as [Hv|Hb]; [discriminate|]. rewrite Hb. eauto.
  - intros Hv Hb count window. rewrite (on_new_tx_block m tx conn Hv Hb).
    destruct (integrate_frame m tx conn) as (_ & _ & _ & _ & _ & Hbpd & Hlb & Havg & _).
    assert (Hpop : 0 <= blocks_per_difficulty m ->
              popleft_while_longer (blocks_per_difficulty m) (latest_blocks m ++ [tx])
              = Ok (drop (length (latest_blocks m ++ [tx])
                          - Z.to_nat (blocks_per_difficulty m))
                      (latest_blocks m ++ [tx])))
      by apply popleft_while_longer_drop.
    assert (Hlen : forall blocks,
              blocks = drop (length (latest_blocks m ++ [tx])
                             - Z.to_nat (blocks_per_difficulty m))
                         (latest_blocks m ++ [tx]) ->
              0 < blocks_per_difficulty m ->
              Z.of_nat (length blocks) = Z.min window (blocks_per_difficulty m)).
    { intros blocks -> Hpos. subst window.
      rewrite length_drop, length_app. cbn [length]. lia. }
    split; [|split; [|split; [|split]]].
    + intros Hneg. rewrite popleft_while_longer_negative by exact Hneg. reflexivity.
    + intros Hz. rewrite Hpop by lia. cbn [mbind result_bind]. cbn zeta.
      rewrite Hz. reflexivity.
    + intros Hpos Hmod. rewrite Hpop by lia. cbn [mbind result_bind]. cbn zeta.
      destruct (Z.eqb_spec (blocks_per_difficulty m) 0); [lia|].
      fold count. destruct (Z.eqb_spec (count `mod` blocks_per_difficulty m) 0);
        [contradiction|eauto].
    + intros Hpos Hmod Hshort. rewrite <- (on_new_tx_block m tx conn Hv Hb).
      apply on_new_tx_short_window; assumption.
    + intros Hpos Hmod Hfull. rewrite Hpop by lia. cbn [mbind result_bind]. cbn zeta.
      destruct (Z.eqb_spec (blocks_per_difficulty m) 0); [lia|].
      fold count. rewrite Hmod. cbn [Z.eqb].
      set (m2 := set_latest_blocks _ (integrate m tx conn)).
      pose proof (calculate_block_difficulty_returns m2) as Hret.
      assert (Hbpd2 : blocks_per_difficulty m2 = blocks_per_difficulty m) by exact Hbpd.
      assert (Havg2 : avg_time_between_blocks m2 = avg_time_between_blocks m) by exact Havg.
      rewrite Hbpd2, Havg2 in Hret.
      assert (Hwin : Z.of_nat (length (latest_blocks m2)) = blocks_per_difficulty m).
      { subst m2. cbn [latest_blocks set_latest_blocks]. rewrite (Hlen _ eq_refl Hpos). lia. }
      specialize (Hret Hwin Hpos).
      destruct (Rle_dec (avg_time_between_blocks m) 0).
      * rewrite Hret. reflexivity.
      * destruct Hret as ([avg_dt new_weight] & ->). cbn [mbind result_bind]. eauto.
Qed.

(** *** Mining *)

Lemma mapM_result_Forall2 {A B : Type} (f : A -> result B) (xs : list A) (ys : list B) :
  mapM f xs = Ok ys -> Forall2 (fun x y => f x = Ok y) xs ys.
Proof.
  revert ys. induction xs as [|x xs IH]; intros ys.
  - intros [= <-]. constructor.
  - cbn [mapM]. destruct (f x) as [y|] eqn:Hx; [|discriminate]. cbn [mbind result_bind].
    destruct (mapM f xs) as [ys'|]; [|discriminate]. cbn.
    intros [= <-]. constructor; auto.
Qed.

Lemma foldl_max_ge (zs : list Z) (a : Z) :
  a <= foldl Z.max a zs /\ (forall z, z ∈ zs -> z <= foldl Z.max a zs)
  /\ foldl Z.max a zs ∈ a :: zs.
Proof.
  revert a. induction zs as [|z zs IH]; intros a.
  - cbn. repeat split; [lia| |left]. intros z Hz. apply elem_of_nil in Hz. contradiction.
  - cbn [foldl]. destruct (IH (Z.max a z)) as (Hge & Hall & Hin). repeat split.
    + lia.
    + intros x Hx. apply elem_of_cons in Hx as [->|Hx]; [lia|]. apply Hall, Hx.
    + apply elem_of_cons in Hin as [Heq|Hin].
      * rewrite Heq. destruct (Z.max_spec a z) as [[_ ->]|[_ ->]]; [right; left|left].
      * right. right. exact Hin.
Qed.

Lemma py_max_spec (zs : list Z) (z : Z) :
  py_max zs = Ok z -> z ∈ zs /\ forall x, x ∈ zs -> x <= z.
Proof.
  destruct zs as [|a zs]; [discriminate|]. cbn. intros [= <-].
  destruct (foldl_max_ge zs a) as (Hge & Hall & Hin). split; [exact Hin|].
  intros x Hx. apply elem_of_cons in Hx as [->|Hx]; [exact Hge|]. apply Hall, Hx.
Qed.

Lemma generate_mining_block_fields
    (address : bytes) (rnd : nat) (m : HathorManager S) (blk : MiningBlock) :
  generate_mining_block address rnd m = Ok blk ->
  mb_weight blk = block_weight m
  /\ mb_outputs blk = [ {| value := tokens_issued_per_block m; script := address |} ]
  /\ mb_storage blk = tx_storage_ref m
  /\ (exists parents_tx highest,
        mapM (get_transaction_by_hash_bytes (tx_storage m)) (mb_parents blk) = Ok parents_tx
        /\ py_max (height <$> parents_tx) = Ok highest
        /\ mb_height blk = highest + 1).
Proof.
  unfold generate_mining_block.
  destruct (get_new_tx_parents rnd m) as [tip_txs|]; [|discriminate].
  cbn [mbind result_bind].
  destruct (mapM _ _) as [parents_tx|] eqn:Hget; [|discriminate]. cbn [mbind result_bind].
  destruct (py_max _) as [highest|] eqn:Hmax; [|discriminate]. cbn [mbind result_bind].
  intros [= <-]. cbn. repeat split. eauto.
Qed.

Lemma generate_mining_block_parents
    (address : bytes) (rnd : nat) (m : HathorManager S) (blk : MiningBlock) :
  generate_mining_block address rnd m = Ok blk ->
  forall p, p ∈ mb_parents blk ->
    exists v, get_transaction_by_hash_bytes (tx_storage m) p = Ok v
              /\ height v < mb_height blk.
Proof.
  intros Hgen.
  destruct (generate_mining_block_fields _ _ _ _ Hgen)
    as (_ & _ & _ & parents_tx & highest & Hget & Hmax & ->).
  apply mapM_result_Forall2 in Hget. apply py_max_spec in Hmax as [Hin Hall].
  intros p Hp. apply list_elem_of_lookup in Hp as [i Hi].
  destruct (Forall2_lookup_l _ _ _ _ _ Hget Hi) as (v & Hv & Hgv).
  exists v. split; [exact Hgv|].
  assert (height v <= highest); [|lia].
  apply Hall. apply list_elem_of_fmap. exists v. split; [reflexivity|].
  apply list_elem_of_lookup. eauto.
Qed.

(** X7. The block [generate_mining_block] returns carries the target
    weight [block_weight], a single output of [tokens_issued_per_block] to
    the address, the node's storage, and as parents the tip blocks
    followed by the result of [get_new_tx_parents].  Each parent is in the
    storage and is lower than the block; one of them is lower by exactly
    one. *)
Theorem generate_mining_block_result
    (address : bytes) (rnd : nat) (m : HathorManager S) (blk : MiningBlock) :
  generate_mining_block address rnd m = Ok blk ->
  mb_weight blk = block_weight m
  /\ mb_outputs blk = [ {| value := tokens_issued_per_block m; script := address |} ]
  /\ mb_storage blk = tx_storage_ref m
  /\ (exists tip_txs,
        get_new_tx_parents rnd m = Ok tip_txs
        /\ mb_parents blk = get_tip_blocks_hashes (tx_storage m) ++ tip_txs)
  /\ (forall p, p ∈ mb_parents blk ->
        exists v, get_transaction_by_hash_bytes (tx_storage m) p = Ok v
                  /\ height v < mb_height blk)
  /\ (exists p v, p ∈ mb_parents blk
        /\ get_transaction_by_hash_bytes (tx_storage m) p = Ok v
        /\ mb_height blk = height v + 1).
Proof.
  unfold generate_mining_block.
  destruct (get_new_tx_parents rnd m) as [tip_txs|]; [|discriminate].
  cbn [mbind result_bind].
  destruct (mapM _ _) as [parents_tx|] eqn:Hget; [|discriminate]. cbn [mbind result_bind].
  destruct (py_max _) as [highest|] eqn:Hmax; [|discriminate]. cbn [mbind result_bind].
  intros [= <-]. cbn.
  apply mapM_result_Forall2 in Hget. apply py_max_spec in Hmax as [Hin Hall].
  repeat split; eauto.
  - intros p Hp. apply list_elem_of_lookup in Hp as [i Hi].
    destruct (Forall2_lookup_l _ _ _ _ _ Hget Hi) as (v & Hv & Hgv).
    exists v. split; [exact Hgv|].
    assert (height v <= highest); [|lia].
    apply Hall. apply list_elem_of_fmap. exists v. split; [reflexivity|].
    apply list_elem_of_lookup. eauto.
  - apply list_elem_of_fmap in Hin as (v & -> & Hv).
    apply list_elem_of_lookup in Hv as [i Hi].
    destruct (Forall2_lookup_r _ _ _ _ _ Hget Hi) as (p & Hp & Hgv).
    exists p, v. split; [|split; [exact Hgv|reflexivity]].
    apply list_elem_of_lookup. eauto.
Qed.

(** X8. [generate_mining_block] raises in two cases of the tips: with a
    single tip transaction that has no parents, the [IndexError] of
    [random.choice] in [get_new_tx_parents]; with no tip block and no tip
    transaction, the [ValueError] of [max] on no parents. *)
Theorem generate_mining_block_raises (address : bytes) (rnd : nat) (m : HathorManager S) :
  (forall tip, get_tip_transactions (tx_storage m) 2 = [tip] -> parents tip = [] ->
     get_new_tx_parents rnd m = Raise IndexError
     /\ generate_mining_block address rnd m = Raise IndexError)
  /\ (get_tip_transactions (tx_storage m) 2 = [] -> get_tip_blocks_hashes (tx_storage m) = [] ->
      get_new_tx_parents rnd m = Ok []
      /\ generate_mining_block address rnd m = Raise ValueError).
Proof.
  split.
  - intros tip Htips Hp.
    assert (Hg : get_new_tx_parents rnd m = Raise IndexError).
    { unfold get_new_tx_parents. rewrite Htips, Hp. reflexivity. }
    split; [exact Hg|]. unfold generate_mining_block. rewrite Hg. reflexivity.
  - intros Htips Hblocks.
    assert (Hg : get_new_tx_parents rnd m = Ok []).
    { unfold get_new_tx_parents. rewrite Htips. reflexivity. }
    split; [exact Hg|]. unfold generate_mining_block. rewrite Hg, Hblocks. reflexivity.
Qed.

(** X9. What [generate_mining_block] hands out comes back acceptable.  On
    a storage that holds every vertex it returns, the block of
    [generate_mining_block], once solved, has all its parents in the
    storage, reaches the target weight and issues
    [tokens_issued_per_block]; [propagate_tx] takes it without changing
    it, and [validate_new_tx] accepts it as soon as [verify] passes and its
    hash is new. *)
Theorem solved_block_is_accepted
    (address : bytes) (rnd : nat) (m : HathorManager S) (blk : MiningBlock)
    (hash0 : bytes) (nonce0 timestamp0 : Z) :
  (forall h v, get_transaction_by_hash_bytes (tx_storage m) h = Ok v ->
     transaction_exists_by_hash_bytes (tx_storage m) h = true) ->
  generate_mining_block address rnd m = Ok blk ->
  let b := solved blk hash0 nonce0 timestamp0 in
  verify (tx_storage m) b = true ->
  state m = Some INITIALIZING
  \/ (is_genesis b = false /\ transaction_exists_by_hash_bytes (tx_storage m) hash0 = false) ->
  attach_storage m b = Ok b
  /\ sum_outputs b = tokens_issued_per_block m
  /\ forallb (transaction_exists_by_hash_bytes (tx_storage m)) (parents b) = true
  /\ validate_new_tx verify m b = true.
Proof.
  intros Hlaw Hgen b Hver Hnew.
  destruct (generate_mining_block_fields _ _ _ _ Hgen) as (Hw & Ho & Hs & _).
  pose proof (generate_mining_block_parents _ _ _ _ Hgen) as Hp.
  assert (Hparents : forallb (transaction_exists_by_hash_bytes (tx_storage m)) (parents b) = true).
  { apply forallb_forall. intros p Hin. apply list_elem_of_In in Hin.
    destruct (Hp p Hin) as (v & Hv & _). eapply Hlaw, Hv. }
  repeat split.
  - unfold attach_storage. cbn. rewrite Hs. rewrite bool_decide_eq_true_2 by reflexivity.
    reflexivity.
  - unfold sum_outputs. cbn. rewrite Ho. cbn. lia.
  - exact Hparents.
  - apply validate_new_tx_accepted; auto. intros _.
    apply weight_lt_Num_false. cbn. rewrite Hw. lra.
Qed.

(** *** Dialling a peer *)

Lemma connect_to_if_not_connected_cases (rnd : nat) (peer : PeerId) (m : HathorManager S) :
  (entrypoints peer = [] \/ id peer ∈ (fst <$> connected_peers m) ->
   connect_to_if_not_connected rnd peer m = Ok m)
  /\ (entrypoints peer <> [] -> id peer ∉ (fst <$> connected_peers m) ->
      exists e, e ∈ entrypoints peer
        /\ connect_to_if_not_connected rnd peer m = connect_to e m).
Proof.
  unfold connect_to_if_not_connected. destruct (entrypoints peer) as [|e0 es] eqn:He.
  - split; [reflexivity | congruence].
  - destruct (decide (id peer ∈ (fst <$> connected_peers m))) as [Hin|Hnot].
    + rewrite bool_decide_eq_false_2 by (intros Hn; apply Hn, Hin).
      split; [reflexivity | contradiction].
    + rewrite bool_decide_eq_true_2 by exact Hnot.
      destruct (random_choice_elem rnd (e0 :: es)) as (e & Hch & Hin); [discriminate|].
      rewrite Hch. cbn [mbind result_bind]. split.
      * intros [Habs|Habs]; [discriminate | contradiction].
      * intros _ _. exists e. split; [exact Hin | reflexivity].
Qed.

(** X10. [update_peer] with the record of another peer, on a started
    node, dials at most once.  It does not dial a peer that has no
    entrypoints or that is among the connected peers, and returns.
    Otherwise it takes one of the peer's entrypoints: when
    [clientFromString] parses it the entrypoint is dialled and joins the
    pending connections, and the call returns; when [clientFromString]
    raises, the call raises the same exception and nothing is dialled.
    Either way the record is in the peer storage and the connected peers
    are left as they are. *)
Theorem update_peer_dials (rnd : nat) (peer : PeerId) (m : HathorManager S) :
  started m ->
  id peer <> id (my_peer m) ->
  let m' := (update_peer rnd peer m).1 in
  let outcome := (update_peer rnd peer m).2 in
  connected_peers m' = connected_peers m
  /\ peer_storage m' = add_or_merge (peer_storage m) peer
  /\ (entrypoints peer = [] \/ id peer ∈ (fst <$> connected_peers m) ->
      outcome = Ok tt /\ events m' = events m /\ connecting_peers m' = connecting_peers m)
  /\ (entrypoints peer <> [] -> id peer ∉ (fst <$> connected_peers m) ->
      exists e, e ∈ entrypoints peer
        /\ match clientFromString e with
           | Ok _ =>
               outcome = Ok tt
               /\ events m' = events m ++ [ConnectTo e]
               /\ connecting_peers m' = connecting_peers m ++ [e]
           | Raise err =>
               outcome = Raise err
               /\ events m' = events m
               /\ connecting_peers m' = connecting_peers m
           end).
Proof.
  intros _ Hid. cbn zeta. unfold update_peer. rewrite bool_decide_eq_false_2 by exact Hid.
  set (m1 := set_peer_storage (add_or_merge (peer_storage m) peer) m).
  destruct (connect_to_if_not_connected_cases rnd peer m1) as [Hskip Hdial].
  change (connected_peers m1) with (connected_peers m) in Hskip, Hdial.
  destruct (decide (entrypoints peer = [] \/ id peer ∈ (fst <$> connected_peers m)))
    as [Hcase|Hcase].
  - rewrite (Hskip Hcase). cbn [fst snd].
    split; [reflexivity|]. split; [reflexivity|]. split; [auto|].
    intros Hne Hnot. destruct Hcase; contradiction.
  - assert (Hne : entrypoints peer <> []) by (intros Hnil; apply Hcase; left; exact Hnil).
    assert (Hnot : id peer ∉ (fst <$> connected_peers m))
      by (intros Hin; apply Hcase; right; exact Hin).
    destruct (Hdial Hne Hnot) as (e & Hin & Hc). rewrite Hc.
    pose proof (connect_to_spec e m1) as He.
    destruct (connect_to e m1) as [m2|err]; cbn [fst snd].
    + destruct He as [Hparse ->].
      split; [reflexivity|]. split; [reflexivity|]. split; [intros Habs; contradiction|].
      intros _ _. exists e. split; [exact Hin|]. rewrite Hparse. repeat split.
    + split; [reflexivity|]. split; [reflexivity|]. split; [intros Habs; contradiction|].
      intros _ _. exists e. split; [exact Hin|]. rewrite He. repeat split.
Qed.

End WithStorage.

(** *** The storage of a node stays consistent *)

Lemma validate_new_tx_parents {S : Type} `{TransactionStorage S}
    (verify : S -> BaseTransaction -> bool) (m : HathorManager S) (tx : BaseTransaction) :
  validate_new_tx verify m tx = true ->
  forallb (transaction_exists_by_hash_bytes (tx_storage m)) (parents tx) = true.
Proof.
  unfold validate_new_tx. destruct (_ && _); [discriminate|].
  destruct (forallb _ _); [reflexivity | discriminate].
Qed.

(** [on_new_tx] saves a vertex only when its parents are stored, so the
    storage of a node is consistent after it as it was before. *)
Lemma on_new_tx_storage_consistent
    (verify : TransactionMemoryStorage -> BaseTransaction -> bool)
    (m m' : HathorManager TransactionMemoryStorage) (tx : BaseTransaction)
    (conn : option Conn) :
  on_new_tx verify m tx conn = Ok m' ->
  storage_consistent (tx_storage m) ->
  storage_consistent (tx_storage m').
Proof.
  intros Hon Hs. rewrite (on_new_tx_storage verify m m' tx conn Hon).
  destruct (validate_new_tx verify m tx) eqn:Hv; [|exact Hs].
  destruct (bool_decide _); [exact Hs|].
  apply storage_consistent_save; [exact Hs|].
  apply (validate_new_tx_parents verify m tx Hv).
Qed.

End NodeFacts.

(** ** The started manager *)

Module RunningFacts.

Import Manager Node ManagerFacts NodeFacts.

Section WithStorage.

Context {S : Type} `{TransactionStorage S} `{TopologicalStorage S} `{Endpoints}.
Variable verify : S -> BaseTransaction -> bool.

(** *** The replay at start-up *)




(** *** Connected peers *)

(** Membership in the unions and differences of the handshaking peers. *)
Ltac in_set :=
  try (apply set_eq; intros ?);
  rewrite ?elem_of_difference, ?elem_of_union, ?elem_of_singleton;
  intuition congruence.

Lemma dict_setitem_keys (k : string) (v : Conn) (d : list (string * Conn)) (k' : string) :
  k' ∈ (fst <$> dict_setitem k v d) <-> k' = k \/ k' ∈ (fst <$> d).
Proof.
  induction d as [|[k0 v0] d IH]; cbn.
  - rewrite list_elem_of_singleton. split; [auto|]. intros [?|Hin]; [assumption|].
    apply elem_of_nil in Hin. contradiction.
  - destruct (decide (k0 = k)) as [->|Hne]; cbn; rewrite !elem_of_cons.
    + tauto.
    + rewrite IH. tauto.
Qed.

Lemma dict_setitem_lookup (k : string) (v : Conn) (d : list (string * Conn)) :
  (k, v) ∈ dict_setitem k v d.
Proof.
  induction d as [|[k0 v0] d IH]; cbn; [left|].
  destruct (decide (k0 = k)); [left|right; exact IH].
Qed.

Lemma dict_setitem_NoDup (k : string) (v : Conn) (d : list (string * Conn)) :
  NoDup (fst <$> d) -> NoDup (fst <$> dict_setitem k v d).
Proof.
  induction d as [|[k0 v0] d IH]; cbn; intros Hnd.
  - apply NoDup_singleton.
  - apply NoDup_cons in Hnd as [Hnot Hnd]. destruct (decide (k0 = k)) as [->|Hne]; cbn.
    + apply NoDup_cons. auto.
    + apply NoDup_cons. split; [|auto].
      rewrite dict_setitem_keys. intros [?|?]; [congruence|contradiction].
Qed.

Lemma dict_pop_missing (k : string) (d : list (string * Conn)) :
  k ∉ (fst <$> d) -> dict_pop k d = Raise KeyError.
Proof.
  induction d as [|[k0 v0] d IH]; cbn; intros Hnot; [reflexivity|].
  apply not_elem_of_cons in Hnot as [Hne Hnot].
  destruct (decide (k0 = k)); [congruence|]. rewrite IH by exact Hnot. reflexivity.
Qed.

Lemma dict_pop_setitem (k : string) (v : Conn) (d : list (string * Conn)) :
  k ∉ (fst <$> d) -> dict_pop k (dict_setitem k v d) = Ok d.
Proof.
  induction d as [|[k0 v0] d IH]; cbn; intros Hnot.
  - destruct (decide (k = k)); [reflexivity|congruence].
  - apply not_elem_of_cons in Hnot as [Hne Hnot].
    destruct (decide (k0 = k)); [congruence|]. cbn.
    destruct (decide (k0 = k)); [congruence|]. rewrite IH by exact Hnot. reflexivity.
Qed.

Lemma dict_pop_present (k : string) (d : list (string * Conn)) :
  NoDup (fst <$> d) -> k ∈ (fst <$> d) ->
  exists d', dict_pop k d = Ok d' /\ (k ∉ (fst <$> d')) /\ NoDup (fst <$> d').
Proof.
  induction d as [|[k0 v0] d IH]; cbn; intros Hnd Hin.
  - apply elem_of_nil in Hin. contradiction.
  - apply NoDup_cons in Hnd as [Hnot Hnd]. destruct (decide (k0 = k)) as [->|Hne].
    + eauto.
    + apply elem_of_cons in Hin as [?|Hin]; [congruence|].
      destruct (IH Hnd Hin) as (d' & Hpop & Hk & Hnd'). rewrite Hpop. cbn.
      exists ((k0, v0) :: d'). split; [reflexivity|]. cbn. split.
      * apply not_elem_of_cons. auto.
      * apply NoDup_cons. split; [|exact Hnd'].
        intros Hk0. apply Hnot. clear -Hpop Hk0.
        revert d' Hpop Hk0. induction d as [|[k1 v1] d IHd]; cbn; intros d' Hpop Hk0;
          [discriminate|].
        destruct (decide (k1 = k)).
        -- injection Hpop as <-. apply elem_of_cons. auto.
        -- destruct (dict_pop k d) as [d''|]; [|discriminate]. cbn in Hpop.
           injection Hpop as <-. cbn in Hk0. apply elem_of_cons in Hk0 as [->|Hk0].
           ++ left.
           ++ right. eapply IHd; eauto.
Qed.

(** X12. The way of a connection through the handshake.  A protocol that
    connects and then becomes ready for a peer is recorded as that peer's
    connection, the peer is in the peer storage and the protocol is no
    longer handshaking; from then on [connect_to_if_not_connected] does
    not dial the peer, whatever its entrypoints. *)
Theorem on_peer_ready_connects (protocol : Conn) (peer : PeerId) (n : Running S) :
  exists n',
    on_peer_ready protocol peer (on_peer_connect protocol n) = Ok n'
    /\ (id peer, protocol) ∈ connected_peers (manager n')
    /\ peer_storage (manager n') = add_or_merge (peer_storage (manager n)) peer
    /\ (protocol ∉ handshaking_peers n')
    /\ events (manager n') = events (manager n)
    /\ forall rnd, connect_to_if_not_connected rnd peer (manager n') = Ok (manager n').
Proof.
  unfold on_peer_ready, on_peer_connect. cbn [handshaking_peers manager].
  rewrite decide_True by in_set.
  eexists. split; [reflexivity|]. cbn. repeat split.
  - apply dict_setitem_lookup.
  - in_set.
  - intros rnd. unfold connect_to_if_not_connected. cbn [connected_peers set_connected_peers].
    destruct (entrypoints peer); [reflexivity|].
    rewrite bool_decide_eq_false_2; [reflexivity|].
    intros Hnot. apply Hnot. apply dict_setitem_keys. auto.
Qed.

(** X13. A connection that is lost.  While it is handshaking, a protocol
    without a peer record is taken off the handshaking peers and nothing
    else changes; with a peer record that is not among the connected peers
    [on_peer_disconnect] raises [KeyError].  Once ready, for a peer that
    was not connected before, losing the connection puts the connected and
    the handshaking peers back as they were, and the peer stays in the
    peer storage. *)
Theorem on_peer_disconnect_after (protocol : Conn) (peer : PeerId) (n : Running S) :
  (exists n',
     on_peer_disconnect protocol None (on_peer_connect protocol n) = Ok n'
     /\ manager n' = manager n
     /\ handshaking_peers n' = handshaking_peers n ∖ {[protocol]})
  /\ (id peer ∉ (fst <$> connected_peers (manager n)) ->
      on_peer_disconnect protocol (Some peer) (on_peer_connect protocol n) = Raise KeyError
      /\ exists n1 n2,
           on_peer_ready protocol peer (on_peer_connect protocol n) = Ok n1
           /\ on_peer_disconnect protocol (Some peer) n1 = Ok n2
           /\ connected_peers (manager n2) = connected_peers (manager n)
           /\ handshaking_peers n2 = handshaking_peers n ∖ {[protocol]}
           /\ peer_storage (manager n2) = add_or_merge (peer_storage (manager n)) peer).
Proof.
  split; [|intros Hnot; split].
  - unfold on_peer_disconnect, on_peer_connect. cbn [mbind result_bind handshaking_peers].
    rewrite decide_True by in_set.
    eexists. split; [reflexivity|]. cbn. split; [reflexivity|]. in_set.
  - unfold on_peer_disconnect, on_peer_connect. cbn [manager].
    rewrite dict_pop_missing by exact Hnot. reflexivity.
  - unfold on_peer_ready, on_peer_connect. cbn [handshaking_peers manager].
    rewrite decide_True by in_set.
    eexists. eexists. split; [reflexivity|].
    unfold on_peer_disconnect. cbn [manager connected_peers set_connected_peers].
    rewrite dict_pop_setitem by exact Hnot. cbn [mbind result_bind update handshaking_peers].
    rewrite decide_False by in_set.
    split; [reflexivity|]. cbn. repeat split. in_set.
Qed.

Lemma on_peer_ready_ok (protocol : Conn) (peer : PeerId) (n : Running S) :
  protocol ∈ handshaking_peers n ->
  exists n',
    on_peer_ready protocol peer n = Ok n'
    /\ connected_peers (manager n')
       = dict_setitem (id peer) protocol (connected_peers (manager n))
    /\ handshaking_peers n' = handshaking_peers n ∖ {[protocol]}.
Proof.
  intros Hin. unfold on_peer_ready. rewrite decide_True by exact Hin.
  eexists. split; [reflexivity|]. split; reflexivity.
Qed.

Lemma on_peer_disconnect_ok (protocol : Conn) (peer : PeerId) (n : Running S)
    (d' : list (string * Conn)) :
  dict_pop (id peer) (connected_peers (manager n)) = Ok d' ->
  exists n',
    on_peer_disconnect protocol (Some peer) n = Ok n'
    /\ connected_peers (manager n') = d'.
Proof.
  intros Hpop. unfold on_peer_disconnect. rewrite Hpop.
  cbn [mbind result_bind update handshaking_peers].
  destruct (decide _); eexists; (split; [reflexivity|]); reflexivity.
Qed.

Lemma on_peer_disconnect_missing (protocol : Conn) (peer : PeerId) (n : Running S) :
  id peer ∉ (fst <$> connected_peers (manager n)) ->
  on_peer_disconnect protocol (Some peer) n = Raise KeyError.
Proof.
  intros Hnot. unfold on_peer_disconnect. rewrite dict_pop_missing by exact Hnot. reflexivity.
Qed.

(** X14. The connected peers are kept by peer id, one protocol each.  When
    two protocols become ready for the same peer, the second takes the
    place of the first; when the first then disconnects, the peer is taken
    off the connected peers although the second is still connected, and
    the disconnection of the second raises [KeyError]. *)
Theorem same_peer_twice (c1 c2 : Conn) (peer : PeerId) (n : Running S) :
  NoDup (fst <$> connected_peers (manager n)) ->
  c1 ∈ handshaking_peers n ->
  c2 ∈ handshaking_peers n ->
  c1 <> c2 ->
  exists n1 n2 n3,
    on_peer_ready c1 peer n = Ok n1
    /\ on_peer_ready c2 peer n1 = Ok n2
    /\ (id peer, c2) ∈ connected_peers (manager n2)
    /\ ((id peer, c1) ∉ connected_peers (manager n2))
    /\ on_peer_disconnect c1 (Some peer) n2 = Ok n3
    /\ (id peer ∉ (fst <$> connected_peers (manager n3)))
    /\ on_peer_disconnect c2 (Some peer) n3 = Raise KeyError.
Proof.
  intros Hnd Hc1h Hc2h Hne.
  destruct (on_peer_ready_ok c1 peer n Hc1h) as (n1 & Hr1 & Hc1 & Hh1).
  assert (H2' : c2 ∈ handshaking_peers n1).
  { rewrite Hh1. apply elem_of_difference. split; [exact Hc2h|].
    rewrite elem_of_singleton. congruence. }
  destruct (on_peer_ready_ok c2 peer n1 H2') as (n2 & Hr2 & Hc2 & Hh2).
  assert (Hnd2 : NoDup (fst <$> connected_peers (manager n2))).
  { rewrite Hc2, Hc1. do 2 apply dict_setitem_NoDup. exact Hnd. }
  assert (Hin2 : (id peer, c2) ∈ connected_peers (manager n2))
    by (rewrite Hc2; apply dict_setitem_lookup).
  assert (Hk : id peer ∈ (fst <$> connected_peers (manager n2)))
    by (rewrite Hc2; apply dict_setitem_keys; auto).
  destruct (dict_pop_present _ _ Hnd2 Hk) as (d' & Hpop & Hgone & _).
  destruct (on_peer_disconnect_ok c1 peer n2 d' Hpop) as (n3 & Hd3 & Hc3).
  exists n1, n2, n3. repeat split; auto.
  - intros Hin1. apply Hne.
    apply list_elem_of_lookup in Hin1 as [i Hi]. apply list_elem_of_lookup in Hin2 as [j Hj].
    assert (Hij : i = j).
    { eapply NoDup_lookup; [exact Hnd2| |]; rewrite list_lookup_fmap.
      - rewrite Hi. reflexivity.
      - rewrite Hj. reflexivity. }
    subst j. congruence.
  - rewrite Hc3. exact Hgone.
  - apply on_peer_disconnect_missing. rewrite Hc3. exact Hgone.
Qed.

(** *** Reconnection *)

(** The dials of a loop over [peers]: the peers it reached are dialled at
    one of their entrypoints, which [clientFromString] parses, and the dials
    are recorded in order; the loop goes through the peers that can be
    dialled, or ends at the first one whose entrypoint is not parsed. *)
Lemma connect_to_each_spec (draws : nat -> nat) (i : nat) (peers : list PeerId)
    (m : HathorManager S) :
  let m' := (connect_to_each draws i peers m).1 in
  let outcome := (connect_to_each draws i peers m).2 in
  (state m' = state m /\ tx_storage m' = tx_storage m /\ wallet m' = wallet m
   /\ connected_peers m' = connected_peers m /\ peer_storage m' = peer_storage m)
  /\ exists dialled reached,
       events m' = events m ++ (ConnectTo <$> dialled)
       /\ connecting_peers m' = connecting_peers m ++ dialled
       /\ Forall2 (fun e peer => e ∈ entrypoints peer /\ clientFromString e = Ok tt)
            dialled reached
       /\ match outcome with
          | Ok _ => reached = filter (fun peer => can_dial (connected_peers m) peer = true) peers
          | Raise err =>
              exists peer rest e,
                filter (fun peer => can_dial (connected_peers m) peer = true) peers
                = reached ++ peer :: rest
                /\ e ∈ entrypoints peer /\ clientFromString e = Raise err
          end.
Proof.
  cbn zeta. revert i m. induction peers as [|peer peers IH]; intros i m.
  - cbn. split; [repeat split|]. exists [], []. cbn. rewrite !app_nil_r.
    repeat split. constructor.
  - cbn [connect_to_each]. rewrite filter_cons.
    destruct (connect_to_if_not_connected_cases (draws i) peer m) as [Hskip Hdial].
    destruct (decide (entrypoints peer = [] \/ id peer ∈ (fst <$> connected_peers m)))
      as [Hcase|Hcase].
    + rewrite (Hskip Hcase).
      assert (Hcan : can_dial (connected_peers m) peer = false).
      { unfold can_dial. apply bool_decide_eq_false. intros [Hne Hnot].
        destruct Hcase; contradiction. }
      rewrite Hcan. rewrite decide_False by discriminate. apply IH.
    + assert (Hne : entrypoints peer <> []) by (intros Hnil; apply Hcase; left; exact Hnil).
      assert (Hnot : id peer ∉ (fst <$> connected_peers m))
        by (intros Hin; apply Hcase; right; exact Hin).
      assert (Hcan : can_dial (connected_peers m) peer = true).
      { unfold can_dial. apply bool_decide_eq_true. split; assumption. }
      rewrite Hcan. rewrite decide_True by reflexivity.
      destruct (Hdial Hne Hnot) as (e & Hin & Hc). rewrite Hc.
      pose proof (connect_to_spec e m) as He.
      destruct (connect_to e m) as [m1|err].
      * destruct He as [Hparse ->].
        set (m1 := set_connecting_peers _ _).
        destruct (IH (Datatypes.S i) m1)
          as ((Hs & Ht & Hw & Hcp & Hps) & dialled & reached & Hev & Hcn & Hd & Hout).
        split; [repeat split; assumption|].
        exists (e :: dialled), (peer :: reached).
        split; [rewrite Hev; cbn; rewrite <- app_assoc; reflexivity|].
        split; [rewrite Hcn; cbn; rewrite <- app_assoc; reflexivity|].
        split; [constructor; [split; assumption | exact Hd]|].
        change (connected_peers m1) with (connected_peers m) in Hout.
        destruct (connect_to_each draws (Datatypes.S i) peers m1).2 as [[]|err].
        -- rewrite Hout. reflexivity.
        -- destruct Hout as (peer' & rest & e' & Hf & Hin' & Hraise).
           exists peer', rest, e'. rewrite Hf. repeat split; assumption.
      * cbn [fst snd]. split; [repeat split|]. exists [], []. cbn. rewrite !app_nil_r.
        split; [reflexivity|]. split; [reflexivity|]. split; [constructor|].
        exists peer, (filter (fun peer => can_dial (connected_peers m) peer = true) peers), e.
        repeat split; assumption.
Qed.


(** X25. A start that fails.  When the first vertex the storage lists is
    a block that the replay accepts, the block count of the storage is a
    multiple of [blocks_per_difficulty] and the window of latest blocks,
    that block included, is shorter than [blocks_per_difficulty],
    [doStart] raises the [AssertionError] of
    [calculate_block_difficulty]: the replay retargets on a window it has
    not filled yet. *)
Theorem doStart_raises_on_short_window
    (draws : nat -> nat) (m : HathorManager S) (tx : BaseTransaction)
    (rest : list BaseTransaction) :
  _topological_sort (tx_storage m) = tx :: rest ->
  is_block tx = true ->
  validate_new_tx verify (set_state (Some INITIALIZING) m) tx = true ->
  Z.of_nat (length (latest_blocks m)) + 1 < blocks_per_difficulty m ->
  get_block_count (_add_to_cache (tx_storage m) tx) `mod` blocks_per_difficulty m = 0 ->
  doStart verify draws m = Raise AssertionError.
Proof.
  intros Hsort Hb Hv Hshort Hmod.
  assert (Hon : on_new_tx verify (set_state (Some INITIALIZING) m) tx None
                = Raise AssertionError).
  { apply on_new_tx_short_window; try assumption.
    - cbn. lia.
    - rewrite integrate_storage. cbn [state set_state tx_storage].
      rewrite bool_decide_eq_true_2 by reflexivity. exact Hmod. }
  unfold doStart, _initialize_components.
  set (n0 := call (Publish MANAGER_ON_START) _).
  set (n1 := if wallet (manager n0) then call WalletManuallyInitialize n0 else n0).
  assert (Hm1 : manager n1 = set_state (Some INITIALIZING) m).
  { subst n1 n0. cbn. destruct (wallet m); reflexivity. }
  rewrite Hm1. cbn [tx_storage set_state]. rewrite Hsort.
  cbn [replay].
  assert (Hrun : run (fun m0 => on_new_tx verify m0 tx None) n1 = Raise AssertionError)
    by (unfold run; rewrite Hm1, Hon; reflexivity).
  rewrite Hrun. reflexivity.
Qed.

(** X15. [reconnect_to_all] on a started node takes the known peers in
    the order of the peer storage and dials once each one that has an
    entrypoint and is not among the connected peers, at one of its
    entrypoints, as long as [clientFromString] parses the entrypoint taken;
    it dials no other.  The dials are recorded and they join the pending
    connections in that order.  The call returns when it has gone through
    all these peers; at the first entrypoint that [clientFromString] does
    not parse it raises the exception of [clientFromString], and the peers
    after that one are not dialled.  The connected peers and the peer
    storage are left as they are. *)
Theorem reconnect_to_all_dials (draws : nat -> nat) (m : HathorManager S) :
  started m ->
  let m' := (reconnect_to_all draws m).1 in
  let outcome := (reconnect_to_all draws m).2 in
  connected_peers m' = connected_peers m
  /\ peer_storage m' = peer_storage m
  /\ exists dialled reached,
       events m' = events m ++ (ConnectTo <$> dialled)
       /\ connecting_peers m' = connecting_peers m ++ dialled
       /\ Forall2 (fun e peer => e ∈ entrypoints peer /\ clientFromString e = Ok tt)
            dialled reached
       /\ match outcome with
          | Ok _ =>
              reached = filter (fun peer => can_dial (connected_peers m) peer = true)
                          (peer_storage m)
          | Raise err =>
              exists peer rest e,
                filter (fun peer => can_dial (connected_peers m) peer = true) (peer_storage m)
                = reached ++ peer :: rest
                /\ e ∈ entrypoints peer /\ clientFromString e = Raise err
          end.
Proof.
  intros _. cbn zeta. unfold reconnect_to_all.
  destruct (connect_to_each_spec draws 0 (peer_storage m) m)
    as ((_ & _ & _ & Hc & Hp) & Hdials).
  split; [exact Hc|]. split; [exact Hp|]. exact Hdials.
Qed.

End WithStorage.

End RunningFacts.

(** ** The index keeping of the HD wallet *)

Module HDWalletFacts.

Import HDWallet.

Section Keys.

Context {Key ChainKey : Type}.
Variable chain_key_of : string -> string -> ChainKey.
Variable subkey : ChainKey -> Z -> Key.
Variable child_index : Key -> Z.
Variable get_address : Key -> string.
Variable Mnemonic : string -> option (string -> bool).
Variable decode : bytes -> option string.

Local Abbreviation Wallet := (HDWallet Key ChainKey).
Local Abbreviation check := (HDWallet.check Mnemonic).

(** Words that pass the check of a language: the language has its word
    list. *)
Lemma check_true (l ws : string) :
  check l ws = true -> exists check_words, Mnemonic l = Some check_words.
Proof. unfold HDWallet.check. destruct (Mnemonic l); [eauto | discriminate]. Qed.

Lemma store_key_keeps (index : Z) (k : Key) (w : Wallet) (a : string) :
  is_Some (keys w !! a) -> is_Some (keys (store_key get_address index k w) !! a).
Proof.
  intros Ha. cbn. destruct (decide (get_address k = a)) as [<-|Hne].
  - rewrite lookup_insert_eq. eauto.
  - rewrite lookup_insert_ne by exact Hne. exact Ha.
Qed.

Lemma generate_new_key_ok (index : Z) (w : Wallet) (ck : ChainKey) :
  chain_key w = Some ck ->
  generate_new_key subkey get_address index w
  = Returned tt (store_key get_address index (subkey ck index) w).
Proof. intros Hck. unfold generate_new_key. rewrite Hck. reflexivity. Qed.

Lemma for_range_generate (n : nat) (i : Z) (w : Wallet) (ck : ChainKey) :
  chain_key w = Some ck ->
  exists w',
    for_range i n (generate_new_key subkey get_address) w = Returned tt w'
    /\ chain_key w' = Some ck
    /\ last_shared_index w' = last_shared_index w
    /\ gap_limit w' = gap_limit w
    /\ published w' = published w
    /\ last_generated_index w'
       = (if decide (n = 0%nat) then last_generated_index w else i + Z.of_nat n - 1)
    /\ (forall a, is_Some (keys w !! a) -> is_Some (keys w' !! a))
    /\ (forall j, i <= j < i + Z.of_nat n -> is_Some (keys w' !! get_address (subkey ck j))).
Proof.
  revert i w. induction n as [|n IH]; intros i w Hck.
  - exists w. cbn. repeat split; auto. intros j Hj. lia.
  - cbn [for_range]. unfold mbind, Method_bind.
    rewrite (generate_new_key_ok i w ck Hck).
    destruct (IH (i + 1) (store_key get_address i (subkey ck i) w) Hck)
      as (w' & Hrun & Hck' & Hs & Hg & Hp & Hl & Hk & Hc).
    exists w'. split; [exact Hrun|]. split; [exact Hck'|].
    rewrite Hs, Hg, Hp, Hl. cbn. repeat split.
    + rewrite (decide_False (P := Datatypes.S n = 0%nat)) by lia.
      destruct (decide (n = 0%nat)); lia.
    + intros a Ha. apply Hk, store_key_keeps, Ha.
    + intros j Hj. destruct (decide (j = i)) as [->|Hne].
      * apply Hk. cbn. rewrite lookup_insert_eq. eauto.
      * apply Hc. lia.
Qed.

Lemma for_times_generate (n : nat) (w : Wallet) (ck : ChainKey) :
  chain_key w = Some ck ->
  exists w',
    for_times n (generate_next_key subkey get_address) w = Returned tt w'
    /\ chain_key w' = Some ck
    /\ last_shared_index w' = last_shared_index w
    /\ gap_limit w' = gap_limit w
    /\ published w' = published w
    /\ last_generated_index w' = last_generated_index w + Z.of_nat n
    /\ (forall a, is_Some (keys w !! a) -> is_Some (keys w' !! a))
    /\ (forall j, last_generated_index w < j <= last_generated_index w + Z.of_nat n ->
          is_Some (keys w' !! get_address (subkey ck j))).
Proof.
  revert w. induction n as [|n IH]; intros w Hck.
  - exists w. cbn. repeat split; auto; [lia|]. intros j Hj. lia.
  - cbn [for_times]. unfold mbind, Method_bind, generate_next_key at 1.
    rewrite (generate_new_key_ok _ w ck Hck).
    set (k := subkey ck (last_generated_index w + 1)).
    destruct (IH (store_key get_address (last_generated_index w + 1) k w) Hck)
      as (w' & Hrun & Hck' & Hs & Hg & Hp & Hl & Hk & Hc).
    exists w'. split; [exact Hrun|]. split; [exact Hck'|].
    rewrite Hs, Hg, Hp, Hl. cbn. repeat split.
    + lia.
    + intros a Ha. apply Hk, store_key_keeps, Ha.
    + intros j Hj. destruct (decide (j = last_generated_index w + 1)) as [->|Hne].
      * apply Hk. cbn. rewrite lookup_insert_eq. eauto.
      * apply Hc. cbn. lia.
Qed.

Lemma _manually_initialize_ok (w : Wallet) (ws pass : string) :
  words w = Some ws -> ws <> EmptyString -> check (language w) ws = true ->
  decode (passphrase w) = Some pass ->
  1 <= gap_limit w ->
  exists w',
    _manually_initialize chain_key_of subkey get_address Mnemonic decode w = Returned tt w'
    /\ chain_key w' = Some (chain_key_of ws pass)
    /\ last_generated_index w' = gap_limit w - 1
    /\ last_shared_index w' = last_shared_index w
    /\ gap_limit w' = gap_limit w
    /\ (forall j, 0 <= j < gap_limit w ->
          is_Some (keys w' !! get_address (subkey (chain_key_of ws pass) j))).
Proof.
  intros Hw Hne Hck Hdec Hgap.
  destruct (check_true _ _ Hck) as (check_words & Hm).
  unfold _manually_initialize. rewrite Hm. cbn [words set_mnemonic]. rewrite Hw.
  rewrite (proj2 (String.eqb_neq ws EmptyString) Hne).
  unfold mbind, Method_bind, validate_words. cbn [words mnemonic set_mnemonic]. rewrite Hw.
  rewrite (proj2 (String.eqb_neq ws EmptyString) Hne), Hck.
  cbn [passphrase set_mnemonic gap_limit]. rewrite Hdec.
  destruct (for_range_generate (Z.to_nat (gap_limit w)) 0
              (set_chain_key (chain_key_of ws pass) (set_mnemonic (language w) w))
              (chain_key_of ws pass) eq_refl)
    as (w' & Hrun & Hck' & Hs & Hg & Hp & Hl & Hk & Hc).
  exists w'. split; [exact Hrun|]. split; [exact Hck'|].
  rewrite decide_False in Hl by lia.
  split; [lia|]. split; [exact Hs|]. split; [exact Hg|].
  intros j Hj. apply Hc. lia.
Qed.

Lemma tokens_received_ok (w : Wallet) (address58 : string) (k : Key) :
  keys w !! address58 = Some k ->
  1 <= gap_limit w ->
  indexes_kept subkey get_address w ->
  exists w',
    tokens_received subkey child_index get_address address58 w = Returned tt w'
    /\ indexes_kept subkey get_address w'
    /\ last_generated_index w'
       = Z.max (last_generated_index w) (child_index k + gap_limit w)
    /\ last_shared_index w' = Z.max (last_shared_index w) (child_index k + 1)
    /\ gap_limit w' = gap_limit w
    /\ published w' = published w
    /\ chain_key w' = chain_key w
    /\ (forall a, is_Some (keys w !! a) -> is_Some (keys w' !! a)).
Proof.
  unfold tokens_received. intros Hk Hgap (ck & Hck & (H0 & Hle) & Hcov). rewrite Hk.
  unfold mbind, Method_bind.
  destruct (Z.gtb_spec (gap_limit w - (last_generated_index w - child_index k)) 0)
    as [Hgt|Hngt].
  - destruct (for_times_generate
                (Z.to_nat (gap_limit w - (last_generated_index w - child_index k))) w ck Hck)
      as (w1 & Hrun & Hck1 & Hs & Hg & Hp & Hl & Hkeep & Hc).
    rewrite Hrun. eexists. split; [reflexivity|].
    split; [exists ck|];
      cbn [last_shared_index last_generated_index set_last_shared_index
           gap_limit published keys chain_key];
      rewrite ?Hs, ?Hl, ?Hg, ?Hp; repeat split; try lia; try congruence; try exact Hkeep.
    intros j Hj. destruct (decide (j <= last_generated_index w)).
    + apply Hkeep, Hcov. lia.
    + apply Hc. lia.
  - cbn [mret Method_ret]. eexists. split; [reflexivity|].
    split; [exists ck|];
      cbn [last_shared_index last_generated_index set_last_shared_index
           gap_limit published keys chain_key];
      repeat split; try lia; try congruence; auto.
Qed.

(** X16. [_manually_initialize] on a wallet with valid words, a passphrase
    that decodes and a gap limit of at least 1 sets the chain key and
    generates the keys of the indexes below the gap limit: the last
    generated index is [gap_limit - 1] and every address up to it has its
    key, so that a wallet that has shared nothing yet keeps its indexes.
    The call starts with [Mnemonic(self.language)]: for a language without
    a word list it raises there and leaves the wallet as it is, which is
    what it does on a wallet that [lock] has left with the language [''],
    unless there is a word list of that name.  With the word list loaded,
    words that do not pass the check raise [InvalidWords] and a passphrase
    that does not decode raises [UnicodeDecodeError], before any key is
    generated, and a wallet without words is left locked. *)
Theorem _manually_initialize_generates (w : Wallet) :
  (forall ws pass,
     words w = Some ws -> ws <> EmptyString -> check (language w) ws = true ->
     decode (passphrase w) = Some pass ->
     1 <= gap_limit w ->
     exists w',
       _manually_initialize chain_key_of subkey get_address Mnemonic decode w = Returned tt w'
       /\ chain_key w' = Some (chain_key_of ws pass)
       /\ last_generated_index w' = gap_limit w - 1
       /\ (forall j, 0 <= j < gap_limit w ->
             is_Some (keys w' !! get_address (subkey (chain_key_of ws pass) j)))
       /\ (last_shared_index w = 0 -> indexes_kept subkey get_address w'))
  /\ (forall ws check_words,
        words w = Some ws -> ws <> EmptyString ->
        Mnemonic (language w) = Some check_words -> check_words ws = false ->
        _manually_initialize chain_key_of subkey get_address Mnemonic decode w
        = Raised InvalidWords (set_mnemonic (language w) w))
  /\ (forall ws, words w = Some ws -> ws <> EmptyString -> check (language w) ws = true ->
        decode (passphrase w) = None ->
        _manually_initialize chain_key_of subkey get_address Mnemonic decode w
        = Raised UnicodeDecodeError (set_mnemonic (language w) w))
  /\ (is_Some (Mnemonic (language w)) ->
      words w = None \/ words w = Some EmptyString ->
      _manually_initialize chain_key_of subkey get_address Mnemonic decode w
      = Returned tt (set_mnemonic (language w) w))
  /\ (Mnemonic (language w) = None ->
      _manually_initialize chain_key_of subkey get_address Mnemonic decode w
      = Raised WordListError w)
  /\ (Mnemonic EmptyString = None ->
      _manually_initialize chain_key_of subkey get_address Mnemonic decode (lock w)
      = Raised WordListError (lock w)).
Proof.
  split; [|split; [|split; [|split; [|split]]]].
  - intros ws pass Hw Hne Hck Hdec Hgap.
    destruct (_manually_initialize_ok w ws pass Hw Hne Hck Hdec Hgap)
      as (w' & Hrun & Hck' & Hl & Hs & Hg & Hc).
    exists w'. split; [exact Hrun|]. split; [exact Hck'|]. split; [exact Hl|].
    split; [exact Hc|].
    intros H0. exists (chain_key_of ws pass). split; [exact Hck'|]. split; [lia|].
    intros j Hj. apply Hc. lia.
  - unfold _manually_initialize. intros ws check_words Hw Hne Hm Hck. rewrite Hm.
    cbn [words set_mnemonic]. rewrite Hw.
    rewrite (proj2 (String.eqb_neq ws EmptyString) Hne).
    unfold mbind, Method_bind, validate_words. cbn [words mnemonic set_mnemonic]. rewrite Hw.
    rewrite (proj2 (String.eqb_neq ws EmptyString) Hne).
    unfold HDWallet.check. rewrite Hm, Hck. reflexivity.
  - unfold _manually_initialize. intros ws Hw Hne Hck Hdec.
    destruct (check_true _ _ Hck) as (check_words & Hm). rewrite Hm.
    cbn [words set_mnemonic].
    rewrite Hw. rewrite (proj2 (String.eqb_neq ws EmptyString) Hne).
    unfold mbind, Method_bind, validate_words. cbn [words mnemonic set_mnemonic]. rewrite Hw.
    rewrite (proj2 (String.eqb_neq ws EmptyString) Hne), Hck.
    cbn [passphrase set_mnemonic]. rewrite Hdec. reflexivity.
  - unfold _manually_initialize. intros [check_words Hm]. rewrite Hm.
    cbn [words set_mnemonic].
    intros [Hw|Hw]; rewrite Hw; reflexivity.
  - unfold _manually_initialize. intros Hm. rewrite Hm. reflexivity.
  - unfold _manually_initialize. intros Hm. cbn [language lock]. rewrite Hm. reflexivity.
Qed.

(** X17. [tokens_received] for an address of the wallet keeps the gap:
    with a gap limit of at least 1, a wallet that keeps its indexes still
    does afterwards, the last generated index is at least [gap_limit]
    above the index of the key that received, every index up to it has
    its key, and the last shared index is above the index that received.
    An address the wallet has no key of raises [KeyError] and leaves the
    wallet as it is. *)
Theorem tokens_received_keeps_gap (w : Wallet) (address58 : string) :
  (forall k, keys w !! address58 = Some k ->
     1 <= gap_limit w ->
     indexes_kept subkey get_address w ->
     exists w',
       tokens_received subkey child_index get_address address58 w = Returned tt w'
       /\ indexes_kept subkey get_address w'
       /\ last_generated_index w'
          = Z.max (last_generated_index w) (child_index k + gap_limit w)
       /\ last_shared_index w' = Z.max (last_shared_index w) (child_index k + 1)
       /\ gap_limit w' = gap_limit w
       /\ published w' = published w)
  /\ (keys w !! address58 = None ->
      tokens_received subkey child_index get_address address58 w
      = Raised (Builtin KeyError) w).
Proof.
  split.
  - intros k Hk Hgap Hkept.
    destruct (tokens_received_ok w address58 k Hk Hgap Hkept)
      as (w' & Hrun & Hk' & Hl & Hs & Hg & Hp & _).
    exists w'. repeat split; assumption.
  - unfold tokens_received. intros Hk. rewrite Hk. reflexivity.
Qed.

(** X18. On a wallet that keeps its indexes [get_unused_address] returns
    an address the wallet has the key of, and the wallet still keeps its
    indexes; the keys and the last generated index are left as they are.
    Without [mark_as_used] the wallet is unchanged.  With it the shared
    index moves up by one while it is not the last generated index; at
    the last generated index it stays, the same address is handed out and
    the gap limit is published.  On a wallet that has no chain key, as
    [__init__] leaves it, the call raises [AttributeError], after the
    marking. *)
Theorem get_unused_address_within_keys (mark_as_used : bool) (w : Wallet) :
  (indexes_kept subkey get_address w ->
   exists a w',
     get_unused_address subkey get_address mark_as_used w = Returned a w'
     /\ is_Some (keys w' !! a)
     /\ (exists ck, chain_key w' = Some ck
                    /\ a = get_address (subkey ck (last_shared_index w')))
     /\ indexes_kept subkey get_address w'
     /\ keys w' = keys w
     /\ last_generated_index w' = last_generated_index w
     /\ (mark_as_used = false -> w' = w)
     /\ (mark_as_used = true -> last_shared_index w <> last_generated_index w ->
         last_shared_index w' = last_shared_index w + 1
         /\ published w' = published w)
     /\ (mark_as_used = true -> last_shared_index w = last_generated_index w ->
         last_shared_index w' = last_shared_index w
         /\ published w' = published w ++ [gap_limit w]))
  /\ (chain_key w = None ->
      exists w',
        get_unused_address subkey get_address mark_as_used w = Raised AttributeError w'
        /\ (mark_as_used = false -> w' = w)
        /\ (mark_as_used = true -> last_shared_index w = last_generated_index w ->
            published w' = published w ++ [gap_limit w])
        /\ (mark_as_used = true -> last_shared_index w <> last_generated_index w ->
            last_shared_index w' = last_shared_index w + 1)).
Proof.
  split.
  - intros (ck & Hck & (H0 & Hle) & Hcov).
    unfold get_unused_address, get_key_at_index, mbind, Method_bind.
    destruct (Z.eqb_spec (last_shared_index w) (last_generated_index w)) as [Heq|Hne];
      destruct mark_as_used; cbn [negb chain_key set_last_shared_index publish_gap_limit];
      rewrite Hck; cbn [mret Method_ret];
      eexists; eexists; (split; [reflexivity|]);
      (split; [cbn; apply Hcov; lia|]);
      (split; [exists ck; split; [exact Hck|reflexivity]|]);
      (split; [exists ck; split; [exact Hck|]; split; [cbn; lia | exact Hcov]|]);
      (split; [reflexivity|]);
      (split; [reflexivity|]);
      (split; [intros; first [reflexivity | discriminate]|]);
      split; intros; first [discriminate | lia | split; reflexivity].
  - intros Hck.
    unfold get_unused_address, get_key_at_index, mbind, Method_bind.
    destruct (Z.eqb_spec (last_shared_index w) (last_generated_index w)) as [Heq|Hne];
      destruct mark_as_used; cbn [negb chain_key set_last_shared_index publish_gap_limit];
      rewrite Hck; eexists; (split; [reflexivity|]);
      (split; [intros; first [reflexivity | discriminate]|]);
      split; intros; first [discriminate | lia | reflexivity].
Qed.

(** X26. [lock] empties the wallet but leaves its chain key.  A wallet
    that was initialized and then locked is locked and has no key, and
    [get_unused_address] still returns on it: it hands out the address of
    index 0, publishing the gap limit when [mark_as_used] is set.  The
    wallet has no key for that address, so [tokens_received] for it raises
    [KeyError]. *)
Theorem lock_then_get_unused_address (mark_as_used : bool) (w : Wallet) (ck : ChainKey) :
  chain_key w = Some ck ->
  is_locked (lock w) = true
  /\ keys (lock w) = ∅
  /\ exists w',
       get_unused_address subkey get_address mark_as_used (lock w)
       = Returned (get_address (subkey ck 0)) w'
       /\ keys w' = ∅
       /\ last_shared_index w' = 0
       /\ published w' = published w ++ (if mark_as_used then [gap_limit w] else [])
       /\ tokens_received subkey child_index get_address (get_address (subkey ck 0)) w'
          = Raised (Builtin KeyError) w'.
Proof.
  intros Hck. split; [reflexivity|]. split; [reflexivity|].
  unfold get_unused_address, get_key_at_index, mbind, Method_bind.
  cbn [lock last_shared_index last_generated_index Z.eqb negb].
  destruct mark_as_used; cbn [chain_key publish_gap_limit lock]; rewrite Hck;
    cbn [mret Method_ret];
    eexists; (split; [reflexivity|]);
    cbn [keys last_shared_index published gap_limit publish_gap_limit lock];
    rewrite ?app_nil_r; repeat split;
    unfold tokens_received; cbn [keys]; rewrite lookup_empty; reflexivity.
Qed.

Lemma wallet_call_keeps (c : WalletCall) (w : Wallet) :
  1 <= gap_limit w ->
  indexes_kept subkey get_address w ->
  let o := wallet_call subkey child_index get_address c w in
  indexes_kept subkey get_address (final o)
  /\ gap_limit (final o) = gap_limit w
  /\ last_generated_index w <= last_generated_index (final o)
  /\ last_shared_index w <= last_shared_index (final o)
  /\ (forall a, is_Some (keys w !! a) -> is_Some (keys (final o) !! a))
  /\ (forall e w', o = Raised e w' -> e = Builtin KeyError /\ w' = w).
Proof.
  intros Hgap Hkept. destruct c as [address58|mark_as_used]; cbn [wallet_call]; cbn zeta.
  - destruct (keys w !! address58) as [k|] eqn:Hk.
    + destruct (tokens_received_ok w address58 k Hk Hgap Hkept)
        as (w1 & Hrun & Hk1 & Hl & Hs & Hg & _ & _ & Hkeys).
      rewrite Hrun. cbn [final].
      split; [exact Hk1|]. split; [exact Hg|]. split; [lia|]. split; [lia|].
      split; [exact Hkeys|]. intros e w' Hr. discriminate Hr.
    + unfold tokens_received. rewrite Hk. cbn [final].
      split; [exact Hkept|]. split; [reflexivity|]. split; [lia|]. split; [lia|].
      split; [auto|]. intros e w' Hr. injection Hr as <- <-. split; reflexivity.
  - pose proof Hkept as (ck & Hck & (H0 & Hle) & Hcov).
    unfold get_unused_address, get_key_at_index, mbind, Method_bind.
    destruct (Z.eqb_spec (last_shared_index w) (last_generated_index w)) as [Heq|Hneq],
        mark_as_used;
      cbn [negb chain_key set_last_shared_index publish_gap_limit];
      rewrite Hck; cbn [mret Method_ret final];
      (split; [exists ck; split; [exact Hck|]; split; [cbn; lia | exact Hcov]|]);
      cbn; repeat split; auto; try lia; discriminate.
Qed.

Lemma wallet_calls_keep (cs : list WalletCall) (w : Wallet) :
  1 <= gap_limit w ->
  indexes_kept subkey get_address w ->
  let o := wallet_calls subkey child_index get_address cs w in
  indexes_kept subkey get_address (final o)
  /\ gap_limit (final o) = gap_limit w
  /\ last_generated_index w <= last_generated_index (final o)
  /\ last_shared_index w <= last_shared_index (final o)
  /\ (forall a, is_Some (keys w !! a) -> is_Some (keys (final o) !! a))
  /\ (forall e w', o = Raised e w' -> e = Builtin KeyError).
Proof.
  revert w. induction cs as [|c cs IH]; intros w Hgap Hkept; cbn [wallet_calls]; cbn zeta.
  - cbn. repeat split; auto; try lia; try apply Hkept. intros e w' Hr. discriminate Hr.
  - unfold mbind, Method_bind.
    pose proof (wallet_call_keeps c w Hgap Hkept) as Hc. cbn zeta in Hc.
    destruct (wallet_call subkey child_index get_address c w) as [[] w2|e w2] eqn:Hcall;
      cbn [final] in Hc; destruct Hc as (Hk2 & Hg2 & Hl2 & Hs2 & Hkeys2 & Hraise).
    + destruct (IH w2) as (Hk3 & Hg3 & Hl3 & Hs3 & Hkeys3 & Hraise3); [lia | exact Hk2 |].
      split; [exact Hk3|]. split; [congruence|]. split; [lia|]. split; [lia|].
      split; [intros a Ha; apply Hkeys3, Hkeys2, Ha|exact Hraise3].
    + cbn [final]. split; [exact Hk2|]. split; [exact Hg2|]. split; [lia|]. split; [lia|].
      split; [exact Hkeys2|].
      intros e' w' Hr. injection Hr as <- <-. apply (Hraise e w2 eq_refl).
Qed.

(** X19. A wallet made by [__init__] with valid words, a passphrase that
    decodes and a gap limit of at least 1 and then initialized keeps its
    indexes through every run of [tokens_received] and
    [get_unused_address] calls, whether the run returns or raises: the
    shared index stays within the generated ones, every generated index
    has its key, no key and no index is ever lost, and the gap limit stays
    the one given.  The only exception of such a run is the [KeyError] of
    [tokens_received] for an address the wallet has no key of. *)
Theorem wallet_calls_keep_indexes (ws language0 pass : string) (passphrase0 : bytes)
    (gap_limit0 word_count0 : Z) (w0 : Wallet) :
  __init__ (Some ws) language0 passphrase0 gap_limit0 word_count0 = Ok w0 ->
  ws <> EmptyString ->
  check language0 ws = true ->
  decode passphrase0 = Some pass ->
  1 <= gap_limit0 ->
  exists w1,
    _manually_initialize chain_key_of subkey get_address Mnemonic decode w0 = Returned tt w1
    /\ indexes_kept subkey get_address w1
    /\ forall cs,
         let o := wallet_calls subkey child_index get_address cs w1 in
         indexes_kept subkey get_address (final o)
         /\ gap_limit (final o) = gap_limit0
         /\ gap_limit0 - 1 <= last_generated_index (final o)
         /\ (forall a, is_Some (keys w1 !! a) -> is_Some (keys (final o) !! a))
         /\ (forall e w', o = Raised e w' -> e = Builtin KeyError).
Proof.
  intros Hinit Hne Hck Hdec Hgap.
  assert (Hw0 : words w0 = Some ws /\ gap_limit w0 = gap_limit0
                /\ last_shared_index w0 = 0 /\ language w0 = language0
                /\ passphrase w0 = passphrase0).
  { unfold __init__ in Hinit.
    destruct (bool_decide (word_count0 ∈ WORD_COUNT_CHOICES)); [|discriminate].
    injection Hinit as <-. repeat split. }
  destruct Hw0 as (Hws & Hg0 & Hs0 & Hl0 & Hp0).
  destruct (_manually_initialize_ok w0 ws pass Hws Hne)
    as (w1 & Hrun & Hck1 & Hl1 & Hs1 & Hg1 & Hc1); [congruence | congruence | lia |].
  assert (Hkept : indexes_kept subkey get_address w1).
  { exists (chain_key_of ws pass). split; [exact Hck1|]. split; [lia|].
    intros j Hj. apply Hc1. lia. }
  exists w1. split; [exact Hrun|]. split; [exact Hkept|].
  intros cs. cbn zeta.
  destruct (wallet_calls_keep cs w1) as (Hk & Hg & Hl & _ & Hkeys & Hraise);
    [lia | exact Hkept |].
  split; [exact Hk|]. split; [congruence|]. split; [lia|]. split; [exact Hkeys|exact Hraise].
Qed.

End Keys.

End HDWalletFacts.

(** ** The JSON round trip of the metadata in general *)

Module MetadataReadFacts.

Import Metadata MetadataReads MetadataFacts.

Lemma reads_only_ret {A : Type} (a : A) : reads_only (mret a).
Proof. intros h a' h' [= _ <-]. reflexivity. Qed.

Lemma reads_only_bind {A B : Type} (c : M A) (k : A -> M B) :
  reads_only c -> (forall a, reads_only (k a)) -> reads_only (c ≫= k).
Proof.
  intros Hc Hk h b h' Hrun. unfold mbind, M_bind in Hrun.
  destruct (c h) as [[a h1]|e] eqn:E; [|discriminate].
  apply Hc in E as ->. eapply Hk, Hrun.
Qed.

Lemma reads_only_read_set (l : loc) : reads_only (read_set l).
Proof.
  intros h a h'. unfold read_set.
  destruct (h !! l) as [[| |]|]; try discriminate. intros [= _ <-]. reflexivity.
Qed.

Lemma reads_only_read_intset (l : loc) : reads_only (read_intset l).
Proof.
  intros h a h'. unfold read_intset.
  destruct (h !! l) as [[| |]|]; try discriminate. intros [= _ <-]. reflexivity.
Qed.

Lemma reads_only_read_dict (l : loc) : reads_only (read_dict l).
Proof.
  intros h a h'. unfold read_dict.
  destruct (h !! l) as [[| |]|]; try discriminate. intros [= _ <-]. reflexivity.
Qed.

Lemma reads_only_mapM {A B : Type} (f : A -> M B) (xs : list A) :
  (forall x, reads_only (f x)) -> reads_only (mapM f xs).
Proof.
  intros Hf. induction xs as [|x xs IH]; cbn [mapM].
  - apply reads_only_ret.
  - apply reads_only_bind; [apply Hf|]. intros y.
    apply reads_only_bind; [exact IH|]. intros ys. apply reads_only_ret.
Qed.

Lemma well_formed_to_json (h : heap) (m : TransactionMetadata) :
  well_formed h m ->
  exists d rb ch cw vb tw,
    h !! spent_outputs m = Some (ODict d)
    /\ map_Forall (fun _ l => is_Some (set_at h l)) d
    /\ set_at h (conflict_with m) = Some cw
    /\ set_at h (voided_by m) = Some vb
    /\ h !! received_by m = Some (OIntSet rb)
    /\ set_at h (children m) = Some ch
    /\ set_at h (twins m) = Some tw.
Proof.
  intros ((d & Hd & Hall) & [cw Hcw] & [vb Hvb] & [rb Hrb] & [ch Hch] & [tw Htw]).
  exists d, rb, ch, cw, vb, tw. repeat split; assumption.
Qed.

(** X20. [to_json] only reads: whatever it returns, the heap is the one
    it was called on, so that no set and no dictionary of the metadata is
    changed by serializing it.  On a metadata object whose attributes
    hold objects of the annotated types it does return, with the weight
    and the score as they are and one entry for each spent output. *)
Theorem to_json_reads_only (h : heap) (m : TransactionMetadata) :
  (forall data h', to_json m h = Ok (data, h') -> h' = h)
  /\ (well_formed h m ->
      exists data d,
        to_json m h = Ok (data, h)
        /\ h !! spent_outputs m = Some (ODict d)
        /\ (fst <$> j_spent_outputs data) = (fst <$> map_to_list d)
        /\ j_accumulated_weight data = accumulated_weight m
        /\ j_score data = Some (score m)).
Proof.
  split.
  - assert (Hro : reads_only (to_json m)); [|intros data h'; apply Hro].
    unfold to_json.
    apply reads_only_bind; [apply reads_only_read_dict|]. intros d.
    apply reads_only_bind.
    { apply reads_only_mapM. intros [idx l].
      apply reads_only_bind; [apply reads_only_read_set|]. intros s. apply reads_only_ret. }
    intros data_spent.
    apply reads_only_bind; [apply reads_only_read_intset|]. intros rb.
    do 4 (apply reads_only_bind; [apply reads_only_read_set|]; intros ?).
    apply reads_only_ret.
  - intros Hwf.
    destruct (well_formed_to_json h m Hwf)
      as (d & rb & ch & cw & vb & tw & Hd & Hall & Hcw & Hvb & Hrb & Hch & Htw).
    eexists. exists d. split; [exact (to_json_ok h m d rb ch cw vb tw Hd Hall Hcw Hvb Hrb Hch Htw)|].
    split; [exact Hd|]. cbn. repeat split.
    unfold spender_items. rewrite <- !list_fmap_compose.
    apply list_fmap_ext. intros _ [idx l] _. reflexivity.
Qed.

(** X21. A metadata object without a hash cannot be copied: for a hash
    that is [None] or the empty [bytes], [to_json] writes a value that is
    not a string and [clone] raises the [TypeError] of [bytes.fromhex]. *)
Theorem clone_needs_hash (h : heap) (m : TransactionMetadata) :
  well_formed h m ->
  hash m = None \/ hash m = Some [] ->
  clone m h = Raise TypeError.
Proof.
  intros Hwf Hhash.
  destruct (well_formed_to_json h m Hwf)
    as (d & rb & ch & cw & vb & tw & Hd & Hall & Hcw & Hvb & Hrb & Hch & Htw).
  pose proof (to_json_ok h m d rb ch cw vb tw Hd Hall Hcw Hvb Hrb Hch Htw) as Hjson.
  unfold clone. run Hjson.
  destruct Hhash as [-> | ->]; reflexivity.
Qed.

(** X22. [__eq__] of a metadata object with itself: on attributes of the
    annotated types it returns, reads only, and answers [True] exactly
    when neither [accumulated_weight] nor [score] is NaN. *)
Theorem __eq___self (h : heap) (m : TransactionMetadata) :
  well_formed h m ->
  __eq__ m m h
  = Ok (negb (is_nan (accumulated_weight m)) && negb (is_nan (score m)), h).
Proof.
  intros Hwf.
  destruct (well_formed_to_json h m Hwf)
    as (d & rb & ch & cw & vb & tw & Hd & Hall & Hcw & Hvb & Hrb & Hch & Htw).
  assert (Hso : read_contents (spent_outputs m) h = Ok (omap (set_at h) d, h)).
  { unfold read_contents, contents. rewrite Hd. rewrite decide_True by exact Hall.
    reflexivity. }
  assert (Hri : read_intset (received_by m) h = Ok (rb, h)).
  { unfold read_intset. rewrite Hrb. reflexivity. }
  unfold __eq__.
  run Hso. run Hso.
  run (read_set_ok _ _ _ Hcw). run (read_set_ok _ _ _ Hcw).
  run (read_set_ok _ _ _ Hvb). run (read_set_ok _ _ _ Hvb).
  run Hri. run Hri.
  run (read_set_ok _ _ _ Hch). run (read_set_ok _ _ _ Hch).
  run (read_set_ok _ _ _ Htw). run (read_set_ok _ _ _ Htw).
  rewrite !bool_decide_eq_true_2 by reflexivity. unfold is_nan. cbn [negb].
  destruct (accumulated_weight m =? accumulated_weight m)%float;
    destruct (score m =? score m)%float; reflexivity.
Qed.

(** Built from the items of any dictionary, the contents are those of the
    dictionary without its empty sets. *)
Lemma add_spenders_items_nonempty (its : list (Z * gset bytes)) (acc : gmap Z (gset bytes))
    (idx : Z) :
  NoDup (fst <$> its) ->
  Forall (fun it => acc !! it.1 = None) its ->
  foldl add_spenders acc ((fun it => (it.1, elements it.2)) <$> its) !! idx
  = match (list_to_map its : gmap Z (gset bytes)) !! idx with
    | Some s => nonempty s
    | None => acc !! idx
    end.
Proof.
  revert acc. induction its as [|[i s] its IH]; intros acc Hnd Hall.
  - cbn. rewrite lookup_empty. reflexivity.
  - cbn [fmap list_fmap foldl fst snd].
    apply NoDup_cons in Hnd as [Hi Hnd]. apply Forall_cons in Hall as [Hacc Hall].
    cbn [fst snd] in *.
    assert (Hrest : (list_to_map its : gmap Z (gset bytes)) !! i = None)
      by (apply not_elem_of_list_to_map_1, Hi).
    cbn [list_to_map foldr uncurry fst snd].
    destruct (decide (s = ∅)) as [->|Hs].
    + rewrite elements_empty. unfold add_spenders at 2. cbn [foldl snd].
      rewrite IH by assumption.
      destruct (decide (idx = i)) as [->|Hne].
      * rewrite lookup_insert_eq, Hrest. unfold nonempty.
        rewrite decide_True by reflexivity. exact Hacc.
      * rewrite lookup_insert_ne by congruence. reflexivity.
    + rewrite add_spenders_insert.
      2: { intros He. apply Hs. apply elements_empty_inv in He. apply leibniz_equiv, He. }
      rewrite Hacc, list_to_set_elements_L. cbn [default].
      rewrite (right_id_L ∅ (∪)).
      rewrite IH.
      * destruct (decide (idx = i)) as [->|Hne].
        -- rewrite Hrest, !lookup_insert_eq. unfold nonempty.
           rewrite decide_False by exact Hs. reflexivity.
        -- rewrite !lookup_insert_ne by congruence. reflexivity.
      * exact Hnd.
      * apply Forall_forall. intros it Hit.
        rewrite Forall_forall in Hall.
        rewrite lookup_insert_ne; [exact (Hall it Hit)|].
        intros ->. apply Hi. apply list_elem_of_fmap. exists it. auto.
Qed.

Lemma add_spenders_spender_items_nonempty (h : heap) (d : gmap Z loc) (idx : Z) :
  map_Forall (fun _ l => is_Some (set_at h l)) d ->
  foldl add_spenders ∅ (spender_items h d) !! idx
  = omap (set_at h) d !! idx ≫= nonempty.
Proof.
  intros Hall. unfold spender_items.
  set (f := fun l : loc => default ∅ (set_at h l)).
  replace ((fun it : Z * loc => (it.1, elements (default ∅ (set_at h it.2)))) <$> map_to_list d)
    with ((fun it : Z * gset bytes => (it.1, elements it.2))
            <$> (prod_map Datatypes.id f <$> map_to_list d)).
  2: { rewrite <- list_fmap_compose. apply list_fmap_ext. intros _ [i l] _. reflexivity. }
  rewrite add_spenders_items_nonempty.
  - rewrite list_to_map_fmap, list_to_map_to_list, lookup_fmap, lookup_omap, lookup_empty.
    destruct (d !! idx) as [l|] eqn:Hl; [|reflexivity]. cbn.
    destruct (Hall _ _ Hl) as [s Hs]. subst f. cbn. rewrite Hs. reflexivity.
  - rewrite <- list_fmap_compose.
    replace (fst ∘ prod_map Datatypes.id f) with (fst : Z * loc -> Z) by reflexivity.
    apply NoDup_fst_map_to_list.
  - apply Forall_forall. intros it _. apply lookup_empty.
Qed.

(** An empty [first_block] is written as the empty string, which
    [create_from_json] reads as it reads [None]. *)
Lemma create_from_json_first_block (data : Json) (fb : option bytes) :
  j_first_block data = Some match fb with
                            | Some x => PyStr (Hex.hex x)
                            | None => PyNone
                            end ->
  create_from_json data
  = create_from_json
      {| j_hash := j_hash data; j_spent_outputs := j_spent_outputs data;
         j_received_by := j_received_by data; j_children := j_children data;
         j_conflict_with := j_conflict_with data; j_voided_by := j_voided_by data;
         j_twins := j_twins data; j_accumulated_weight := j_accumulated_weight data;
         j_score := j_score data;
         j_first_block := Some match kept_first_block fb with
                               | Some x => PyStr (Hex.hex x)
                               | None => PyNone
                               end |}.
Proof.
  intros Hfb. unfold create_from_json.
  cbn [j_hash j_spent_outputs j_received_by j_children j_conflict_with j_voided_by
       j_twins j_accumulated_weight j_score j_first_block].
  rewrite Hfb. destruct fb as [[|x b]|]; reflexivity.
Qed.

(** X23. What [clone] keeps, whatever the metadata holds.  For a metadata
    object with attributes of the annotated types and a non-empty hash,
    [clone] returns a copy with the same hash, weight and score and with
    sets of the same elements; the objects that were in the heap are left
    as they were.  An empty [first_block] comes back as [None], and of
    [spent_outputs] the copy has the outputs whose set of spenders is not
    empty, each with the same spenders. *)
Theorem clone_keeps (h : heap) (m : TransactionMetadata) (b : bytes) :
  well_formed h m ->
  hash m = Some b ->
  b <> [] ->
  exists m' h' so so',
    clone m h = Ok (m', h')
    /\ hash m' = Some b
    /\ accumulated_weight m' = accumulated_weight m
    /\ score m' = score m
    /\ first_block m' = kept_first_block (first_block m)
    /\ same_below (length h) h h'
    /\ read_contents (spent_outputs m) h = Ok (so, h)
    /\ read_contents (spent_outputs m') h' = Ok (so', h')
    /\ (forall idx, so' !! idx = so !! idx ≫= nonempty)
    /\ set_at h' (conflict_with m') = set_at h (conflict_with m)
    /\ set_at h' (voided_by m') = set_at h (voided_by m)
    /\ h' !! received_by m' = h !! received_by m
    /\ set_at h' (children m') = set_at h (children m)
    /\ set_at h' (twins m') = set_at h (twins m).
Proof.
  intros Hwf Hhash Hb.
  destruct (well_formed_to_json h m Hwf)
    as (d & rb & ch & cw & vb & tw & Hd & Hall & Hcw & Hvb & Hrb & Hch & Htw).
  pose proof (to_json_ok h m d rb ch cw vb tw Hd Hall Hcw Hvb Hrb Hch Htw) as Hjson.
  rewrite Hhash in Hjson. destruct b as [|x b]; [congruence|].
  assert (Hkept : kept_first_block (first_block m) <> Some []).
  { destruct (first_block m) as [[|y fb]|]; discriminate. }
  destruct (create_from_json_ok h (x :: b) (spender_items h d) rb ch cw vb tw
              (accumulated_weight m) (score m) (kept_first_block (first_block m)) Hkept)
    as (h2 & Hcreate & Hinv & Hsame & Hlen).
  set (ext := [OIntSet rb; OSet ch; OSet cw; OSet vb; OSet tw]) in *.
  assert (Hnew : forall i o, ext !! i = Some o -> (h2 ++ ext) !! (length h2 + i)%nat = Some o).
  { intros i o Hi. rewrite lookup_app_r by lia.
    replace (length h2 + i - length h2)%nat with i by lia. exact Hi. }
  eexists. exists (h2 ++ ext), (omap (set_at h) d),
    (foldl add_spenders ∅ (spender_items h d)).
  split.
  { unfold clone. run Hjson.
    rewrite (create_from_json_first_block _ (first_block m)) by reflexivity.
    exact Hcreate. }
  cbn [hash accumulated_weight score first_block spent_outputs conflict_with voided_by
       received_by children twins].
  repeat split.
  - intros l Hl. rewrite lookup_app_l by lia. apply Hsame, Hl.
  - unfold read_contents, contents. rewrite Hd. rewrite decide_True by exact Hall.
    reflexivity.
  - apply loop_invariant_contents, loop_invariant_app, Hinv.
  - intros idx. apply add_spenders_spender_items_nonempty, Hall.
  - rewrite Hcw. apply set_at_Some. apply (Hnew 2%nat). reflexivity.
  - rewrite Hvb. apply set_at_Some. apply (Hnew 3%nat). reflexivity.
  - rewrite Hrb. replace (length h2) with (length h2 + 0)%nat by lia. apply Hnew. reflexivity.
  - rewrite Hch. apply set_at_Some. apply (Hnew 1%nat). reflexivity.
  - rewrite Htw. apply set_at_Some. apply (Hnew 4%nat). reflexivity.
Qed.

End MetadataReadFacts.

(** ** The properties on the sample values *)

Module MoreExampleFacts.

Import Manager Examples Node MoreExamples ManagerFacts NodeFacts RunningFacts.

(** The in-memory storage holds what was saved into it, and holds every
    vertex it returns. *)
Lemma memory_save_exists (s : TransactionMemoryStorage) (v : BaseTransaction) :
  transaction_exists_by_hash_bytes (save_transaction s v) (hash v) = true.
Proof.
  cbn. unfold memory_save. destruct (memory_exists s (hash v)) eqn:He; [exact He|].
  unfold memory_exists. rewrite existsb_app. cbn.
  rewrite bool_decide_eq_true_2 by reflexivity. apply orb_true_r.
Qed.

Lemma memory_get_exists (s : TransactionMemoryStorage) (h : bytes) (v : BaseTransaction) :
  get_transaction_by_hash_bytes s h = Ok v ->
  transaction_exists_by_hash_bytes s h = true.
Proof.
  cbn. unfold memory_get, memory_exists.
  destruct (find _ s) as [sv|] eqn:Hf; [|discriminate]. intros _.
  apply find_some in Hf as [Hin Hb]. apply existsb_exists. exists sv. split; assumption.
Qed.

Lemma validate_new_tx_true_iff_witness :
  validate_new_tx verify_passes started_manager wrong_sum_block = true.
Proof.
  apply (proj2 (validate_new_tx_true_iff verify_passes started_manager wrong_sum_block)).
  split; [right; split; reflexivity|]. split; [reflexivity|]. split; [reflexivity|].
  intros _. right. exists 10%R. split; [reflexivity|]. cbn. lra.
Defined.

Lemma on_new_tx_twice_witness :
  exists m',
    on_new_tx verify_passes started_manager wrong_sum_block None = Ok m'
    /\ on_new_tx verify_passes m' wrong_sum_block (Some 1%nat) = Ok m'.
Proof.
  destruct ExampleFacts.on_new_tx_stores_wrong_sum_block as (m' & Hon & _).
  exists m'. split; [exact Hon|].
  apply (on_new_tx_twice verify_passes started_manager m' wrong_sum_block None (Some 1%nat)).
  - exact memory_save_exists.
  - cbn. discriminate.
  - exact Hon.
Defined.

Lemma on_new_tx_latest_blocks_witness :
  exists m',
    on_new_tx verify_passes started_manager wrong_sum_block None = Ok m'
    /\ (Z.of_nat (length (latest_blocks m')) <= 5).
Proof.
  destruct ExampleFacts.on_new_tx_stores_wrong_sum_block as (m' & Hon & _).
  exists m'. split; [exact Hon|].
  apply (on_new_tx_latest_blocks verify_passes started_manager m' wrong_sum_block None).
  - cbn. lia.
  - exact Hon.
  - cbn. lia.
Defined.

Lemma on_new_tx_changes_weight_only_on_retarget_witness :
  exists m',
    on_new_tx verify_passes started_manager wrong_sum_block None = Ok m'
    /\ state m' = Some WAITING_FOR_PEERS
    /\ connected_peers m' = [].
Proof.
  destruct ExampleFacts.on_new_tx_stores_wrong_sum_block as (m' & Hon & _).
  exists m'. split; [exact Hon|].
  destruct (on_new_tx_changes_weight_only_on_retarget verify_passes started_manager m'
              wrong_sum_block None Hon) as ((Hs & _ & _ & _ & _ & _ & _ & _ & _ & _ & _ & Hc) & _).
  split; [exact Hs|exact Hc].
Defined.

Lemma retarget_manager_difficulty :
  exists avg_dt new_weight,
    calculate_block_difficulty retarget_manager = Ok (avg_dt, new_weight).
Proof.
  eexists. eexists.
  apply (calculate_block_difficulty_general retarget_manager (spaced_block 0) (spaced_block 4));
    try reflexivity; cbn; lra.
Qed.

Lemma calculate_block_difficulty_bounds_witness :
  exists avg_dt new_weight,
    calculate_block_difficulty retarget_manager = Ok (avg_dt, new_weight)
    /\ (10 <= new_weight <= 12)%R.
Proof.
  destruct retarget_manager_difficulty as (avg_dt & new_weight & Hc).
  exists avg_dt, new_weight. split; [exact Hc|].
  destruct (calculate_block_difficulty_bounds retarget_manager avg_dt new_weight)
    as (Hmin & _ & Hmax & _).
  - cbn. lra.
  - exact Hc.
  - cbn in Hmin, Hmax. split; [exact Hmin|].
    unfold Rmax in Hmax. destruct (Rle_dec 10 (10 + 2)); lra.
Defined.

Lemma calculate_block_difficulty_direction_witness :
  exists avg_dt new_weight,
    calculate_block_difficulty retarget_manager = Ok (avg_dt, new_weight)
    /\ (10 <= new_weight)%R.
Proof.
  destruct retarget_manager_difficulty as (avg_dt & new_weight & Hc).
  exists avg_dt, new_weight. split; [exact Hc|].
  destruct (calculate_block_difficulty_direction retarget_manager (spaced_block 0)
              (spaced_block 4) avg_dt new_weight) as (Hshort & _).
  - cbn. lra.
  - reflexivity.
  - reflexivity.
  - exact Hc.
  - apply Hshort.
    assert (E : Z.max 1 (timestamp (spaced_block 4) - timestamp (spaced_block 0)) = 128)
      by reflexivity.
    rewrite E. cbn. lra.
Defined.

Lemma generate_mining_block_result_witness :
  exists blk,
    generate_mining_block GENESIS_ADDRESS 0 fresh_manager = Ok blk
    /\ mb_outputs blk = [ {| value := 10000; script := GENESIS_ADDRESS |} ]
    /\ forall p, p ∈ mb_parents blk ->
         exists v, get_transaction_by_hash_bytes fresh_storage p = Ok v
                   /\ height v < mb_height blk.
Proof.
  eexists. split.
  - apply (generate_mining_block_genesis_block 200000000000 14 14 0%nat). reflexivity.
  - destruct (generate_mining_block_result GENESIS_ADDRESS 0 fresh_manager _
                (generate_mining_block_genesis_block 200000000000 14 14 0%nat
                   fresh_manager GENESIS_ADDRESS 0%nat eq_refl))
      as (_ & Ho & _ & _ & Hp & _).
    split; [exact Ho|exact Hp].
Defined.

Lemma generate_mining_block_raises_witness :
  generate_mining_block GENESIS_ADDRESS 0 lone_tx_manager = Raise IndexError.
Proof.
  apply (proj1 (generate_mining_block_raises GENESIS_ADDRESS 0 lone_tx_manager) genesis_tx1);
    reflexivity.
Defined.

Lemma solved_block_is_accepted_witness :
  exists blk,
    generate_mining_block GENESIS_ADDRESS 0 started_manager = Ok blk
    /\ validate_new_tx verify_passes started_manager
         (solved blk (sample_hash xb1) 7 1539271500) = true.
Proof.
  eexists. split.
  - apply (generate_mining_block_genesis_block 200000000000 14 14 0%nat). reflexivity.
  - apply (solved_block_is_accepted verify_passes GENESIS_ADDRESS 0 started_manager).
    + intros h v. apply memory_get_exists.
    + apply (generate_mining_block_genesis_block 200000000000 14 14 0%nat). reflexivity.
    + reflexivity.
    + right. split; reflexivity.
Defined.

Lemma started_manager_started : started started_manager.
Proof. apply list_elem_of_here. Qed.

Lemma update_peer_dials_witness :
  (update_peer 3 unreachable_peer started_manager).2 = Raise ValueError
  /\ connected_peers (update_peer 3 unreachable_peer started_manager).1 = []
  /\ peer_storage (update_peer 3 unreachable_peer started_manager).1 = [unreachable_peer].
Proof.
  split; [reflexivity|].
  destruct (update_peer_dials 3 unreachable_peer started_manager started_manager_started)
    as (Hc & Hp & _).
  - cbn. discriminate.
  - split; [exact Hc | exact Hp].
Defined.


Lemma reconnect_to_all_dials_witness :
  (reconnect_to_all (fun _ => 0%nat) known_peers_manager).2 = Raise ValueError
  /\ connecting_peers (reconnect_to_all (fun _ => 0%nat) known_peers_manager).1
     = ["tcp:10.0.0.2:40403"]
  /\ connected_peers (reconnect_to_all (fun _ => 0%nat) known_peers_manager).1 = []
  /\ peer_storage (reconnect_to_all (fun _ => 0%nat) known_peers_manager).1
     = [other_peer; unreachable_peer; third_peer].
Proof.
  split; [reflexivity|]. split; [reflexivity|].
  destruct (reconnect_to_all_dials (fun _ => 0%nat) known_peers_manager) as (Hc & Hp & _).
  - apply list_elem_of_here.
  - split; [exact Hc | exact Hp].
Defined.

Lemma on_peer_disconnect_after_witness :
  on_peer_disconnect 3%nat (Some other_peer) (on_peer_connect 3%nat handshaking_node)
  = Raise KeyError.
Proof.
  apply (proj2 (on_peer_disconnect_after 3%nat other_peer handshaking_node)).
  cbn. apply not_elem_of_nil.
Defined.

Lemma same_peer_twice_witness :
  exists n1 n2 n3,
    on_peer_ready 1%nat other_peer handshaking_node = Ok n1
    /\ on_peer_ready 2%nat other_peer n1 = Ok n2
    /\ on_peer_disconnect 1%nat (Some other_peer) n2 = Ok n3
    /\ on_peer_disconnect 2%nat (Some other_peer) n3 = Raise KeyError.
Proof.
  destruct (same_peer_twice 1%nat 2%nat other_peer handshaking_node)
    as (n1 & n2 & n3 & H1 & H2 & _ & _ & H3 & _ & H4).
  - cbn. constructor.
  - cbn. apply elem_of_union. left. apply elem_of_singleton. reflexivity.
  - cbn. apply elem_of_union. right. apply elem_of_singleton. reflexivity.
  - discriminate.
  - exists n1, n2, n3. repeat split; assumption.
Defined.

Lemma on_new_tx_returns_or_raises_witness :
  exists m', on_new_tx verify_passes started_manager wrong_sum_block None = Ok m'.
Proof.
  destruct (proj2 (on_new_tx_returns_or_raises verify_passes started_manager wrong_sum_block
                     None) ExampleFacts.wrong_sum_block_validated eq_refl)
    as (_ & _ & Hreturns & _).
  apply Hreturns.
  - cbn. lia.
  - vm_compute. discriminate.
Defined.

Lemma doStart_raises_on_short_window_witness :
  doStart verify_passes (fun _ => 0%nat) five_block_manager = Raise AssertionError.
Proof.
  apply (doStart_raises_on_short_window verify_passes (fun _ => 0%nat) five_block_manager
           genesis_block (spaced_block <$> [1; 2; 3; 4])).
  - reflexivity.
  - reflexivity.
  - apply validate_new_tx_accepted.
    + left. reflexivity.
    + reflexivity.
    + reflexivity.
    + intros _. apply weight_lt_Num_false. cbn. lra.
  - cbn. lia.
  - reflexivity.
Defined.

End MoreExampleFacts.

Module WalletExampleFacts.

Import HDWallet MoreExamples HDWalletFacts.

Lemma initialized_wallet_keeps : indexes_kept index_key key_address initialized_wallet.
Proof.
  assert (Hlg : last_generated_index initialized_wallet = 2) by reflexivity.
  assert (Hls : last_shared_index initialized_wallet = 0) by reflexivity.
  exists "legal winner"%string. split; [reflexivity|]. rewrite Hlg, Hls. split; [lia|].
  intros j Hj.
  assert (Hcases : j = 0 \/ j = 1 \/ j = 2) by lia.
  destruct Hcases as [-> | [-> | ->]]; vm_compute; eauto.
Qed.

Lemma _manually_initialize_generates_witness :
  exists w',
    _manually_initialize phrase_chain_key index_key key_address check_words decode_any
      sample_wallet = Returned tt w'
    /\ last_generated_index w' = 2.
Proof.
  destruct (proj1 (_manually_initialize_generates phrase_chain_key index_key key_address
                     check_words decode_any sample_wallet)
              "legal winner"%string EmptyString) as (w' & Hrun & _ & Hl & _).
  - reflexivity.
  - discriminate.
  - reflexivity.
  - reflexivity.
  - cbn. lia.
  - exists w'. split; [exact Hrun|exact Hl].
Defined.

Lemma tokens_received_keeps_gap_witness :
  exists w',
    tokens_received index_key key_index key_address (key_address 1) initialized_wallet
    = Returned tt w'
    /\ last_generated_index w' = 4
    /\ last_shared_index w' = 2.
Proof.
  destruct (proj1 (tokens_received_keeps_gap index_key key_index key_address
                     initialized_wallet (key_address 1)) 1)
    as (w' & Hrun & _ & Hl & Hs & _).
  - reflexivity.
  - change (1 <= 3). lia.
  - exact initialized_wallet_keeps.
  - exists w'. split; [exact Hrun|]. split; [exact Hl|exact Hs].
Defined.

Lemma get_unused_address_within_keys_witness :
  exists a w',
    get_unused_address index_key key_address true initialized_wallet = Returned a w'
    /\ is_Some (keys w' !! a).
Proof.
  destruct (proj1 (get_unused_address_within_keys index_key key_address true
                     initialized_wallet) initialized_wallet_keeps)
    as (a & w' & Hrun & Hk & _).
  exists a, w'. split; [exact Hrun|exact Hk].
Defined.

Lemma wallet_calls_keep_indexes_witness :
  exists w1,
    _manually_initialize phrase_chain_key index_key key_address check_words decode_any
      sample_wallet = Returned tt w1
    /\ forall cs,
         2 <= last_generated_index
                (final (wallet_calls index_key key_index key_address cs w1)).
Proof.
  destruct (wallet_calls_keep_indexes phrase_chain_key index_key key_index key_address
              check_words decode_any "legal winner" "english" EmptyString [] 3 12
              sample_wallet)
    as (w1 & Hrun & _ & Hcalls).
  - reflexivity.
  - discriminate.
  - reflexivity.
  - reflexivity.
  - lia.
  - exists w1. split; [exact Hrun|]. intros cs.
    destruct (Hcalls cs) as (_ & _ & Hl & _). lia.
Defined.

Lemma lock_then_get_unused_address_witness :
  exists w',
    get_unused_address index_key key_address true (lock initialized_wallet)
    = Returned (key_address 0) w'
    /\ keys w' = ∅.
Proof.
  destruct (lock_then_get_unused_address index_key key_index key_address true
              initialized_wallet "legal winner"%string eq_refl)
    as (_ & _ & w' & Hrun & Hkeys & _).
  exists w'. split; [exact Hrun|exact Hkeys].
Defined.

End WalletExampleFacts.

Module MetadataReadExampleFacts.

Import Metadata MetadataExamples MetadataReads MetadataFacts MetadataReadFacts.

Lemma to_json_reads_only_witness :
  exists data,
    to_json (sample_meta (Some [xab]%byte) None 2%float) sample_heap = Ok (data, sample_heap)
    /\ j_score data = Some 2%float.
Proof.
  destruct (proj2 (to_json_reads_only sample_heap (sample_meta (Some [xab]%byte) None 2%float))
              (MetadataExampleFacts.sample_well_formed _ _ _))
    as (data & d & Hjson & _ & _ & _ & Hscore).
  exists data. split; [exact Hjson|exact Hscore].
Defined.

Lemma clone_needs_hash_witness :
  clone (sample_meta None None 2%float) sample_heap = Raise TypeError.
Proof.
  apply (clone_needs_hash sample_heap (sample_meta None None 2%float)).
  - apply MetadataExampleFacts.sample_well_formed.
  - left. reflexivity.
Defined.

Lemma __eq___self_witness :
  __eq__ (sample_meta None None nan) (sample_meta None None nan) sample_heap
  = Ok (false, sample_heap).
Proof.
  apply (__eq___self sample_heap (sample_meta None None nan)).
  apply MetadataExampleFacts.sample_well_formed.
Defined.

Lemma clone_keeps_witness :
  exists m' h',
    clone (sample_meta (Some [xab]%byte) (Some []) 2%float) sample_heap = Ok (m', h')
    /\ first_block m' = None.
Proof.
  destruct (clone_keeps sample_heap (sample_meta (Some [xab]%byte) (Some []) 2%float)
              [xab]%byte) as (m' & h' & so & so' & Hclone & _ & _ & _ & Hfb & _).
  - apply MetadataExampleFacts.sample_well_formed.
  - reflexivity.
  - discriminate.
  - exists m', h'. split; [exact Hclone|exact Hfb].
Defined.

End MetadataReadExampleFacts.
